(** * A locator-based binary-heap priority queue (priorityqueue.py)

    Shallow embedding of [MinHeapPriorityQueue] and [MaxHeapPriorityQueue].

    Python objects have identity and are mutated in place: a [Locator] is
    reachable both from the queue's backing list [self._pq] and from the
    caller who kept the token returned by [append].  The embedding
    therefore keeps an object store (a list of [Locator] records, the
    address of an object being its position in the store) and the backing
    list holds addresses.  [loc1 is loc2] is equality of addresses.

    Priorities ([Locator._value]) are Python ints, modelled as [Z].
    Indices are natural numbers: the places where the source could produce
    a negative index are written out where they occur. *)

From Stdlib Require Import ZArith Lia String Sorted.
From stdpp Require Import base list sorting gmap.

Open Scope Z_scope.
Open Scope nat_scope.

(** ** Exceptions, results and the state monad of the methods *)

(** The exceptions the code can raise.  [ValueError] is the
    ['Invalid locator'] error of [update] and [remove] (and what [max]
    raises on an empty sequence in the example program); [IndexError] comes
    from list indexing and [list.pop]; [AttributeError] is what Python
    raises when the object handed in as a locator has no [_index] (here:
    an address that denotes no [Locator]); [RecursionError] bounds the
    depth of the recursive sifts; [AssertionError] is raised by the
    [assert] statements of the doctest's [verify] and [verify_max];
    [KeyError] by a dict lookup of the example program. *)
Inductive exn :=
| IndexError | ValueError | AttributeError | RecursionError
| AssertionError | KeyError.

#[global] Instance exn_eq_dec : EqDecision exn.
Proof. solve_decision. Defined.

Section PriorityQueue.

Context {Item : Type}.

(** class Locator: __slots__ = '_value', '_item', '_index' *)
Record Locator := mkLocator { _value : Z; _item : Item; _index : nat }.

(** The object store and the backing list [self._pq] of one queue. *)
Record state := mkState { store : list Locator; _pq : list nat }.

Inductive result (A : Type) :=
| Ok (a : A) (st : state)
| Raise (e : exn) (st : state).
Arguments Ok {A} a st.
Arguments Raise {A} e st.

Definition M (A : Type) := state → result A.

Definition ret {A} (a : A) : M A := λ st, Ok a st.
Definition raise {A} (e : exn) : M A := λ st, Raise e st.
Definition bind {A B} (m : M A) (f : A → M B) : M B :=
  λ st, match m st with
        | Ok a st' => f a st'
        | Raise e st' => Raise e st'
        end.

Notation "'let!' x ':=' m 'in' k" := (bind m (λ x, k))
  (at level 10, x name, m at level 100, k at level 200).

(** The state a computation ends in, whether it returns or raises. *)
Definition final {A} (r : result A) : state :=
  match r with Ok _ st => st | Raise _ st => st end.

(** *** Primitive operations on the backing list and on objects *)

(** len(self._pq) *)
Definition len : M nat := λ st, Ok (length (_pq st)) st.

(** self._pq[i], for i >= 0 *)
Definition pq_get (i : nat) : M nat :=
  λ st, match _pq st !! i with
        | Some a => Ok a st
        | None => Raise IndexError st
        end.

(** self._pq[i] = a, for i >= 0 *)
Definition pq_set (i a : nat) : M unit :=
  λ st, if i <? length (_pq st)
        then Ok tt (mkState (store st) (<[i:=a]> (_pq st)))
        else Raise IndexError st.

(** self._pq.append(a) *)
Definition pq_append (a : nat) : M unit :=
  λ st, Ok tt (mkState (store st) (_pq st ++ [a])).

(** self._pq.pop() *)
Definition pq_pop : M nat :=
  λ st, match last (_pq st) with
        | Some a => Ok a (mkState (store st) (take (length (_pq st) - 1) (_pq st)))
        | None => Raise IndexError st
        end.

(** Reading the object at address [a]. *)
Definition deref (a : nat) : M Locator :=
  λ st, match store st !! a with
        | Some l => Ok l st
        | None => Raise AttributeError st
        end.

Definition get_value (a : nat) : M Z := let! l := deref a in ret (_value l).
Definition get_item (a : nat) : M Item := let! l := deref a in ret (_item l).
Definition get_index (a : nat) : M nat := let! l := deref a in ret (_index l).

Definition with_value (v : Z) (l : Locator) := mkLocator v (_item l) (_index l).
Definition with_item (x : Item) (l : Locator) := mkLocator (_value l) x (_index l).
Definition with_index (i : nat) (l : Locator) := mkLocator (_value l) (_item l) i.

(** Attribute assignment on the object at address [a]. *)
Definition setattr (f : Locator → Locator) (a : nat) : M unit :=
  λ st, match store st !! a with
        | Some l => Ok tt (mkState (<[a:=f l]> (store st)) (_pq st))
        | None => Raise AttributeError st
        end.

Definition set_value (a : nat) (v : Z) : M unit := setattr (with_value v) a.
Definition set_item (a : nat) (x : Item) : M unit := setattr (with_item x) a.
Definition set_index (a : nat) (i : nat) : M unit := setattr (with_index i) a.

(** self.Locator(value, item, i): a new object, at a new address. *)
Definition new_Locator (v : Z) (x : Item) (i : nat) : M nat :=
  λ st, Ok (length (store st))
           (mkState (store st ++ [mkLocator v x i]) (_pq st)).

(** Locator.__lt__ : self._value < other._value *)
Definition Locator_lt (a b : nat) : M bool :=
  let! va := get_value a in let! vb := get_value b in ret (va <? vb)%Z.

(** Locator.__le__ : self._value <= other._value *)
Definition Locator_le (a b : nat) : M bool :=
  let! va := get_value a in let! vb := get_value b in ret (va <=? vb)%Z.

(** Locator.__eq__ : self._value == other._value *)
Definition Locator_eq (a b : nat) : M bool :=
  let! va := get_value a in let! vb := get_value b in ret (va =? vb)%Z.

(** ** Non-public methods *)

(** (j-1) // 2.  Python gives -1 at j = 0; every use below is guarded by
    j > 0 (or by len > 1 in [_heapify]), where the two agree. *)
Definition _parent (j : nat) : nat := (j - 1) / 2.
Definition _left (j : nat) : nat := 2 * j + 1.
Definition _right (j : nat) : nat := 2 * j + 2.

(** self._pq[i], self._pq[j] = self._pq[j], self._pq[i]
    self._pq[i]._index = i
    self._pq[j]._index = j
    The right-hand side is evaluated first, left to right. *)
Definition _swap (i j : nat) : M unit :=
  let! aj := pq_get j in
  let! ai := pq_get i in
  let! _ := pq_set i aj in
  let! _ := pq_set j ai in
  let! a := pq_get i in
  let! _ := set_index a i in
  let! b := pq_get j in
  set_index b j.

(** The two classes: [MaxHeapPriorityQueue] inherits every method of
    [MinHeapPriorityQueue] and overrides [_upheap], [_downheap] and
    [__iter__]. *)
Inductive cls := MinHeapPriorityQueue | MaxHeapPriorityQueue.

(** MinHeapPriorityQueue._upheap; [fuel] bounds the recursion depth. *)
Fixpoint Min_upheap (fuel : nat) (i : nat) : M unit :=
  match fuel with
  | O => raise RecursionError
  | S fuel =>
      let parent := _parent i in
      if 0 <? i then
        let! a := pq_get i in
        let! b := pq_get parent in
        let! c := Locator_lt a b in
        if c then let! _ := _swap i parent in Min_upheap fuel parent
        else ret tt
      else ret tt
  end.

(** MinHeapPriorityQueue._downheap *)
Fixpoint Min_downheap (fuel : nat) (i : nat) : M unit :=
  match fuel with
  | O => raise RecursionError
  | S fuel =>
      let! n := len in
      let left := _left i in
      let right := _right i in
      if left <? n then
        let! child :=
          (if right <? n then
             let! a := pq_get right in
             let! b := pq_get left in
             let! c := Locator_lt a b in
             ret (if c then right else left)
           else ret left) in
        let! a := pq_get child in
        let! b := pq_get i in
        let! c := Locator_lt a b in
        if c then let! _ := _swap i child in Min_downheap fuel child
        else ret tt
      else ret tt
  end.

(** MaxHeapPriorityQueue._upheap *)
Fixpoint Max_upheap (fuel : nat) (i : nat) : M unit :=
  match fuel with
  | O => raise RecursionError
  | S fuel =>
      let parent := _parent i in
      if 0 <? i then
        let! a := pq_get parent in
        let! b := pq_get i in
        let! c := Locator_lt a b in
        if c then let! _ := _swap i parent in Max_upheap fuel parent
        else ret tt
      else ret tt
  end.

(** MaxHeapPriorityQueue._downheap *)
Fixpoint Max_downheap (fuel : nat) (i : nat) : M unit :=
  match fuel with
  | O => raise RecursionError
  | S fuel =>
      let! n := len in
      let left := _left i in
      let right := _right i in
      if left <? n then
        let! child :=
          (if right <? n then
             let! a := pq_get left in
             let! b := pq_get right in
             let! c := Locator_lt a b in
             ret (if c then right else left)
           else ret left) in
        let! a := pq_get i in
        let! b := pq_get child in
        let! c := Locator_lt a b in
        if c then let! _ := _swap i child in Max_downheap fuel child
        else ret tt
      else ret tt
  end.

(** Method dispatch on the class of [self].  A sift from index [i] moves
    to the parent (which is smaller) or to a child (which is larger and
    below [len]), so [S i] and [S len] calls are never exceeded. *)
Definition _upheap (c : cls) (i : nat) : M unit :=
  match c with
  | MinHeapPriorityQueue => Min_upheap (S i) i
  | MaxHeapPriorityQueue => Max_upheap (S i) i
  end.

Definition _downheap (c : cls) (i : nat) : M unit :=
  λ st, match c with
        | MinHeapPriorityQueue => Min_downheap (S (length (_pq st))) i st
        | MaxHeapPriorityQueue => Max_downheap (S (length (_pq st))) i st
        end.

(** self._upheap(i); self._downheap(i) *)
Definition _fix (c : cls) (i : nat) : M unit :=
  let! _ := _upheap c i in _downheap c i.

(** for j in js: body(j) *)
Fixpoint for_each (js : list nat) (body : nat → M unit) : M unit :=
  match js with
  | [] => ret tt
  | j :: js => let! _ := body j in for_each js body
  end.

(** range(start, -1, -1) *)
Definition range_down (start : nat) : list nat := rev (seq 0 (S start)).

(** start = self._parent(len(self) - 1)
    for j in range(start, -1, -1): self._downheap(j)
    Only called when len > 1, so that len - 1 > 0. *)
Definition _heapify (c : cls) : M unit :=
  let! n := len in
  let start := _parent (n - 1) in
  for_each (range_down start) (λ j, _downheap c j).

(** ** Public methods *)

(** decorated = [(key(item), item) for item in iterable]
    self._pq = [self.Locator(value, item, i) for i, (value, item) in enumerate(decorated)] *)
Fixpoint new_locators (key : Item → Z) (items : list Item) (i : nat) : M (list nat) :=
  match items with
  | [] => ret []
  | x :: items =>
      let! a := new_Locator (key x) x i in
      let! rest := new_locators key items (S i) in
      ret (a :: rest)
  end.

(** self._pq = addrs *)
Definition pq_assign (addrs : list nat) : M unit :=
  λ st, Ok tt (mkState (store st) addrs).

(** MinHeapPriorityQueue.__init__ *)
Definition __init__ (c : cls) (key : Item → Z) (iterable : list Item) : M unit :=
  let! addrs := new_locators key iterable 0 in
  let! _ := pq_assign addrs in
  let! n := len in
  if 1 <? n then _heapify c else ret tt.

(** MinHeapPriorityQueue.append *)
Definition append (c : cls) (key : Item → Z) (item : Item) : M nat :=
  let! n := len in
  let! token := new_Locator (key item) item n in
  let! _ := pq_append token in
  let! n := len in
  let! _ := _upheap c (n - 1) in
  ret token.

(** not (0 <= j < len(self) and self._pq[j] is loc) *)
Definition invalid_locator (loc j : nat) : M bool :=
  let! n := len in
  if j <? n then
    let! a := pq_get j in
    ret (negb (a =? loc))
  else ret true.

(** MinHeapPriorityQueue.update *)
Definition update (c : cls) (loc : nat) (newval : Z) (newitem : Item) : M unit :=
  let! j := get_index loc in
  let! bad := invalid_locator loc j in
  if bad then raise ValueError
  else
    let! _ := set_value loc newval in
    let! _ := set_item loc newitem in
    _fix c j.

(** MinHeapPriorityQueue.remove *)
Definition remove (c : cls) (loc : nat) : M Item :=
  let! j := get_index loc in
  let! bad := invalid_locator loc j in
  if bad then raise ValueError
  else
    let! n := len in
    let! _ :=
      (if j =? n - 1 then
         let! _ := pq_pop in ret tt
       else
         let! _ := _swap j (n - 1) in
         let! _ := pq_pop in
         _fix c j) in
    get_item loc.

(** MinHeapPriorityQueue.peek *)
Definition peek : M Item :=
  let! loc := pq_get 0 in
  get_item loc.

(** MinHeapPriorityQueue.pop.  On an empty queue the source calls
    self._swap(0, -1), whose first read self._pq[-1] raises IndexError. *)
Definition pop (c : cls) : M Item :=
  let! n := len in
  let! _ := (if n =? 0 then raise IndexError else _swap 0 (n - 1)) in
  let! loc := pq_pop in
  let! _ := _downheap c 0 in
  get_item loc.

(** [token._item for token in addrs] *)
Fixpoint items_of (addrs : list nat) : M (list Item) :=
  match addrs with
  | [] => ret []
  | a :: addrs =>
      let! x := get_item a in
      let! xs := items_of addrs in
      ret (x :: xs)
  end.

(** MinHeapPriorityQueue.items *)
Definition items : M (list Item) := λ st, items_of (_pq st) st.

(** MinHeapPriorityQueue.__len__ *)
Definition __len__ : M nat := len.

(** MinHeapPriorityQueue.__contains__ : item in self.items *)
Definition __contains__ `{EqDecision Item} (item : Item) : M bool :=
  let! xs := items in
  ret (bool_decide (item ∈ xs)).

(** sorted(xs): a stable sort that compares the items with their own [<]
    only; an item goes before the first one that is not smaller.  The
    builtin is modelled where its result does not depend on the sorting
    algorithm: [lt] is defined on every pair of items (no comparison
    raises TypeError) and orders them consistently, equal items apart,
    which a stable sort keeps in the order given.  The theorems about
    sorted lists assume such an [lt]. *)
Fixpoint sorted_insert (lt : Item → Item → bool) (x : Item) (l : list Item) : list Item :=
  match l with
  | [] => [x]
  | y :: l' => if lt y x then y :: sorted_insert lt x l' else x :: l
  end.

Definition sorted (lt : Item → Item → bool) (xs : list Item) : list Item :=
  foldr (sorted_insert lt) [] xs.

(** sorted(xs, reverse=True): the list is reversed, sorted by the same
    stable sort and reversed again, which keeps equal items in their
    original order. *)
Definition sorted_reverse (lt : Item → Item → bool) (xs : list Item) : list Item :=
  rev (sorted lt (rev xs)).

(** __iter__ : iter(sorted(self.items)) for the min-oriented class,
    iter(sorted(self.items, reverse=True)) for the max-oriented one.
    [item_lt] is the [<] of the items, which [sorted] takes to be defined
    on every pair of them. *)
Definition __iter__ (c : cls) (item_lt : Item → Item → bool) : M (list Item) :=
  let! xs := items in
  match c with
  | MinHeapPriorityQueue => ret (sorted item_lt xs)
  | MaxHeapPriorityQueue => ret (sorted_reverse item_lt xs)
  end.


(** ** Views of a state *)

(** The object in slot [k] of the backing list. *)
Definition loc_at (st : state) (k : nat) : option Locator :=
  _pq st !! k ≫= λ a, store st !! a.

(** Its priority and its payload. *)
Definition val_at (st : state) (k : nat) : option Z := _value <$> loc_at st k.
Definition item_at (st : state) (k : nat) : option Item := _item <$> loc_at st k.

(** What a sift never changes in an object. *)
Definition payload (l : Locator) : Z * Item := (_value l, _item l).

(** Position coherence: every slot of the backing list holds the address
    of an object whose recorded index is that slot. *)
Definition coherent (st : state) : Prop :=
  ∀ i a, _pq st !! i = Some a → ∃ l, store st !! a = Some l ∧ _index l = i.

(** The comparison of an orientation and its non-strict version. *)
Definition better (c : cls) (x y : Z) : bool :=
  match c with
  | MinHeapPriorityQueue => (x <? y)%Z
  | MaxHeapPriorityQueue => (y <? x)%Z
  end.

Definition ble (c : cls) (x y : Z) : Prop :=
  match c with
  | MinHeapPriorityQueue => (x ≤ y)%Z
  | MaxHeapPriorityQueue => (y ≤ x)%Z
  end.

(** Heap order, as the doctest's [verify] and [verify_max] check it. *)
Definition heap_order (c : cls) (st : state) : Prop :=
  ∀ i vi, val_at st i = Some vi →
    (∀ vl, val_at st (_left i) = Some vl → ble c vi vl) ∧
    (∀ vr, val_at st (_right i) = Some vr → ble c vi vr).

(** Exchange of two indices. *)
Definition transp (i j k : nat) : nat :=
  if decide (k = i) then j else if decide (k = j) then i else k.

(** ** The sifts, by class *)

Definition upheap_fuel (c : cls) : nat → nat → M unit :=
  match c with
  | MinHeapPriorityQueue => Min_upheap
  | MaxHeapPriorityQueue => Max_upheap
  end.

Definition downheap_fuel (c : cls) : nat → nat → M unit :=
  match c with
  | MinHeapPriorityQueue => Min_downheap
  | MaxHeapPriorityQueue => Max_downheap
  end.

(** ** Basic facts *)

Lemma ble_refl c x : ble c x x.
Proof. destruct c; simpl; lia. Qed.

Lemma ble_trans c x y z : ble c x y → ble c y z → ble c x z.
Proof. destruct c; simpl; lia. Qed.

Lemma better_ble c x y : better c x y = true → ble c x y.
Proof. destruct c; simpl; lia. Qed.

Lemma not_better_ble c x y : better c x y = false → ble c y x.
Proof. destruct c; simpl; lia. Qed.

Lemma parent_lt j : 0 < j → _parent j < j.
Proof.
  intros Hj. unfold _parent.
  apply Nat.Div0.div_lt_upper_bound. lia.
Qed.

Lemma parent_left j : _parent (_left j) = j.
Proof.
  unfold _parent, _left. replace (2 * j + 1 - 1) with (j * 2) by lia.
  apply Nat.div_mul. lia.
Qed.

Lemma parent_right j : _parent (_right j) = j.
Proof.
  unfold _parent, _right. replace (2 * j + 2 - 1) with (1 + j * 2) by lia.
  rewrite Nat.div_add by lia. reflexivity.
Qed.

Lemma child_cases k : 0 < k → k = _left (_parent k) ∨ k = _right (_parent k).
Proof.
  intros Hk. unfold _left, _right, _parent.
  pose proof (Nat.div_mod_eq (k - 1) 2) as E.
  pose proof (Nat.mod_upper_bound (k - 1) 2) as B.
  lia.
Qed.

Lemma coherent_inj st i j a :
  coherent st → _pq st !! i = Some a → _pq st !! j = Some a → i = j.
Proof.
  intros Hc Hi Hj.
  destruct (Hc _ _ Hi) as (l & Hl & <-).
  destruct (Hc _ _ Hj) as (l' & Hl' & <-).
  congruence.
Qed.

Lemma coherent_NoDup st : coherent st → NoDup (_pq st).
Proof.
  intros Hc. apply NoDup_alt. intros i j a. apply coherent_inj, Hc.
Qed.

Lemma coherent_loc_at st k :
  coherent st → k < length (_pq st) →
  ∃ a l, _pq st !! k = Some a ∧ store st !! a = Some l ∧ _index l = k.
Proof.
  intros Hc Hk. destruct (lookup_lt_is_Some_2 (_pq st) k Hk) as [a Ha].
  destruct (Hc _ _ Ha) as (l & Hl & Hi). eauto.
Qed.

Lemma loc_at_Some st k l :
  loc_at st k = Some l ↔ ∃ a, _pq st !! k = Some a ∧ store st !! a = Some l.
Proof.
  unfold loc_at. destruct (_pq st !! k) as [a|]; simpl.
  - split; [eauto | intros (a' & [= <-] & H); done].
  - split; [done | intros (a' & [=] & _)].
Qed.

Lemma loc_at_lt st k l : loc_at st k = Some l → k < length (_pq st).
Proof.
  intros (a & Ha & _)%loc_at_Some. eapply lookup_lt_Some, Ha.
Qed.

Lemma val_at_lt st k v : val_at st k = Some v → k < length (_pq st).
Proof.
  unfold val_at. destruct (loc_at st k) eqn:E; [|done].
  intros _. eapply loc_at_lt, E.
Qed.

Lemma coherent_val_at st k :
  coherent st → k < length (_pq st) → is_Some (val_at st k).
Proof.
  intros Hc Hk. destruct (coherent_loc_at _ _ Hc Hk) as (a & l & Ha & Hl & _).
  unfold val_at, loc_at. rewrite Ha. simpl. rewrite Hl. eauto.
Qed.

(** *** [_swap] in closed form *)

Lemma swap_eq st i j ai aj li lj :
  _pq st !! i = Some ai → _pq st !! j = Some aj →
  store st !! ai = Some li → store st !! aj = Some lj →
  _swap i j st =
    Ok tt (mkState (<[ai:=with_index j li]> (<[aj:=with_index i lj]> (store st)))
                   (<[j:=ai]> (<[i:=aj]> (_pq st)))).
Proof.
  intros Hi Hj Hli Hlj.
  pose proof (lookup_lt_Some _ _ _ Hi) as Li.
  pose proof (lookup_lt_Some _ _ _ Hj) as Lj.
  pose proof (lookup_lt_Some _ _ _ Hli) as Lai.
  pose proof (lookup_lt_Some _ _ _ Hlj) as Laj.
  unfold _swap, bind, pq_get, pq_set, set_index, setattr. simpl.
  rewrite Hj, Hi.
  destruct (Nat.ltb_spec i (length (_pq st))); [|lia]. simpl.
  rewrite length_insert.
  destruct (Nat.ltb_spec j (length (_pq st))); [|lia]. simpl.
  destruct (decide (i = j)) as [->|Hij].
  - assert (ai = aj) as -> by congruence.
    assert (li = lj) as -> by congruence.
    rewrite list_lookup_insert_eq by (rewrite length_insert; lia). simpl.
    rewrite Hlj. simpl.
    rewrite list_lookup_insert_eq by (rewrite length_insert; lia). simpl.
    rewrite list_lookup_insert_eq by lia. reflexivity.
  - rewrite list_lookup_insert_ne by done.
    rewrite list_lookup_insert_eq by lia. simpl.
    rewrite Hlj. simpl.
    rewrite list_lookup_insert_eq by (rewrite length_insert; lia). simpl.
    destruct (decide (ai = aj)) as [->|Hne].
    + assert (li = lj) as -> by congruence.
      rewrite list_lookup_insert_eq by lia. reflexivity.
    + rewrite list_lookup_insert_ne by done. rewrite Hli. reflexivity.
Qed.

(** *** What a sift may change *)

(** [rearranged st st']: the backing list holds the same addresses in
    another order, every object keeps its priority and payload, objects
    outside the queue are untouched, and the result is position coherent. *)
Record rearranged (st st' : state) : Prop := {
  rr_coherent : coherent st';
  rr_perm : _pq st' ≡ₚ _pq st;
  rr_store_len : length (store st') = length (store st);
  rr_payload : ∀ a, payload <$> store st' !! a = payload <$> store st !! a;
  rr_frame : ∀ a, a ∉ _pq st → store st' !! a = store st !! a
}.

Lemma rearranged_refl st : coherent st → rearranged st st.
Proof. intros Hc. split; auto. Qed.

Lemma rearranged_trans st1 st2 st3 :
  rearranged st1 st2 → rearranged st2 st3 → rearranged st1 st3.
Proof.
  intros [c1 p1 l1 y1 f1] [c2 p2 l2 y2 f2]. split.
  - done.
  - by rewrite p2.
  - congruence.
  - intros a. by rewrite y2.
  - intros a Ha. rewrite f2, f1; [done..|]. by rewrite p1.
Qed.

Lemma rearranged_length st st' :
  rearranged st st' → length (_pq st') = length (_pq st).
Proof. intros [_ p _ _ _]. by rewrite p. Qed.

Lemma transp_invol i j k : transp i j (transp i j k) = k.
Proof. unfold transp. repeat case_decide; congruence. Qed.

Lemma swap_spec st i j :
  coherent st → i < length (_pq st) → j < length (_pq st) →
  ∃ st', _swap i j st = Ok tt st' ∧ rearranged st st' ∧
         (∀ k, payload <$> loc_at st' k = payload <$> loc_at st (transp i j k)) ∧
         (∀ k, _pq st' !! k = _pq st !! transp i j k).
Proof.
  intros Hc Hi Hj.
  destruct (coherent_loc_at _ _ Hc Hi) as (ai & li & Hai & Hli & Hxi).
  destruct (coherent_loc_at _ _ Hc Hj) as (aj & lj & Haj & Hlj & Hxj).
  eexists. split; [by apply (swap_eq st i j ai aj li lj)|].
  pose proof (lookup_lt_Some _ _ _ Hli) as Lai.
  pose proof (lookup_lt_Some _ _ _ Hlj) as Laj.
  assert (Hpq : ∀ k, <[j:=ai]> (<[i:=aj]> (_pq st)) !! k = _pq st !! transp i j k).
  { intros k. unfold transp.
    destruct (decide (k = j)) as [->|Hkj].
    - rewrite list_lookup_insert_eq by (rewrite length_insert; lia).
      destruct (decide (j = i)) as [->|]; [congruence|].
      try rewrite decide_True by done. done.
    - rewrite list_lookup_insert_ne by done.
      destruct (decide (k = i)) as [->|Hki].
      + rewrite list_lookup_insert_eq by lia. done.
      + rewrite list_lookup_insert_ne by done. done. }
  assert (Hst : ∀ a l, store st !! a = Some l →
     ∃ l', <[ai:=with_index j li]> (<[aj:=with_index i lj]> (store st)) !! a = Some l'
           ∧ payload l' = payload l
           ∧ _index l' = (if decide (a = ai) then j else if decide (a = aj) then i else _index l)).
  { intros a l Hl.
    destruct (decide (a = ai)) as [->|Hne].
    - rewrite list_lookup_insert_eq by (rewrite length_insert; lia).
      assert (l = li) as -> by congruence.
      eexists; split; [done|]. split; done.
    - rewrite list_lookup_insert_ne by done.
      destruct (decide (a = aj)) as [->|Hne'].
      + rewrite list_lookup_insert_eq by lia.
        assert (l = lj) as -> by congruence.
        eexists; split; [done|]. split; done.
      + rewrite list_lookup_insert_ne by done. eauto. }
  assert (Hco : coherent
    (mkState (<[ai:=with_index j li]> (<[aj:=with_index i lj]> (store st)))
             (<[j:=ai]> (<[i:=aj]> (_pq st))))).
  { intros k a. simpl. rewrite Hpq. intros Hk.
    destruct (Hc _ _ Hk) as (l & Hl & Hx).
    destruct (Hst _ _ Hl) as (l' & Hl' & _ & Hx').
    exists l'. split; [done|]. rewrite Hx'.
    unfold transp in Hk.
    destruct (decide (k = i)) as [->|Hki]; simpl in Hk.
    - assert (a = aj) as -> by congruence.
      destruct (decide (aj = ai)) as [E|]; [|by rewrite decide_True].
      rewrite E in Haj. by rewrite (coherent_inj _ _ _ _ Hc Hai Haj).
    - destruct (decide (k = j)) as [->|Hkj]; simpl in Hk.
      + assert (a = ai) as -> by congruence. by rewrite decide_True.
      + assert (a ≠ ai) by (intros ->; apply Hki; eapply coherent_inj; eauto).
        assert (a ≠ aj) by (intros ->; apply Hkj; eapply coherent_inj; eauto).
        rewrite !decide_False by done. rewrite Hx. unfold transp.
        by rewrite !decide_False. }
  split; [split|split]; simpl; [..|done].
  - done.
  - by apply Permutation_insert_swap.
  - by rewrite !length_insert.
  - intros a. destruct (store st !! a) as [l|] eqn:E.
    + destruct (Hst _ _ E) as (l' & -> & Hp & _). simpl. by rewrite Hp.
    + apply lookup_ge_None in E.
      rewrite (proj2 (lookup_ge_None _ _)); [done|].
      rewrite !length_insert. done.
  - intros a Ha.
    rewrite !list_lookup_insert_ne; [done|..].
    + intros <-. apply Ha. eapply list_elem_of_lookup_2, Haj.
    + intros <-. apply Ha. eapply list_elem_of_lookup_2, Hai.
  - intros k. unfold loc_at. simpl. rewrite Hpq.
    destruct (_pq st !! transp i j k) as [a|] eqn:E; simpl; [|done].
    destruct (Hc _ _ E) as (l & Hl & _).
    destruct (Hst _ _ Hl) as (l' & -> & Hp & _). rewrite Hl. simpl. by rewrite Hp.
Qed.

Lemma payload_val (o o' : option Locator) :
  payload <$> o = payload <$> o' → _value <$> o = _value <$> o'.
Proof.
  destruct o as [[]|], o' as [[]|]; simpl; unfold payload; simpl; congruence.
Qed.

Lemma payload_item (o o' : option Locator) :
  payload <$> o = payload <$> o' → _item <$> o = _item <$> o'.
Proof.
  destruct o as [[]|], o' as [[]|]; simpl; unfold payload; simpl; congruence.
Qed.

(** ** Heap order on a priority assignment

    The order arguments of the sifts only look at the priorities of the
    slots, a partial function from indices. *)

Lemma transp_l i j : transp i j i = j.
Proof. unfold transp. by rewrite decide_True. Qed.

Lemma transp_r i j : transp i j j = i.
Proof. unfold transp. case_decide; [done|]. by rewrite decide_True. Qed.

Lemma transp_other i j k : k ≠ i → k ≠ j → transp i j k = k.
Proof. intros. unfold transp. by rewrite !decide_False. Qed.

Definition ordered (c : cls) (v : nat → option Z) (p k : nat) : Prop :=
  ∀ x y, v p = Some x → v k = Some y → ble c x y.

(** Every slot whose parent is at or after [m] is in order with it. *)
Definition heap_from (c : cls) (m : nat) (v : nat → option Z) : Prop :=
  ∀ k, 0 < k → m ≤ _parent k → ordered c v (_parent k) k.

(** The only pair that may be out of order is slot [i] and its parent. *)
Definition up_inv (c : cls) (v : nat → option Z) (i : nat) : Prop :=
  (∀ k, 0 < k → k ≠ i → ordered c v (_parent k) k) ∧
  (0 < i → ∀ k, 0 < k → _parent k = i → ordered c v (_parent i) k).

(** The only pairs that may be out of order, among those whose parent is
    at or after [m], are slot [i] and its children. *)
Definition down_inv (c : cls) (m : nat) (v : nat → option Z) (i : nat) : Prop :=
  (∀ k, 0 < k → m ≤ _parent k → _parent k ≠ i → ordered c v (_parent k) k) ∧
  (0 < i → m ≤ _parent i → ∀ k, 0 < k → _parent k = i → ordered c v (_parent i) k).

Lemma up_swap c v v' i vi vp :
  0 < i → v i = Some vi → v (_parent i) = Some vp → better c vi vp = true →
  (∀ k, v' k = v (transp i (_parent i) k)) →
  up_inv c v i → up_inv c v' (_parent i).
Proof.
  intros Hi Hvi Hvp Hb Hv' [H1 H2].
  pose proof (parent_lt i Hi) as Hlt.
  apply better_ble in Hb.
  split.
  - intros k Hk Hkp x y. rewrite !Hv'.
    pose proof (parent_lt k Hk) as Hltk.
    destruct (decide (k = i)) as [->|Hki].
    + rewrite transp_r, transp_l. congruence.
    + rewrite (transp_other _ _ k) by done.
      destruct (decide (_parent k = i)) as [E|Hpi].
      * rewrite E, transp_l. intros Hx Hy.
        assert (x = vp) as -> by congruence.
        eapply (H2 Hi k); eauto.
      * destruct (decide (_parent k = _parent i)) as [E|Hpp].
        -- rewrite E, transp_r. intros Hx Hy.
           assert (x = vi) as -> by congruence.
           eapply ble_trans; [exact Hb|].
           eapply (H1 k); eauto. by rewrite E.
        -- rewrite transp_other by done. by apply H1.
  - intros Hp k Hk Hkp x y. rewrite !Hv'.
    pose proof (parent_lt _ Hp) as Hltp.
    pose proof (parent_lt k Hk) as Hltk.
    rewrite (transp_other _ _ (_parent (_parent i))) by lia.
    intros Hx.
    assert (ble c x vp) as Hxp.
    { eapply (H1 (_parent i)); eauto. lia. }
    destruct (decide (k = i)) as [->|Hki].
    + rewrite transp_l. congruence.
    + rewrite transp_other by lia. intros Hy.
      eapply ble_trans; [exact Hxp|].
      eapply (H1 k); eauto. by rewrite Hkp.
Qed.

Lemma up_done c v i :
  up_inv c v i →
  (0 < i → ordered c v (_parent i) i) →
  heap_from c 0 v.
Proof.
  intros [H1 _] Hd k Hk _.
  destruct (decide (k = i)) as [->|]; auto.
Qed.

Lemma down_swap c m v v' i ch vi vc :
  0 < ch → _parent ch = i → m ≤ i →
  v i = Some vi → v ch = Some vc → better c vc vi = true →
  (∀ k y, 0 < k → _parent k = i → v k = Some y → ble c vc y) →
  (∀ k, v' k = v (transp i ch k)) →
  down_inv c m v i → down_inv c m v' ch.
Proof.
  intros Hch Hpc Hm Hvi Hvc Hb Hbest Hv' [H1 H2].
  pose proof (parent_lt ch Hch) as Hlt. rewrite Hpc in Hlt.
  apply better_ble in Hb.
  split.
  - intros k Hk Hmk Hkc x y. rewrite !Hv'.
    pose proof (parent_lt k Hk) as Hltk.
    destruct (decide (k = ch)) as [->|Hkch].
    + rewrite Hpc, transp_l, transp_r. congruence.
    + destruct (decide (k = i)) as [->|Hki].
      * rewrite transp_l, transp_other by lia. intros Hx Hy.
        assert (y = vc) as -> by congruence.
        eapply (H2 Hk Hmk ch); eauto.
      * rewrite (transp_other _ _ k) by done.
        destruct (decide (_parent k = i)) as [E|Hpi].
        -- rewrite E, transp_l. intros Hx Hy.
           assert (x = vc) as -> by congruence. eauto.
        -- rewrite transp_other by done. by apply H1.
  - intros _ _ k Hk Hkp x y. rewrite !Hv'.
    pose proof (parent_lt k Hk) as Hltk.
    rewrite Hpc, transp_l, transp_other by lia. intros Hx Hy.
    assert (x = vc) as -> by congruence.
    eapply (H1 k); eauto; rewrite Hkp; [lia|lia|done].
Qed.

Lemma down_done c m v i :
  down_inv c m v i →
  (∀ k, 0 < k → _parent k = i → ordered c v i k) →
  heap_from c m v.
Proof.
  intros [H1 _] Hd k Hk Hm.
  destruct (decide (_parent k = i)) as [E|]; auto.
  rewrite E. auto.
Qed.

(** The priorities of a state are defined on a prefix of the indices. *)
Definition dom_closed (v : nat → option Z) : Prop :=
  ∀ j k, j ≤ k → is_Some (v k) → is_Some (v j).

Lemma heap_from_down_inv c v i :
  dom_closed v → heap_from c 0 v → down_inv c 0 v i.
Proof.
  intros Hd H. split.
  - intros k Hk _ _. apply H; [done|lia].
  - intros Hi _ k Hk E x y Hx Hy.
    pose proof (parent_lt k Hk).
    destruct (Hd i k) as [z Hz]; [lia|eauto|].
    eapply ble_trans.
    + eapply (H i); eauto. lia.
    + eapply (H k); eauto; [lia|]. by rewrite E.
Qed.

(** After slot [j] received an arbitrary priority, the pairs that may be
    out of order are [j] with its parent and [j] with its children. *)
Definition fix_inv (c : cls) (v : nat → option Z) (j : nat) : Prop :=
  (∀ k, 0 < k → k ≠ j → _parent k ≠ j → ordered c v (_parent k) k) ∧
  (0 < j → ∀ k, 0 < k → _parent k = j → ordered c v (_parent j) k).

Lemma fix_inv_up c v j vj vp :
  0 < j → v j = Some vj → v (_parent j) = Some vp → better c vj vp = true →
  fix_inv c v j → up_inv c v j.
Proof.
  intros Hj Hvj Hvp Hb [H1 H2]. split; [|done].
  intros k Hk Hkj x y Hx Hy.
  destruct (decide (_parent k = j)) as [E|]; [|by eapply H1].
  rewrite E in Hx. assert (x = vj) as -> by congruence.
  eapply ble_trans; [by apply better_ble|].
  eapply (H2 Hj k); eauto.
Qed.

Lemma fix_inv_down c v j :
  (0 < j → ordered c v (_parent j) j) → fix_inv c v j → down_inv c 0 v j.
Proof.
  intros Hp [H1 H2]. split; [|auto].
  intros k Hk _ Hkj. destruct (decide (k = j)) as [->|]; auto.
Qed.

Lemma heap_order_from c st :
  heap_order c st ↔ heap_from c 0 (val_at st).
Proof.
  split.
  - intros H k Hk _ x y Hx Hy.
    destruct (H _ _ Hx) as [Hl Hr].
    destruct (child_cases k Hk) as [E|E]; rewrite E in Hy; auto.
  - intros H i vi Hi. split.
    + intros vl Hl. eapply (H (_left i)); rewrite ?parent_left; eauto.
      all: unfold _left; lia.
    + intros vr Hr. eapply (H (_right i)); rewrite ?parent_right; eauto.
      all: unfold _right; lia.
Qed.

Lemma val_at_dom_closed st : coherent st → dom_closed (val_at st).
Proof.
  intros Hc j k Hjk [v Hv].
  apply coherent_val_at; [done|]. apply val_at_lt in Hv. lia.
Qed.

(** ** The sifts *)

Lemma val_at_Some st k v :
  val_at st k = Some v ↔
  ∃ a l, _pq st !! k = Some a ∧ store st !! a = Some l ∧ _value l = v.
Proof.
  unfold val_at. split.
  - destruct (loc_at st k) as [l|] eqn:E; [|done]. simpl. intros [= <-].
    apply loc_at_Some in E as (a & Ha & Hl). eauto.
  - intros (a & l & Ha & Hl & <-).
    rewrite (proj2 (loc_at_Some st k l)); eauto.
Qed.

Lemma Locator_lt_eq st a b la lb :
  store st !! a = Some la → store st !! b = Some lb →
  Locator_lt a b st = Ok (_value la <? _value lb)%Z st.
Proof.
  intros Ha Hb. unfold Locator_lt, bind, get_value, bind, deref, ret.
  by rewrite Ha, Hb.
Qed.

Lemma upheap_fuel_0 c fuel st : upheap_fuel c (S fuel) 0 st = Ok tt st.
Proof. by destruct c. Qed.

Lemma upheap_fuel_step c fuel i st vi vp :
  0 < i → val_at st i = Some vi → val_at st (_parent i) = Some vp →
  upheap_fuel c (S fuel) i st =
    if better c vi vp
    then (let! _ := _swap i (_parent i) in upheap_fuel c fuel (_parent i)) st
    else Ok tt st.
Proof.
  intros Hi (a & la & Ha & Hla & <-)%val_at_Some (b & lb & Hb & Hlb & <-)%val_at_Some.
  destruct (Nat.ltb_spec 0 i) as [_|]; [|lia].
  destruct c; simpl; destruct (Nat.ltb_spec 0 i) as [_|]; try lia;
    unfold bind at 1, pq_get at 1; rewrite ?Ha, ?Hb;
    unfold bind at 1, pq_get at 1; rewrite ?Ha, ?Hb;
    unfold bind at 1;
    [rewrite (Locator_lt_eq st a b la lb) by done
    |rewrite (Locator_lt_eq st b a lb la) by done];
    by destruct (_ <? _)%Z.
Qed.

Lemma upheap_fuel_spec c fuel : ∀ i st,
  coherent st → i < length (_pq st) → i < fuel →
  ∃ st', upheap_fuel c fuel i st = Ok tt st' ∧ rearranged st st' ∧
         (up_inv c (val_at st) i → heap_from c 0 (val_at st')) ∧
         ((0 < i → ∀ vi vp, val_at st i = Some vi →
                    val_at st (_parent i) = Some vp → better c vi vp = false) →
          st' = st).
Proof.
  induction fuel as [|fuel IH]; intros i st Hc Hi Hf; [lia|].
  destruct (decide (i = 0)) as [->|Hi0].
  { exists st. rewrite upheap_fuel_0. split; [done|].
    split; [by apply rearranged_refl|]. split; [|done].
    intros Hu. eapply up_done; [done|lia]. }
  assert (0 < i) as Hpos by lia.
  pose proof (parent_lt i Hpos) as Hlt.
  destruct (coherent_val_at st i Hc Hi) as [vi Hvi].
  destruct (coherent_val_at st (_parent i) Hc ltac:(lia)) as [vp Hvp].
  rewrite (upheap_fuel_step c fuel i st vi vp) by done.
  destruct (better c vi vp) eqn:Hb.
  - destruct (swap_spec st i (_parent i) Hc Hi ltac:(lia)) as (st1 & Hs & Hr1 & Hp1 & _).
    unfold bind. rewrite Hs.
    pose proof (rearranged_length _ _ Hr1) as Hlen.
    destruct (IH (_parent i) st1) as (st' & He & Hr2 & Hh & _);
      [apply Hr1|lia|lia|].
    exists st'. split; [done|]. split; [by eapply rearranged_trans|].
    split.
    + intros Hu. apply Hh.
      eapply up_swap; eauto.
      intros k. unfold val_at. apply payload_val, Hp1.
    + intros Hn. specialize (Hn Hpos _ _ Hvi Hvp). congruence.
  - exists st. split; [done|]. split; [by apply rearranged_refl|].
    split; [|done].
    intros Hu. eapply up_done; [done|].
    intros _ x y Hx Hy.
    assert (x = vp) as -> by congruence. assert (y = vi) as -> by congruence.
    by apply not_better_ble.
Qed.

(** The child [_downheap] compares slot [i] with. *)
Definition pick_child (c : cls) (st : state) (i : nat) : nat :=
  if _right i <? length (_pq st) then
    match val_at st (_right i), val_at st (_left i) with
    | Some vr, Some vl => if better c vr vl then _right i else _left i
    | _, _ => _left i
    end
  else _left i.

Lemma downheap_fuel_leaf c fuel i st :
  length (_pq st) ≤ _left i → downheap_fuel c (S fuel) i st = Ok tt st.
Proof.
  intros Hn. destruct c; simpl; unfold bind, len;
    by destruct (Nat.ltb_spec (_left i) (length (_pq st))); [lia|].
Qed.

Lemma downheap_fuel_step c fuel i st vi vc :
  coherent st → _left i < length (_pq st) →
  val_at st i = Some vi → val_at st (pick_child c st i) = Some vc →
  downheap_fuel c (S fuel) i st =
    if better c vc vi
    then (let! _ := _swap i (pick_child c st i) in
          downheap_fuel c fuel (pick_child c st i)) st
    else Ok tt st.
Proof.
  intros Hc Hl (a & la & Ha & Hla & <-)%val_at_Some Hch.
  destruct (coherent_val_at st (_left i) Hc Hl) as [vl Hvl].
  pose proof Hvl as (al & ll & Hal & Hll & Evl)%val_at_Some.
  unfold pick_child in *.
  destruct (Nat.ltb_spec (_right i) (length (_pq st))) as [Hr|Hr].
  - destruct (coherent_val_at st (_right i) Hc Hr) as [vr Hvr].
    pose proof Hvr as (ar & lr & Har & Hlr & Evr)%val_at_Some.
    rewrite Hvr, Hvl in Hch |- *.
    destruct c; simpl in *;
      unfold bind, len, pq_get, Locator_lt, get_value, bind, deref, ret;
      destruct (Nat.ltb_spec (_left i) (length (_pq st))); try lia;
      destruct (Nat.ltb_spec (_right i) (length (_pq st))); try lia;
      repeat (simpl; first [rewrite Har|rewrite Hal|rewrite Hlr|rewrite Hll]);
      rewrite ?Evl, ?Evr;
      destruct (_ <? _)%Z;
      apply val_at_Some in Hch as (ac & lc & Hac & Hlc & <-);
      repeat (simpl; first [rewrite Hac|rewrite Ha|rewrite Hlc|rewrite Hla]);
      by destruct (_ <? _)%Z.
  - apply val_at_Some in Hch as (ac & lc & Hac & Hlc & <-).
    destruct c; simpl;
      unfold bind, len, pq_get, Locator_lt, get_value, bind, deref, ret;
      destruct (Nat.ltb_spec (_left i) (length (_pq st))); try lia;
      destruct (Nat.ltb_spec (_right i) (length (_pq st))); try lia;
      repeat (simpl; first [rewrite Hac|rewrite Ha|rewrite Hlc|rewrite Hla]);
      by destruct (_ <? _)%Z.
Qed.

Lemma pick_child_cases c st i :
  pick_child c st i = _left i ∨
  (pick_child c st i = _right i ∧ _right i < length (_pq st)).
Proof.
  unfold pick_child.
  destruct (Nat.ltb_spec (_right i) (length (_pq st))); [|by left].
  destruct (val_at st (_right i)), (val_at st (_left i)); try by left.
  destruct (better c z z0); [by right|by left].
Qed.

Lemma pick_child_best c st i vc :
  coherent st →
  val_at st (pick_child c st i) = Some vc →
  ∀ k y, 0 < k → _parent k = i → val_at st k = Some y → ble c vc y.
Proof.
  intros Hc Hvc k y Hk Hp Hy.
  pose proof (val_at_lt _ _ _ Hy) as Hlt.
  unfold pick_child in Hvc.
  destruct (child_cases k Hk) as [E|E]; rewrite Hp in E; subst k.
  - destruct (Nat.ltb_spec (_right i) (length (_pq st))).
    + rewrite Hy in Hvc.
      destruct (val_at st (_right i)) as [vr|] eqn:Hr.
      * destruct (better c vr y) eqn:Hb.
        -- assert (vc = vr) as -> by congruence. by apply better_ble.
        -- assert (vc = y) as -> by congruence. apply ble_refl.
      * assert (vc = y) as -> by congruence. apply ble_refl.
    + assert (vc = y) as -> by congruence. apply ble_refl.
  - destruct (Nat.ltb_spec (_right i) (length (_pq st))); [|lia].
    rewrite Hy in Hvc.
    destruct (coherent_val_at st (_left i) Hc) as [vl Hl].
    { unfold _left, _right in *. lia. }
    rewrite Hl in Hvc.
    destruct (better c y vl) eqn:Hb.
    + assert (vc = y) as -> by congruence. apply ble_refl.
    + assert (vc = vl) as -> by congruence. by apply not_better_ble.
Qed.

Lemma downheap_fuel_spec c fuel : ∀ i st m,
  coherent st → length (_pq st) ≤ fuel + i → 0 < fuel → m ≤ i →
  ∃ st', downheap_fuel c fuel i st = Ok tt st' ∧ rearranged st st' ∧
         (down_inv c m (val_at st) i → heap_from c m (val_at st')).
Proof.
  induction fuel as [|fuel IH]; intros i st m Hc Hf Hpos Hm; [lia|].
  destruct (decide (length (_pq st) ≤ _left i)) as [Hleaf|Hl].
  { exists st. rewrite downheap_fuel_leaf by done. split; [done|].
    split; [by apply rearranged_refl|].
    intros Hd. eapply down_done; [done|].
    intros k Hk Hp x y _ Hy. apply val_at_lt in Hy.
    destruct (child_cases k Hk) as [E|E]; rewrite Hp in E;
      unfold _left, _right in *; lia. }
  assert (_left i < length (_pq st)) as Hleft by lia.
  assert (i < length (_pq st)) as Hi by (unfold _left in *; lia).
  destruct (coherent_val_at st i Hc Hi) as [vi Hvi].
  set (ch := pick_child c st i).
  assert (_parent ch = i ∧ i < ch ∧ ch < length (_pq st)) as (Hpc & Hich & Hch).
  { destruct (pick_child_cases c st i) as [E|[E Hr]]; fold ch in E; rewrite E.
    - rewrite parent_left. unfold _left in *. lia.
    - rewrite parent_right. unfold _right in *. lia. }
  destruct (coherent_val_at st ch Hc Hch) as [vc Hvc].
  rewrite (downheap_fuel_step c fuel i st vi vc) by done. fold ch.
  destruct (better c vc vi) eqn:Hb.
  - destruct (swap_spec st i ch Hc Hi Hch) as (st1 & Hs & Hr1 & Hp1 & _).
    unfold bind. rewrite Hs.
    pose proof (rearranged_length _ _ Hr1) as Hlen.
    destruct (IH ch st1 m) as (st' & He & Hr2 & Hh);
      [apply Hr1|lia|lia|lia|].
    exists st'. split; [done|]. split; [by eapply rearranged_trans|].
    intros Hd. apply Hh.
    eapply (down_swap c m (val_at st) (val_at st1) i ch vi vc); eauto; [lia|..].
    + by apply pick_child_best.
    + intros k. unfold val_at. apply payload_val, Hp1.
  - exists st. split; [done|]. split; [by apply rearranged_refl|].
    intros Hd. eapply down_done; [done|].
    intros k Hk Hp x y Hx Hy.
    assert (x = vi) as -> by congruence.
    eapply ble_trans; [by apply not_better_ble|].
    eapply pick_child_best; eauto.
Qed.

(** *** The dispatched sifts always return *)

Lemma upheap_spec c i st :
  coherent st → i < length (_pq st) →
  ∃ st', _upheap c i st = Ok tt st' ∧ rearranged st st' ∧
         (up_inv c (val_at st) i → heap_from c 0 (val_at st')) ∧
         ((0 < i → ∀ vi vp, val_at st i = Some vi →
                    val_at st (_parent i) = Some vp → better c vi vp = false) →
          st' = st).
Proof.
  intros Hc Hi.
  destruct (upheap_fuel_spec c (S i) i st Hc Hi ltac:(lia)) as (st' & He & H).
  exists st'. split; [|done]. by destruct c.
Qed.

Lemma downheap_spec c i st m :
  coherent st → m ≤ i →
  ∃ st', _downheap c i st = Ok tt st' ∧ rearranged st st' ∧
         (down_inv c m (val_at st) i → heap_from c m (val_at st')).
Proof.
  intros Hc Hm.
  destruct (downheap_fuel_spec c (S (length (_pq st))) i st m Hc
              ltac:(lia) ltac:(lia) Hm) as (st' & He & H).
  exists st'. split; [|done]. by destruct c.
Qed.

Lemma fix_spec c j st :
  coherent st → j < length (_pq st) →
  ∃ st', _fix c j st = Ok tt st' ∧ rearranged st st' ∧
         (fix_inv c (val_at st) j → heap_from c 0 (val_at st')).
Proof.
  intros Hc Hj.
  destruct (upheap_spec c j st Hc Hj) as (st1 & He1 & Hr1 & Hup & Hnop).
  destruct (downheap_spec c j st1 0 (rr_coherent _ _ Hr1) ltac:(lia))
    as (st2 & He2 & Hr2 & Hdown).
  exists st2. unfold _fix, bind. rewrite He1. split; [done|].
  split; [by eapply rearranged_trans|].
  intros Hf.
  destruct (coherent_val_at st j Hc Hj) as [vj Hvj].
  destruct (decide (0 < j)) as [Hpos|Hz].
  - pose proof (parent_lt j Hpos).
    destruct (coherent_val_at st (_parent j) Hc ltac:(lia)) as [vp Hvp].
    destruct (better c vj vp) eqn:Hb.
    + apply Hdown, heap_from_down_inv; [apply val_at_dom_closed, Hr1|].
      apply Hup. by eapply fix_inv_up.
    + rewrite Hnop in Hdown.
      * apply Hdown, fix_inv_down; [|done].
        intros _ x y Hx Hy.
        assert (x = vp) as -> by congruence. assert (y = vj) as -> by congruence.
        by apply not_better_ble.
      * intros _ vi' vp' Hi' Hp'. congruence.
  - rewrite Hnop in Hdown by (intros; lia).
    apply Hdown, fix_inv_down; [intros; lia|done].
Qed.

(** *** [_heapify] *)

Lemma range_down_S k : range_down (S k) = S k :: range_down k.
Proof.
  unfold range_down. rewrite (seq_S (S k)), rev_app_distr. reflexivity.
Qed.

Lemma heapify_loop c k : ∀ st,
  coherent st →
  ∃ st', for_each (range_down k) (λ j, _downheap c j) st = Ok tt st' ∧
         rearranged st st' ∧
         (heap_from c (S k) (val_at st) → heap_from c 0 (val_at st')).
Proof.
  assert (Hstep : ∀ j st, coherent st →
    ∃ st', _downheap c j st = Ok tt st' ∧ rearranged st st' ∧
           (heap_from c (S j) (val_at st) → heap_from c j (val_at st'))).
  { intros j st Hc.
    destruct (downheap_spec c j st j Hc ltac:(lia)) as (st' & He & Hr & Hd).
    exists st'. split; [done|]. split; [done|].
    intros Hh. apply Hd. split.
    - intros i Hi Hm Hne. apply Hh; [done|lia].
    - intros Hj Hm. pose proof (parent_lt j Hj). lia. }
  induction k as [|k IH]; intros st Hc.
  - destruct (Hstep 0 st Hc) as (st' & He & Hr & Hd).
    exists st'. unfold range_down. simpl. unfold bind. rewrite He. done.
  - destruct (Hstep (S k) st Hc) as (st1 & He & Hr & Hd).
    destruct (IH st1 (rr_coherent _ _ Hr)) as (st2 & He2 & Hr2 & Hd2).
    exists st2. rewrite range_down_S. simpl. unfold bind. rewrite He.
    split; [done|]. split; [by eapply rearranged_trans|]. auto.
Qed.

Lemma parent_mono j k : j ≤ k → _parent j ≤ _parent k.
Proof. intros. unfold _parent. apply Nat.Div0.div_le_mono. lia. Qed.

Lemma heapify_spec c st :
  coherent st →
  ∃ st', _heapify c st = Ok tt st' ∧ rearranged st st' ∧
         heap_from c 0 (val_at st').
Proof.
  intros Hc.
  destruct (heapify_loop c (_parent (length (_pq st) - 1)) st Hc)
    as (st' & He & Hr & Hh).
  exists st'. split; [done|]. split; [done|].
  apply Hh. intros k Hk Hm x y _ Hy.
  apply val_at_lt in Hy.
  pose proof (parent_mono k (length (_pq st) - 1) ltac:(lia)). lia.
Qed.

(** ** The contents of a queue *)

(** Priority and payload of every entry, in slot order. *)
Definition entries (st : state) : list (Z * Item) :=
  omap (λ a, payload <$> store st !! a) (_pq st).

Lemma omap_ext_pointwise {A B} (f g : A → option B) (l : list A) :
  (∀ a, f a = g a) → omap f l = omap g l.
Proof.
  intros H. induction l as [|a l IH]; [done|]. simpl. rewrite H.
  destruct (g a); [f_equal|]; apply IH.
Qed.

Lemma rearranged_entries st st' : rearranged st st' → entries st' ≡ₚ entries st.
Proof.
  intros [_ Hp _ Hy _]. unfold entries.
  rewrite (omap_ext_pointwise _ (λ a, payload <$> store st !! a)) by done.
  by rewrite Hp.
Qed.

(** ** Establishing the sift preconditions *)

Lemma fix_inv_intro c v v' j :
  heap_from c 0 v → is_Some (v j) →
  (∀ k y, k ≠ j → v' k = Some y → v k = Some y) →
  fix_inv c v' j.
Proof.
  intros Hh [z Hz] Hv. split.
  - intros k Hk Hkj Hpj x y Hx Hy.
    eapply (Hh k); eauto. lia.
  - intros Hj k Hk Hp x y Hx Hy.
    pose proof (parent_lt j Hj). pose proof (parent_lt k Hk).
    eapply ble_trans.
    + eapply (Hh j); eauto; [lia|]. apply Hv; [lia|done].
    + eapply (Hh k); eauto; [lia|..].
      * by rewrite Hp.
      * apply Hv; [lia|done].
Qed.

Lemma up_inv_intro c v v' n :
  heap_from c 0 v →
  (∀ k y, k ≠ n → v' k = Some y → v k = Some y) →
  (∀ k, n < k → v' k = None) →
  up_inv c v' n.
Proof.
  intros Hh Hv Hn. split.
  - intros k Hk Hkn x y Hx Hy.
    pose proof (parent_lt k Hk).
    destruct (decide (_parent k = n)) as [E|Hne].
    + rewrite Hn in Hy by lia. done.
    + eapply (Hh k); eauto. lia.
  - intros _ k Hk Hp x y _ Hy.
    pose proof (parent_lt k Hk).
    rewrite Hn in Hy by lia. done.
Qed.

Lemma heap_from_restrict c v v' :
  heap_from c 0 v →
  (∀ k y, v' k = Some y → v k = Some y) →
  heap_from c 0 v'.
Proof.
  intros Hh Hv k Hk _ x y Hx Hy. eapply (Hh k); eauto. lia.
Qed.

(** ** Removing the last slot *)

(** An entry left the queue: [a] is no longer in the backing list, no
    object changed its priority or payload, and objects that were not in
    the queue are untouched. *)
Record shrunk (st st' : state) (a : nat) : Prop := {
  sh_coherent : coherent st';
  sh_perm : _pq st ≡ₚ a :: _pq st';
  sh_store_len : length (store st') = length (store st);
  sh_payload : ∀ b, payload <$> store st' !! b = payload <$> store st !! b;
  sh_frame : ∀ b, b ∉ _pq st → store st' !! b = store st !! b
}.

Lemma shrunk_rearranged st1 st2 st3 a :
  shrunk st1 st2 a → rearranged st2 st3 → shrunk st1 st3 a.
Proof.
  intros [c1 p1 l1 y1 f1] [c2 p2 l2 y2 f2]. split.
  - done.
  - by rewrite p2.
  - congruence.
  - intros b. by rewrite y2.
  - intros b Hb. rewrite f2, f1; [done..|].
    intros Hin. apply Hb. rewrite p1. by right.
Qed.

Lemma rearranged_shrunk st1 st2 st3 a :
  rearranged st1 st2 → shrunk st2 st3 a → shrunk st1 st3 a.
Proof.
  intros [c1 p1 l1 y1 f1] [c2 p2 l2 y2 f2]. split.
  - done.
  - by rewrite <- p1.
  - congruence.
  - intros b. by rewrite y2.
  - intros b Hb. rewrite f2, f1; [done..|]. by rewrite p1.
Qed.

Lemma shrunk_length st st' a :
  shrunk st st' a → length (_pq st) = S (length (_pq st')).
Proof. intros [_ p _ _ _]. by rewrite p. Qed.

Lemma shrunk_entries st st' a l :
  shrunk st st' a → store st !! a = Some l →
  entries st ≡ₚ payload l :: entries st'.
Proof.
  intros [_ Hp _ Hy _] Hl. unfold entries.
  rewrite (omap_ext_pointwise (λ b, payload <$> store st' !! b)
             (λ b, payload <$> store st !! b)) by done.
  rewrite Hp. simpl. by rewrite Hl.
Qed.

Lemma shrunk_not_in st st' a : coherent st → shrunk st st' a → a ∉ _pq st'.
Proof.
  intros Hc [_ Hp _ _ _] Hin.
  apply coherent_NoDup in Hc. rewrite Hp in Hc.
  by apply NoDup_cons in Hc as [? _].
Qed.

Lemma pq_pop_eq st a :
  _pq st !! (length (_pq st) - 1) = Some a →
  pq_pop st = Ok a (mkState (store st) (take (length (_pq st) - 1) (_pq st))).
Proof.
  intros Ha. unfold pq_pop. rewrite last_lookup.
  replace (Init.Nat.pred (length (_pq st))) with (length (_pq st) - 1) by lia.
  by rewrite Ha.
Qed.

Lemma truncate_spec st a :
  coherent st → _pq st !! (length (_pq st) - 1) = Some a →
  let st' := mkState (store st) (take (length (_pq st) - 1) (_pq st)) in
  shrunk st st' a ∧
  (∀ k, k < length (_pq st) - 1 → loc_at st' k = loc_at st k) ∧
  (∀ k, length (_pq st) - 1 ≤ k → loc_at st' k = None).
Proof.
  intros Hc Ha st'.
  pose proof (lookup_lt_Some _ _ _ Ha) as Hn.
  split; [split|split]; simpl.
  - intros k b. simpl. rewrite lookup_take_Some. intros [Hk _]. by apply Hc.
  - rewrite <- (take_drop (length (_pq st) - 1) (_pq st)) at 1.
    rewrite (drop_S _ a) by done.
    rewrite drop_ge by lia.
    by rewrite <- Permutation_cons_append.
  - done.
  - done.
  - done.
  - intros k Hk. unfold loc_at. simpl. by rewrite lookup_take_lt.
  - intros k Hk. unfold loc_at. simpl. by rewrite lookup_take_ge.
Qed.

(** ** The public methods on a coherent queue *)

Lemma get_item_eq st a l : store st !! a = Some l → get_item a st = Ok (_item l) st.
Proof. intros H. unfold get_item, bind, deref, ret. by rewrite H. Qed.

Lemma get_index_eq st a l : store st !! a = Some l → get_index a st = Ok (_index l) st.
Proof. intros H. unfold get_index, bind, deref, ret. by rewrite H. Qed.

Lemma invalid_locator_eq st loc j :
  invalid_locator loc j st =
    Ok (if decide (_pq st !! j = Some loc) then false else true) st.
Proof.
  unfold invalid_locator, bind, len, pq_get, ret.
  destruct (Nat.ltb_spec j (length (_pq st))) as [Hj|Hj].
  - destruct (lookup_lt_is_Some_2 _ _ Hj) as [a Ha]. rewrite Ha.
    destruct (Nat.eqb_spec a loc) as [->|Hne]; simpl.
    + by rewrite decide_True.
    + rewrite decide_False; [done|congruence].
  - rewrite decide_False; [done|].
    intros H%lookup_lt_Some. lia.
Qed.

Lemma payload_lookup (s s' : list Locator) a l :
  payload <$> s' !! a = payload <$> s !! a → s !! a = Some l →
  ∃ l', s' !! a = Some l' ∧ _value l' = _value l ∧ _item l' = _item l.
Proof.
  intros H Hl. rewrite Hl in H. destruct (s' !! a) as [l'|]; [|done].
  simpl in H. injection H as H1 H2. eauto.
Qed.

Lemma swap_pop_spec st j :
  coherent st → j < length (_pq st) →
  ∃ a st1 st2, _pq st !! j = Some a ∧
    _swap j (length (_pq st) - 1) st = Ok tt st1 ∧
    length (_pq st1) = length (_pq st) ∧
    pq_pop st1 = Ok a st2 ∧
    shrunk st st2 a ∧
    length (_pq st2) = length (_pq st) - 1 ∧
    (∀ k y, k ≠ j → val_at st2 k = Some y → val_at st k = Some y).
Proof.
  intros Hc Hj.
  destruct (lookup_lt_is_Some_2 _ _ Hj) as [a Ha].
  destruct (swap_spec st j (length (_pq st) - 1) Hc Hj ltac:(lia))
    as (st1 & Hs & Hr1 & Hp1 & Hq1).
  pose proof (rearranged_length _ _ Hr1) as Hlen.
  assert (_pq st1 !! (length (_pq st1) - 1) = Some a) as Hlast.
  { rewrite Hq1, Hlen, transp_r. done. }
  destruct (truncate_spec st1 a (rr_coherent _ _ Hr1) Hlast) as (Hsh & Hlt & Hge).
  exists a, st1, (mkState (store st1) (take (length (_pq st1) - 1) (_pq st1))).
  split; [done|]. split; [done|]. split; [done|].
  split; [by apply pq_pop_eq|].
  split; [by eapply rearranged_shrunk|].
  split.
  - simpl. rewrite length_take. lia.
  - intros k y Hk Hy.
    destruct (decide (k < length (_pq st1) - 1)) as [Hlt'|Hge'].
    + unfold val_at in Hy. rewrite Hlt in Hy by done.
      fold (val_at st1 k) in Hy.
      unfold val_at in *. rewrite (payload_val _ _ (Hp1 k)) in Hy.
      rewrite transp_other in Hy; [done|done|lia].
    + unfold val_at in Hy. rewrite Hge in Hy by lia. done.
Qed.

Lemma pop_spec c st :
  coherent st → 0 < length (_pq st) →
  ∃ a l st', _pq st !! 0 = Some a ∧ store st !! a = Some l ∧
    pop c st = Ok (_item l) st' ∧ shrunk st st' a ∧
    (heap_order c st → heap_order c st').
Proof.
  intros Hc Hn.
  destruct (swap_pop_spec st 0 Hc Hn) as (a & st1 & st2 & Ha & Hs & Hl1 & Hp & Hsh & Hl2 & Hv).
  destruct (Hc _ _ Ha) as (l & Hl & _).
  destruct (downheap_spec c 0 st2 0 (sh_coherent _ _ _ Hsh) ltac:(lia))
    as (st' & Hd & Hr & Hh).
  pose proof (shrunk_rearranged _ _ _ _ Hsh Hr) as Hsh'.
  destruct (payload_lookup _ _ a l (sh_payload _ _ _ Hsh' a) Hl) as (l' & Hl' & _ & Hi).
  exists a, l, st'. split; [done|]. split; [done|].
  split.
  - unfold pop, bind, len.
    destruct (Nat.eqb_spec (length (_pq st)) 0); [lia|].
    rewrite Hs, Hp, Hd. rewrite (get_item_eq _ _ _ Hl'). by rewrite Hi.
  - split; [done|]. rewrite !heap_order_from. intros Hh0.
    apply Hh, fix_inv_down; [lia|].
    eapply fix_inv_intro; eauto. by apply coherent_val_at.
Qed.

Lemma pop_empty c st : _pq st = [] → pop c st = Raise IndexError st.
Proof. intros H. unfold pop, bind, len. by rewrite H. Qed.

Lemma remove_spec c st loc l :
  coherent st → store st !! loc = Some l → _pq st !! _index l = Some loc →
  ∃ st', remove c loc st = Ok (_item l) st' ∧ shrunk st st' loc ∧
         (heap_order c st → heap_order c st').
Proof.
  intros Hc Hl Hv.
  pose proof (lookup_lt_Some _ _ _ Hv) as Hj.
  unfold remove, bind. rewrite (get_index_eq _ _ _ Hl), invalid_locator_eq.
  rewrite decide_True by done. unfold len.
  destruct (Nat.eqb_spec (_index l) (length (_pq st) - 1)) as [E|Hne].
  - rewrite E in Hv.
    destruct (truncate_spec st loc Hc Hv) as (Hsh & Hlt & Hge).
    rewrite (pq_pop_eq _ _ Hv). unfold ret.
    eexists. split; [|split; [exact Hsh|]].
    + by rewrite (get_item_eq _ _ l).
    + rewrite !heap_order_from. intros Hh.
      eapply heap_from_restrict; [exact Hh|].
      intros k y Hy. pose proof (val_at_lt _ _ _ Hy) as Hk. simpl in Hk.
      rewrite length_take in Hk.
      unfold val_at in *. rewrite Hlt in Hy by lia. done.
  - destruct (swap_pop_spec st (_index l) Hc Hj)
      as (a & st1 & st2 & Ha & Hs & Hl1 & Hp & Hsh & Hl2 & Hval).
    assert (a = loc) as -> by congruence.
    rewrite Hs, Hp.
    destruct (fix_spec c (_index l) st2 (sh_coherent _ _ _ Hsh) ltac:(lia))
      as (st' & Hf & Hr & Hh).
    rewrite Hf.
    pose proof (shrunk_rearranged _ _ _ _ Hsh Hr) as Hsh'.
    destruct (payload_lookup _ _ loc l (sh_payload _ _ _ Hsh' loc) Hl)
      as (l' & Hl' & _ & Hi).
    exists st'. rewrite (get_item_eq _ _ _ Hl'), Hi.
    split; [done|]. split; [done|].
    rewrite !heap_order_from. intros Hh0.
    apply Hh. eapply fix_inv_intro; eauto. by apply coherent_val_at.
Qed.

Lemma remove_invalid c st loc l :
  store st !! loc = Some l → _pq st !! _index l ≠ Some loc →
  remove c loc st = Raise ValueError st.
Proof.
  intros Hl Hv. unfold remove, bind.
  rewrite (get_index_eq _ _ _ Hl), invalid_locator_eq.
  by rewrite decide_False.
Qed.

Lemma remove_unallocated c st loc :
  store st !! loc = None → remove c loc st = Raise AttributeError st.
Proof. intros Hl. unfold remove, bind, get_index, bind, deref. by rewrite Hl. Qed.

(** *** [update] *)

(** The entry at address [loc] received priority [v] and payload [x];
    nothing else changed but the order of the backing list. *)
Record updated (st st' : state) (loc : nat) (v : Z) (x : Item) : Prop := {
  upd_coherent : coherent st';
  upd_perm : _pq st' ≡ₚ _pq st;
  upd_store_len : length (store st') = length (store st);
  upd_target : ∃ l', store st' !! loc = Some l' ∧ _value l' = v ∧ _item l' = x;
  upd_payload : ∀ b, b ≠ loc → payload <$> store st' !! b = payload <$> store st !! b;
  upd_frame : ∀ b, b ∉ _pq st → store st' !! b = store st !! b
}.

Lemma update_spec c st loc l v x :
  coherent st → store st !! loc = Some l → _pq st !! _index l = Some loc →
  ∃ st', update c loc v x st = Ok tt st' ∧ updated st st' loc v x ∧
         (heap_order c st → heap_order c st').
Proof.
  intros Hc Hl Hv.
  pose proof (lookup_lt_Some _ _ _ Hv) as Hj.
  pose proof (lookup_lt_Some _ _ _ Hl) as Hloc.
  unfold update, bind. rewrite (get_index_eq _ _ _ Hl), invalid_locator_eq.
  rewrite decide_True by done.
  unfold set_value, set_item, setattr. rewrite Hl. simpl.
  rewrite list_lookup_insert_eq by done.
  rewrite list_insert_insert_eq.
  set (l1 := with_item x (with_value v l)).
  set (st1 := mkState (<[loc:=l1]> (store st)) (_pq st)).
  assert (Hst1 : ∀ b, b ≠ loc → store st1 !! b = store st !! b).
  { intros b Hb. simpl. by rewrite list_lookup_insert_ne. }
  assert (Hloc1 : store st1 !! loc = Some l1).
  { simpl. by rewrite list_lookup_insert_eq. }
  assert (Hc1 : coherent st1).
  { intros k b Hk. simpl in Hk. destruct (Hc _ _ Hk) as (lb & Hlb & Hx).
    destruct (decide (b = loc)) as [->|Hne].
    - exists l1. split; [done|]. simpl. congruence.
    - exists lb. by rewrite Hst1. }
  destruct (fix_spec c (_index l) st1 Hc1 Hj) as (st' & Hf & Hr & Hh).
  exists st'. split; [done|].
  destruct Hr as [c2 p2 n2 y2 f2]. split; [split|].
  - done.
  - done.
  - rewrite n2. simpl. by rewrite length_insert.
  - destruct (payload_lookup _ _ loc l1 (y2 loc) Hloc1) as (l' & ? & ? & ?).
    by exists l'.
  - intros b Hb. by rewrite y2, Hst1.
  - intros b Hb. rewrite f2 by done. apply Hst1.
    intros ->. apply Hb. eapply list_elem_of_lookup_2, Hv.
  - rewrite !heap_order_from. intros Hh0. apply Hh.
    eapply fix_inv_intro; [exact Hh0|by apply coherent_val_at|].
    intros k y Hk (a & la & Ha & Hla & <-)%val_at_Some. simpl in Ha.
    apply val_at_Some. exists a, la. split; [done|]. split; [|done].
    rewrite <- Hst1; [done|]. intros ->. apply Hk.
    by apply (coherent_inj st k (_index l) loc).
Qed.

Lemma update_invalid c st loc l v x :
  store st !! loc = Some l → _pq st !! _index l ≠ Some loc →
  update c loc v x st = Raise ValueError st.
Proof.
  intros Hl Hv. unfold update, bind.
  rewrite (get_index_eq _ _ _ Hl), invalid_locator_eq.
  by rewrite decide_False.
Qed.

Lemma update_unallocated c st loc v x :
  store st !! loc = None → update c loc v x st = Raise AttributeError st.
Proof. intros Hl. unfold update, bind, get_index, bind, deref. by rewrite Hl. Qed.

(** *** [append] *)

(** A new object, at the new address [a], entered the queue. *)
Record grown (st st' : state) (a : nat) (v : Z) (x : Item) : Prop := {
  gr_coherent : coherent st';
  gr_perm : _pq st' ≡ₚ a :: _pq st;
  gr_fresh : a = length (store st);
  gr_store_len : length (store st') = S (length (store st));
  gr_target : ∃ l', store st' !! a = Some l' ∧ _value l' = v ∧ _item l' = x;
  gr_payload : ∀ b, b ≠ a → payload <$> store st' !! b = payload <$> store st !! b;
  gr_frame : ∀ b, b ∉ _pq st → b ≠ a → store st' !! b = store st !! b
}.

Lemma append_spec c key x st :
  coherent st →
  ∃ st', append c key x st = Ok (length (store st)) st' ∧
         grown st st' (length (store st)) (key x) x ∧
         (heap_order c st → heap_order c st').
Proof.
  intros Hc.
  set (n := length (_pq st)). set (a := length (store st)).
  set (L := mkLocator (key x) x n).
  set (st1 := mkState (store st ++ [L]) (_pq st ++ [a])).
  assert (Hold : ∀ b, b ≠ a → store st1 !! b = store st !! b).
  { intros b Hb. simpl. destruct (decide (b < a)).
    - by rewrite lookup_app_l.
    - rewrite !(proj2 (lookup_ge_None _ _)); [done|fold a; lia|].
      rewrite length_app. simpl. fold a. lia. }
  assert (Hnew : store st1 !! a = Some L).
  { simpl. rewrite lookup_app_r by done. by rewrite Nat.sub_diag. }
  assert (Hfresh : a ∉ _pq st).
  { intros (k & Hk)%list_elem_of_lookup_1. destruct (Hc _ _ Hk) as (lb & Hlb%lookup_lt_Some & _).
    fold a in Hlb. lia. }
  assert (Hc1 : coherent st1).
  { intros k b Hk. simpl in Hk.
    destruct (decide (k < n)) as [Hlt|Hge].
    - rewrite lookup_app_l in Hk by done.
      destruct (Hc _ _ Hk) as (lb & Hlb & Hx). exists lb. split; [|done].
      rewrite Hold; [done|]. intros ->. apply Hfresh. eapply list_elem_of_lookup_2, Hk.
    - rewrite lookup_app_r in Hk by (fold n; lia).
      destruct (k - length (_pq st)) as [|m] eqn:E; [|done].
      simpl in Hk. injection Hk as <-. exists L. split; [done|]. simpl. fold n in E. lia. }
  assert (Hlen1 : length (_pq st1) = S n).
  { simpl. rewrite length_app. simpl. fold n. lia. }
  destruct (upheap_spec c n st1 Hc1 ltac:(lia)) as (st' & Hu & Hr & Hh & _).
  exists st'. split.
  - unfold append, bind, len, new_Locator, pq_append, ret. simpl.
    fold n a L. change (mkState (store st ++ [L]) (_pq st ++ [a])) with st1.
    rewrite ?length_app. simpl.
    replace (length (_pq st) + 1 - 1) with n by (unfold n; lia).
    by rewrite Hu.
  - destruct Hr as [c2 p2 n2 y2 f2]. split; [split|].
    + done.
    + rewrite p2. simpl. by rewrite <- Permutation_cons_append.
    + done.
    + rewrite n2. simpl. rewrite length_app. simpl. lia.
    + destruct (payload_lookup _ _ a L (y2 a) Hnew) as (l' & ? & ? & ?).
      by exists l'.
    + intros b Hb. by rewrite y2, Hold.
    + intros b Hb Hne. rewrite f2, Hold; [done..|].
      simpl. rewrite elem_of_app, list_elem_of_singleton. tauto.
    + rewrite !heap_order_from. intros Hh0. apply Hh.
      eapply up_inv_intro; [exact Hh0|..].
      * intros k y Hk (b & lb & Hb & Hlb & <-)%val_at_Some. simpl in Hb.
        pose proof (lookup_lt_Some _ _ _ Hb) as Hkl. rewrite length_app in Hkl.
        simpl in Hkl. fold n in Hkl.
        rewrite lookup_app_l in Hb by (fold n; lia).
        apply val_at_Some. exists b, lb. split; [done|]. split; [|done].
        rewrite <- Hold; [done|]. intros ->. apply Hfresh.
        eapply list_elem_of_lookup_2, Hb.
      * intros k Hk. unfold val_at, loc_at.
        rewrite (proj2 (lookup_ge_None _ _)); [done|]. lia.
Qed.

(** *** [__init__] *)

(** The objects [__init__] creates, in creation order. *)
Fixpoint decorated (key : Item → Z) (xs : list Item) (i : nat) : list Locator :=
  match xs with
  | [] => []
  | x :: xs => mkLocator (key x) x i :: decorated key xs (S i)
  end.

Lemma new_locators_eq key xs : ∀ i st,
  new_locators key xs i st =
    Ok (seq (length (store st)) (length xs))
       (mkState (store st ++ decorated key xs i) (_pq st)).
Proof.
  induction xs as [|x xs IH]; intros i st; simpl.
  - unfold ret. rewrite app_nil_r. by destruct st.
  - unfold bind, new_Locator. rewrite IH. simpl. unfold ret.
    rewrite length_app, <- app_assoc. simpl.
    by replace (length (store st) + 1) with (S (length (store st))) by lia.
Qed.

Lemma decorated_length key xs i : length (decorated key xs i) = length xs.
Proof. revert i. induction xs; intros; simpl; auto. Qed.

Lemma decorated_lookup key xs : ∀ i k,
  decorated key xs i !! k = (λ x, mkLocator (key x) x (i + k)) <$> xs !! k.
Proof.
  induction xs as [|x xs IH]; intros i [|k]; simpl; try done.
  - by rewrite Nat.add_0_r.
  - rewrite IH. by replace (S i + k) with (i + S k) by lia.
Qed.

Lemma decorated_entries key xs : ∀ i (s : list Locator),
  omap (λ a, payload <$> (s ++ decorated key xs i) !! a) (seq (length s) (length xs))
  = (λ x, (key x, x)) <$> xs.
Proof.
  induction xs as [|x xs IH]; intros i s; simpl; [done|].
  rewrite lookup_app_r by done. rewrite Nat.sub_diag. simpl. f_equal.
  rewrite (cons_middle _ s), app_assoc.
  replace (S (length s)) with (length (s ++ [mkLocator (key x) x i])).
  - apply IH.
  - rewrite length_app. simpl. lia.
Qed.

(** The state [__init__] builds before it calls [_heapify]. *)
Definition init_state (key : Item → Z) (xs : list Item) (s0 : state) : state :=
  mkState (store s0 ++ decorated key xs 0) (seq (length (store s0)) (length xs)).

Lemma init_state_coherent key xs s0 : coherent (init_state key xs s0).
Proof.
  intros k a Hk. simpl in Hk. apply lookup_seq in Hk as [-> Hlt]. simpl.
  rewrite lookup_app_r by lia.
  replace (length (store s0) + k - length (store s0)) with k by lia.
  rewrite decorated_lookup.
  destruct (lookup_lt_is_Some_2 xs k Hlt) as [x ->]. simpl. eauto.
Qed.

Lemma heap_from_small c v :
  (∀ k, 1 ≤ k → v k = None) → heap_from c 0 v.
Proof. intros H k Hk _ x y _ Hy. rewrite H in Hy; [done|lia]. Qed.

(** What [__init__] establishes, whatever objects existed before. *)
Record built (c : cls) (key : Item → Z) (xs : list Item) (s0 st' : state) : Prop := {
  bl_coherent : coherent st';
  bl_heap : heap_order c st';
  bl_perm : _pq st' ≡ₚ seq (length (store s0)) (length xs);
  bl_entries : entries st' ≡ₚ (λ x, (key x, x)) <$> xs;
  bl_store_len : length (store st') = length (store s0) + length xs;
  bl_frame : ∀ b, b < length (store s0) → store st' !! b = store s0 !! b
}.

Lemma init_spec c key xs s0 :
  ∃ st', __init__ c key xs s0 = Ok tt st' ∧ built c key xs s0 st'.
Proof.
  pose proof (init_state_coherent key xs s0) as Hc.
  set (st1 := init_state key xs s0) in *.
  assert (He : entries st1 = (λ x, (key x, x)) <$> xs).
  { unfold entries. simpl. apply decorated_entries. }
  assert (Hfr : ∀ b, b < length (store s0) → store st1 !! b = store s0 !! b).
  { intros b Hb. simpl. by rewrite lookup_app_l. }
  assert (Hnin : ∀ b, b < length (store s0) → b ∉ _pq st1).
  { intros b Hb (k & Hk)%list_elem_of_lookup_1. simpl in Hk.
    apply lookup_seq in Hk. lia. }
  assert (Hl1 : length (store st1) = length (store s0) + length xs).
  { simpl. by rewrite length_app, decorated_length. }
  unfold __init__, bind, pq_assign, len. rewrite new_locators_eq. simpl.
  rewrite length_seq. fold (init_state key xs s0). fold st1.
  destruct (Nat.ltb_spec 1 (length xs)) as [Hn|Hn].
  - destruct (heapify_spec c st1 Hc) as (st' & Hh & Hr & Hheap).
    exists st'. split; [done|]. split.
    + apply Hr.
    + by apply heap_order_from.
    + by rewrite (rr_perm _ _ Hr).
    + by rewrite (rearranged_entries _ _ Hr), He.
    + by rewrite (rr_store_len _ _ Hr).
    + intros b Hb. rewrite (rr_frame _ _ Hr); auto.
  - exists st1. split; [done|]. split; auto.
    + apply heap_order_from, heap_from_small. intros k Hk.
      unfold val_at, loc_at. simpl.
      rewrite (proj2 (lookup_ge_None _ _)); [done|]. rewrite length_seq. lia.
    + by rewrite He.
Qed.

(** *** Reading a queue *)

(** The payloads of a queue, in slot order. *)
Definition item_list (st : state) : list Item := (entries st).*2.

Lemma items_of_eq st addrs :
  (∀ a, a ∈ addrs → is_Some (store st !! a)) →
  items_of addrs st = Ok ((omap (λ a, payload <$> store st !! a) addrs).*2) st.
Proof.
  induction addrs as [|a addrs IH]; intros H; simpl; [done|].
  destruct (H a) as [l Hl]; [by left|].
  unfold bind. rewrite (get_item_eq _ _ _ Hl), IH.
  - rewrite Hl. done.
  - intros b Hb. apply H. by right.
Qed.

Lemma items_eq st : coherent st → items st = Ok (item_list st) st.
Proof.
  intros Hc. unfold items, item_list, entries. apply items_of_eq.
  intros a (k & Hk)%list_elem_of_lookup_1.
  destruct (Hc _ _ Hk) as (l & Hl & _). eauto.
Qed.

Lemma peek_spec st a l :
  _pq st !! 0 = Some a → store st !! a = Some l → peek st = Ok (_item l) st.
Proof.
  intros Ha Hl. unfold peek, bind, pq_get. rewrite Ha. by apply get_item_eq.
Qed.

Lemma peek_empty st : _pq st = [] → peek st = Raise IndexError st.
Proof. intros H. unfold peek, bind, pq_get. by rewrite H. Qed.

Lemma contains_eq `{EqDecision Item} st x :
  coherent st → __contains__ x st = Ok (bool_decide (x ∈ item_list st)) st.
Proof. intros Hc. unfold __contains__, bind. by rewrite items_eq. Qed.

Lemma iter_eq c lt st :
  coherent st →
  __iter__ c lt st =
    Ok (match c with
        | MinHeapPriorityQueue => sorted lt (item_list st)
        | MaxHeapPriorityQueue => sorted_reverse lt (item_list st)
        end) st.
Proof. intros Hc. unfold __iter__, bind. rewrite items_eq by done. by destruct c. Qed.

(** ** Reachable queues *)

(** A call of a public method that can change the queue. *)
Inductive call :=
| Append (item : Item)
| Update (loc : nat) (newval : Z) (newitem : Item)
| Remove (loc : nat)
| Pop
| Peek.

(** The state after a call, whether it returned or raised. *)
Definition step (c : cls) (key : Item → Z) (o : call) (st : state) : state :=
  match o with
  | Append x => final (append c key x st)
  | Update loc v x => final (update c loc v x st)
  | Remove loc => final (remove c loc st)
  | Pop => final (pop c st)
  | Peek => final (peek st)
  end.

Definition run (c : cls) (key : Item → Z) (ops : list call) (st : state) : state :=
  foldl (λ s o, step c key o s) st ops.

(** Construction from a sequence; [s0] holds the objects that exist
    already (locators of other queues among them). *)
Definition construct (c : cls) (key : Item → Z) (xs : list Item) (s0 : state) : state :=
  final (__init__ c key xs s0).

Definition invariant (c : cls) (st : state) : Prop :=
  coherent st ∧ heap_order c st.

Lemma construct_built c key xs s0 : built c key xs s0 (construct c key xs s0).
Proof.
  unfold construct. destruct (init_spec c key xs s0) as (st' & -> & H). done.
Qed.

Lemma construct_invariant c key xs s0 : invariant c (construct c key xs s0).
Proof. destruct (construct_built c key xs s0). by split. Qed.

Lemma peek_final st : final (peek st) = st.
Proof.
  unfold peek, bind, pq_get, get_item, bind, deref, ret.
  destruct (_pq st !! 0); [|done]. by destruct (store st !! n).
Qed.

Lemma step_invariant c key o st : invariant c st → invariant c (step c key o st).
Proof.
  intros [Hc Hh]. destruct o as [x|loc v x|loc| |]; simpl.
  - destruct (append_spec c key x st Hc) as (st' & -> & Hg & Hh'). simpl.
    split; [apply Hg|auto].
  - destruct (store st !! loc) as [l|] eqn:Hl.
    + destruct (decide (_pq st !! _index l = Some loc)) as [Hv|Hv].
      * destruct (update_spec c st loc l v x Hc Hl Hv) as (st' & -> & Hu & Hh').
        simpl. split; [apply Hu|auto].
      * by rewrite (update_invalid c st loc l v x Hl Hv).
    + by rewrite update_unallocated.
  - destruct (store st !! loc) as [l|] eqn:Hl.
    + destruct (decide (_pq st !! _index l = Some loc)) as [Hv|Hv].
      * destruct (remove_spec c st loc l Hc Hl Hv) as (st' & -> & Hs & Hh').
        simpl. split; [apply Hs|auto].
      * by rewrite (remove_invalid c st loc l Hl Hv).
    + by rewrite remove_unallocated.
  - destruct (decide (0 < length (_pq st))) as [Hn|Hn].
    + destruct (pop_spec c st Hc Hn) as (a & l & st' & _ & _ & -> & Hs & Hh').
      simpl. split; [apply Hs|auto].
    + rewrite pop_empty; [done|]. destruct (_pq st); [done|simpl in Hn; lia].
  - by rewrite peek_final.
Qed.

Lemma run_invariant c key ops : ∀ st, invariant c st → invariant c (run c key ops st).
Proof.
  induction ops as [|o ops IH]; intros st Hi; [done|].
  simpl. apply IH. by apply step_invariant.
Qed.

Lemma reachable_invariant c key xs s0 ops :
  invariant c (run c key ops (construct c key xs s0)).
Proof. apply run_invariant, construct_invariant. Qed.

(** ** Position coherence and heap order *)

(** C1. Position coherence: in the queue reached by construction from a
    sequence followed by any calls of append, update, remove, pop and peek,
    of either class, the object stored in slot [i] of the backing list has
    its recorded index equal to [i]. *)
Theorem position_coherence (c : cls) (key : Item → Z) (xs : list Item)
    (s0 : state) (ops : list call) (i a : nat) :
  let st := run c key ops (construct c key xs s0) in
  _pq st !! i = Some a →
  ∃ l, store st !! a = Some l ∧ _index l = i.
Proof.
  intros st Hi. destruct (reachable_invariant c key xs s0 ops) as [Hc _].
  by apply Hc.
Qed.

(** C2. Heap order: in every queue reached by construction from a sequence
    and any calls, the priority in slot [i] is less or equal (min class),
    greater or equal (max class), than the priority in each of the slots
    [2i+1] and [2i+2] that exist. *)
Theorem heap_order_invariant (c : cls) (key : Item → Z) (xs : list Item)
    (s0 : state) (ops : list call) (i : nat) (vi : Z) :
  let st := run c key ops (construct c key xs s0) in
  val_at st i = Some vi →
  (∀ vl, val_at st (2 * i + 1) = Some vl →
     match c with
     | MinHeapPriorityQueue => (vi ≤ vl)%Z
     | MaxHeapPriorityQueue => (vl ≤ vi)%Z
     end) ∧
  (∀ vr, val_at st (2 * i + 2) = Some vr →
     match c with
     | MinHeapPriorityQueue => (vi ≤ vr)%Z
     | MaxHeapPriorityQueue => (vr ≤ vi)%Z
     end).
Proof.
  intros st Hi. destruct (reachable_invariant c key xs s0 ops) as [_ Hh].
  destruct (Hh i vi Hi) as [Hl Hr].
  split; intros v Hv; [specialize (Hl v Hv)|specialize (Hr v Hv)];
    destruct c; simpl in *; lia.
Qed.

(** ** The root is extremal *)

Lemma heap_root_best c v :
  dom_closed v → heap_from c 0 v →
  ∀ k x y, v 0 = Some x → v k = Some y → ble c x y.
Proof.
  intros Hd Hh k. induction k as [k IH] using lt_wf_ind. intros x y Hx Hy.
  destruct (decide (k = 0)) as [->|Hk].
  - assert (x = y) as -> by congruence. apply ble_refl.
  - pose proof (parent_lt k ltac:(lia)) as Hlt.
    destruct (Hd (_parent k) k ltac:(lia) ltac:(eauto)) as [z Hz].
    eapply ble_trans.
    + eapply (IH (_parent k)); eauto.
    + eapply (Hh k); eauto; lia.
Qed.

Lemma omap_lookup_total {A B} (f : A → option B) (l : list A) :
  (∀ a, a ∈ l → is_Some (f a)) → ∀ k, omap f l !! k = l !! k ≫= f.
Proof.
  induction l as [|a l IH]; intros H k; [done|].
  destruct (H a) as [b Hb]; [by left|]. simpl. rewrite Hb.
  destruct k as [|k]; simpl; [done|].
  apply IH. intros a' Ha'. apply H. by right.
Qed.

Lemma omap_ext_in {A B} (f g : A → option B) (l : list A) :
  (∀ a, a ∈ l → f a = g a) → omap f l = omap g l.
Proof.
  induction l as [|a l IH]; intros H; [done|]. simpl.
  rewrite (H a) by (by left).
  assert (omap f l = omap g l) as E.
  { apply IH. intros b Hb. apply H. by right. }
  destruct (g a); [f_equal|]; exact E.
Qed.

Lemma entries_lookup st k :
  coherent st → entries st !! k = payload <$> loc_at st k.
Proof.
  intros Hc. unfold entries. rewrite omap_lookup_total.
  - unfold loc_at. destruct (_pq st !! k); simpl; [|done].
    by destruct (store st !! n).
  - intros a (i & Hi)%list_elem_of_lookup_1.
    destruct (Hc _ _ Hi) as (l & -> & _). simpl. eauto.
Qed.

Lemma entries_length st : coherent st → length (entries st) = length (_pq st).
Proof.
  intros Hc.
  destruct (decide (length (entries st) = length (_pq st))) as [|Hne]; [done|].
  exfalso.
  destruct (decide (length (entries st) < length (_pq st))) as [Hlt|Hge].
  - pose proof (entries_lookup st (length (entries st)) Hc) as E.
    rewrite (proj2 (lookup_ge_None _ _)) in E by lia.
    destruct (coherent_loc_at st _ Hc Hlt) as (a & l & Ha & Hl & _).
    unfold loc_at in E. rewrite Ha in E. simpl in E. by rewrite Hl in E.
  - pose proof (entries_lookup st (length (_pq st)) Hc) as E.
    unfold loc_at in E. rewrite (proj2 (lookup_ge_None (_pq st) _)) in E by lia.
    simpl in E. apply lookup_ge_None in E. lia.
Qed.

Lemma root_best c st a l :
  invariant c st → _pq st !! 0 = Some a → store st !! a = Some l →
  ∀ e, e ∈ entries st → ble c (_value l) e.1.
Proof.
  intros [Hc Hh] Ha Hl e (k & Hk)%list_elem_of_lookup_1.
  rewrite entries_lookup in Hk by done.
  destruct (loc_at st k) as [lk|] eqn:Hlk; [|done].
  simpl in Hk. injection Hk as <-. simpl.
  eapply (heap_root_best c (val_at st)).
  - by apply val_at_dom_closed.
  - by apply heap_order_from.
  - apply val_at_Some. eauto.
  - unfold val_at. by rewrite Hlk.
Qed.

Lemma grown_entries st st' a v x :
  coherent st → grown st st' a v x → entries st' ≡ₚ (v, x) :: entries st.
Proof.
  intros Hc [_ Hp Hf _ (l' & Hl' & <- & <-) Hy _]. unfold entries.
  rewrite Hp. simpl. rewrite Hl'. simpl. unfold payload at 1.
  apply Permutation_skip.
  erewrite omap_ext_in; [reflexivity|].
  intros b (k & Hk)%list_elem_of_lookup_1. apply Hy.
  destruct (Hc _ _ Hk) as (lb & Hlb%lookup_lt_Some & _). lia.
Qed.

(** ** Draining a queue *)

(** Calling [pop] [n] times and collecting what it returns. *)
Fixpoint pop_n (c : cls) (n : nat) : M (list Item) :=
  match n with
  | O => ret []
  | S n =>
      let! x := pop c in
      let! xs := pop_n c n in
      ret (x :: xs)
  end.

(** Calling [append] on every item of a list, in order. *)
Fixpoint append_all (c : cls) (key : Item → Z) (xs : list Item) : M (list nat) :=
  match xs with
  | [] => ret []
  | x :: xs =>
      let! a := append c key x in
      let! rest := append_all c key xs in
      ret (a :: rest)
  end.

Lemma pop_n_spec c : ∀ n st,
  invariant c st → length (_pq st) = n →
  ∃ es st', pop_n c n st = Ok (es.*2) st' ∧ es ≡ₚ entries st ∧
            StronglySorted (λ e1 e2, ble c e1.1 e2.1) es ∧
            _pq st' = [] ∧ invariant c st'.
Proof.
  induction n as [|n IH]; intros st Hinv Hn.
  - exists [], st. simpl. destruct Hinv as [Hc Hh].
    split; [done|]. split.
    + pose proof (entries_length st Hc) as E. rewrite Hn in E.
      by destruct (entries st).
    + split; [constructor|]. split; [|done].
      by destruct (_pq st).
  - destruct Hinv as [Hc Hh].
    destruct (pop_spec c st Hc ltac:(lia)) as (a & l & st1 & Ha & Hl & Hp & Hs & Hh1).
    assert (invariant c st1) as Hinv1 by (split; [apply Hs|auto]).
    pose proof (shrunk_length _ _ _ Hs) as Hlen.
    destruct (IH st1 Hinv1 ltac:(lia)) as (es & st' & He & Hperm & Hsort & Hnil & Hinv').
    pose proof (shrunk_entries _ _ _ _ Hs Hl) as Hent.
    exists (payload l :: es), st'. simpl. unfold bind. rewrite Hp, He.
    split; [done|]. split; [by rewrite Hent, Hperm|].
    split; [|done].
    constructor; [done|].
    apply Forall_forall. intros e He'. simpl.
    apply (root_best c st a l); [by split|done|done|].
    rewrite Hent. right. by rewrite <- Hperm.
Qed.

Lemma append_all_spec c key xs : ∀ st,
  invariant c st →
  ∃ toks st', append_all c key xs st = Ok toks st' ∧ invariant c st' ∧
              entries st' ≡ₚ entries st ++ ((λ x, (key x, x)) <$> xs) ∧
              length toks = length xs.
Proof.
  induction xs as [|x xs IH]; intros st Hinv.
  - exists [], st. simpl. by rewrite app_nil_r.
  - destruct Hinv as [Hc Hh].
    destruct (append_spec c key x st Hc) as (st1 & Ha & Hg & Hh1).
    destruct (IH st1) as (toks & st' & He & Hinv' & Hent & Hlen).
    { split; [apply Hg|auto]. }
    eexists _, st'. simpl. unfold bind. rewrite Ha, He.
    split; [done|]. split; [done|]. split; [|simpl; by rewrite Hlen].
    rewrite Hent, (grown_entries _ _ _ _ _ Hc Hg).
    by rewrite <- Permutation_middle.
Qed.

(** ** [sorted] *)

Lemma sorted_insert_perm lt x l : sorted_insert lt x l ≡ₚ x :: l.
Proof.
  induction l as [|y l IH]; simpl; [done|].
  destruct (lt y x); [|done]. rewrite IH. apply Permutation_swap.
Qed.

Lemma sorted_perm lt l : sorted lt l ≡ₚ l.
Proof.
  unfold sorted. induction l as [|x l IH]; simpl; [done|].
  by rewrite sorted_insert_perm, IH.
Qed.

(** [lt] never holds both ways. *)
Definition asymmetric (lt : Item → Item → bool) : Prop :=
  ∀ x y, lt x y = true → lt y x = false.

Lemma sorted_insert_Sorted lt x l :
  asymmetric lt →
  Sorted (λ a b, lt b a = false) l →
  Sorted (λ a b, lt b a = false) (sorted_insert lt x l).
Proof.
  intros Has. induction l as [|y l IH]; intros Hs; simpl.
  - by repeat constructor.
  - destruct (lt y x) eqn:E.
    + apply Sorted_inv in Hs as [Hs Hd]. constructor; [by apply IH|].
      destruct l as [|z l]; simpl.
      * constructor. by apply Has.
      * destruct (lt z x).
        -- constructor. by inversion Hd.
        -- constructor. by apply Has.
    + constructor; [done|]. by constructor.
Qed.

Lemma sorted_Sorted lt l :
  asymmetric lt → Sorted (λ a b, lt b a = false) (sorted lt l).
Proof.
  intros Has. unfold sorted. induction l as [|x l IH]; simpl; [constructor|].
  by apply sorted_insert_Sorted.
Qed.

Lemma Sorted_rev {A} (R : relation A) (l : list A) :
  Sorted R l → Sorted (flip R) (rev l).
Proof.
  intros H. rewrite rev_alt. change (rev_append l []) with (reverse l).
  by apply Sorted_reverse.
Qed.

Lemma sorted_reverse_perm lt l : sorted_reverse lt l ≡ₚ l.
Proof.
  unfold sorted_reverse.
  by rewrite <- Permutation_rev, sorted_perm, <- Permutation_rev.
Qed.

Lemma sorted_reverse_Sorted lt l :
  asymmetric lt → Sorted (λ a b, lt a b = false) (sorted_reverse lt l).
Proof.
  intros Has. unfold sorted_reverse.
  apply (Sorted_rev (λ a b, lt b a = false)). by apply sorted_Sorted.
Qed.

(** ** Round trip *)

(** Build a queue from [xs], append every item of [ys], then pop as many
    times as items went in. *)
Definition build_and_drain (c : cls) (key : Item → Z) (xs ys : list Item) : M (list Item) :=
  let! _ := __init__ c key xs in
  let! _ := append_all c key ys in
  pop_n c (length xs + length ys).

(** sorted(xs, key=key), the reference sort of the doctests. *)
Definition sorted_by_key (key : Item → Z) (xs : list Item) : list Item :=
  sorted (λ a b, (key a <? key b)%Z) xs.

Lemma keyed_fst_snd (key : Item → Z) (es : list (Z * Item)) (xs : list Item) :
  es ≡ₚ (λ x, (key x, x)) <$> xs → key <$> es.*2 = es.*1.
Proof.
  intros Hp.
  assert (Forall (λ e, e.1 = key e.2) es) as Hf.
  { rewrite Hp. apply Forall_fmap, Forall_forall. by intros. }
  clear Hp. induction Hf as [|e es He _ IH]; [done|].
  rewrite !fmap_cons. by rewrite IH, He.
Qed.

Lemma keyed_snd (key : Item → Z) (xs : list Item) :
  ((λ x, (key x, x)) <$> xs).*2 = xs.
Proof.
  induction xs as [|x xs IH]; [done|]. rewrite !fmap_cons. simpl. by rewrite IH.
Qed.

Lemma build_and_drain_spec c key xs ys s0 :
  ∃ out st', build_and_drain c key xs ys s0 = Ok out st' ∧
             out ≡ₚ xs ++ ys ∧
             StronglySorted (ble c) (key <$> out) ∧
             _pq st' = [].
Proof.
  destruct (init_spec c key xs s0) as (st1 & Hi & Hb).
  destruct (append_all_spec c key ys st1) as (toks & st2 & Ha & Hinv2 & Hent & _).
  { split; apply Hb. }
  assert (entries st2 ≡ₚ (λ x, (key x, x)) <$> (xs ++ ys)) as Hent2.
  { rewrite Hent, (bl_entries _ _ _ _ _ Hb). by rewrite fmap_app. }
  assert (length (_pq st2) = length xs + length ys) as Hlen.
  { rewrite <- entries_length by apply Hinv2.
    rewrite Hent2, length_fmap, length_app. done. }
  destruct (pop_n_spec c _ st2 Hinv2 Hlen) as (es & st' & Hp & Hperm & Hsort & Hnil & _).
  exists (es.*2), st'. unfold build_and_drain, bind. rewrite Hi, Ha.
  split; [done|]. rewrite Hent2 in Hperm. split; [|split; [|done]].
  - rewrite Hperm. by rewrite keyed_snd.
  - rewrite (keyed_fst_snd key es (xs ++ ys) Hperm).
    by apply (StronglySorted_fmap fst (λ e1 e2, ble c e1.1 e2.1)).
Qed.

Lemma sorted_by_key_perm key xs : sorted_by_key key xs ≡ₚ xs.
Proof. apply sorted_perm. Qed.

Lemma sorted_by_key_sorted key xs :
  StronglySorted Z.le (key <$> sorted_by_key key xs).
Proof.
  apply Sorted_StronglySorted; [intros ???; lia|].
  apply (Sorted_fmap key (λ a b, (key b <? key a)%Z = false)).
  - intros x y. lia.
  - apply sorted_Sorted. intros x y. lia.
Qed.

Lemma sorted_keys_unique (l1 l2 : list Z) :
  StronglySorted Z.le l1 → StronglySorted Z.le l2 → l1 ≡ₚ l2 → l1 = l2.
Proof.
  apply StronglySorted_unique_strong. intros. lia.
Qed.

(** The min-oriented round trip matches the reference sort. *)
Lemma build_and_drain_reference key xs ys s0 :
  ∃ out st', build_and_drain MinHeapPriorityQueue key xs ys s0 = Ok out st' ∧
             out ≡ₚ xs ++ ys ∧
             Sorted Z.le (key <$> out) ∧
             key <$> out = key <$> sorted_by_key key (xs ++ ys).
Proof.
  destruct (build_and_drain_spec MinHeapPriorityQueue key xs ys s0)
    as (out & st' & He & Hp & Hs & _).
  exists out, st'. split; [done|]. split; [done|].
  split; [by apply StronglySorted_Sorted|].
  apply sorted_keys_unique; [done|apply sorted_by_key_sorted|].
  by rewrite Hp, sorted_by_key_perm.
Qed.

(** ** Min/max duality

    Reversing the comparison of priorities is the same as negating every
    priority: [x < y] iff [-y < -x]. *)

Definition neg_loc (l : Locator) : Locator :=
  mkLocator (- _value l)%Z (_item l) (_index l).

Definition neg_state (st : state) : state :=
  mkState (neg_loc <$> store st) (_pq st).

Definition neg_result {A} (r : result A) : result A :=
  match r with
  | Ok a st => Ok a (neg_state st)
  | Raise e st => Raise e (neg_state st)
  end.

Definition neg_key (key : Item → Z) : Item → Z := λ x, (- key x)%Z.

(** [m] behaves on a queue as [m'] does on the queue with negated
    priorities: same result or exception, same final state up to the
    negation. *)
Definition dual {A} (m m' : M A) : Prop :=
  ∀ st, m st = neg_result (m' (neg_state st)).

Lemma neg_loc_invol l : neg_loc (neg_loc l) = l.
Proof. destruct l. unfold neg_loc. simpl. by rewrite Z.opp_involutive. Qed.

Lemma neg_store_invol (s : list Locator) : neg_loc <$> (neg_loc <$> s) = s.
Proof.
  induction s as [|l s IH]; [done|]. rewrite !fmap_cons. by rewrite neg_loc_invol, IH.
Qed.

Lemma neg_state_invol st : neg_state (neg_state st) = st.
Proof. destruct st. unfold neg_state. simpl. by rewrite neg_store_invol. Qed.

Lemma neg_state_mk (s : list Locator) q :
  neg_state (mkState (neg_loc <$> s) q) = mkState s q.
Proof. unfold neg_state. simpl. by rewrite neg_store_invol. Qed.

Lemma dual_ret {A} (a : A) : dual (ret a) (ret a).
Proof. intros st. unfold ret. simpl. by rewrite neg_state_invol. Qed.

Lemma dual_raise {A} e : dual (raise (A:=A) e) (raise e).
Proof. intros st. unfold raise. simpl. by rewrite neg_state_invol. Qed.

Lemma dual_bind {A B} (m m' : M A) (f f' : A → M B) :
  dual m m' → (∀ a, dual (f a) (f' a)) → dual (bind m f) (bind m' f').
Proof.
  intros Hm Hf st. unfold bind. rewrite Hm.
  destruct (m' (neg_state st)) as [a s1|e s1]; simpl; [|done].
  by rewrite Hf, neg_state_invol.
Qed.

Lemma dual_len : dual len len.
Proof. intros st. unfold len. simpl. by rewrite neg_state_invol. Qed.

Lemma dual_pq_get i : dual (pq_get i) (pq_get i).
Proof.
  intros st. unfold pq_get. simpl.
  destruct (_pq st !! i); simpl; by rewrite neg_state_invol.
Qed.

Lemma dual_pq_set i a : dual (pq_set i a) (pq_set i a).
Proof.
  intros st. unfold pq_set. simpl.
  destruct (i <? length (_pq st)); simpl.
  - by rewrite neg_state_mk.
  - by rewrite neg_state_invol.
Qed.

Lemma dual_pq_append a : dual (pq_append a) (pq_append a).
Proof. intros st. unfold pq_append. simpl. by rewrite neg_state_mk. Qed.

Lemma dual_pq_assign q : dual (pq_assign q) (pq_assign q).
Proof. intros st. unfold pq_assign. simpl. by rewrite neg_state_mk. Qed.

Lemma dual_pq_pop : dual pq_pop pq_pop.
Proof.
  intros st. unfold pq_pop. simpl.
  destruct (last (_pq st)); simpl.
  - by rewrite neg_state_mk.
  - by rewrite neg_state_invol.
Qed.

Lemma dual_get_item a : dual (get_item a) (get_item a).
Proof.
  intros st. unfold get_item, bind, deref, ret. simpl.
  rewrite list_lookup_fmap.
  destruct (store st !! a); simpl; by rewrite neg_state_invol.
Qed.

Lemma dual_get_index a : dual (get_index a) (get_index a).
Proof.
  intros st. unfold get_index, bind, deref, ret. simpl.
  rewrite list_lookup_fmap.
  destruct (store st !! a); simpl; by rewrite neg_state_invol.
Qed.

Lemma dual_setattr f f' a :
  (∀ l, neg_loc (f' (neg_loc l)) = f l) →
  dual (setattr f a) (setattr f' a).
Proof.
  intros Hf st. unfold setattr. simpl. rewrite list_lookup_fmap.
  destruct (store st !! a) as [l|]; simpl.
  - unfold neg_state. simpl. rewrite list_fmap_insert, neg_store_invol.
    by rewrite Hf.
  - by rewrite neg_state_invol.
Qed.

Lemma dual_set_index a i : dual (set_index a i) (set_index a i).
Proof.
  apply dual_setattr. intros [v x j]. unfold neg_loc, with_index. simpl.
  by rewrite Z.opp_involutive.
Qed.

Lemma dual_set_item a x : dual (set_item a x) (set_item a x).
Proof.
  apply dual_setattr. intros [v y j]. unfold neg_loc, with_item. simpl.
  by rewrite Z.opp_involutive.
Qed.

Lemma dual_set_value a v : dual (set_value a v) (set_value a (- v)%Z).
Proof.
  apply dual_setattr. intros [w y j]. unfold neg_loc, with_value. simpl.
  by rewrite Z.opp_involutive.
Qed.

Lemma dual_new_Locator v x i : dual (new_Locator v x i) (new_Locator (- v)%Z x i).
Proof.
  intros st. unfold new_Locator. simpl. rewrite length_fmap.
  unfold neg_state. simpl. rewrite fmap_app, neg_store_invol. simpl.
  unfold neg_loc. simpl. by rewrite Z.opp_involutive.
Qed.

Lemma dual_Locator_lt a b : dual (Locator_lt a b) (Locator_lt b a).
Proof.
  intros st. unfold Locator_lt, bind, get_value, bind, deref, ret. simpl.
  destruct (store st !! a) as [la|] eqn:Ha, (store st !! b) as [lb|] eqn:Hb;
    repeat (rewrite list_lookup_fmap; rewrite ?Ha, ?Hb; simpl);
    rewrite ?neg_state_invol; try done.
  f_equal. destruct (Z.ltb_spec (_value la) (_value lb)),
    (Z.ltb_spec (- _value lb) (- _value la)); try done; lia.
Qed.

(** Two reads of the backing list commute. *)
Lemma pq_get_comm {B} i j (k : nat → nat → M B) st :
  (let! a := pq_get i in let! b := pq_get j in k a b) st =
  (let! b := pq_get j in let! a := pq_get i in k a b) st.
Proof.
  unfold bind, pq_get.
  destruct (_pq st !! i) eqn:Hi, (_pq st !! j) eqn:Hj;
    repeat (simpl; rewrite ?Hi, ?Hj); done.
Qed.

Lemma dual_swap i j : dual (_swap i j) (_swap i j).
Proof.
  unfold _swap.
  repeat (apply dual_bind; [|intros ?]);
    auto using dual_pq_get, dual_pq_set, dual_set_index.
Qed.

Lemma dual_upheap_fuel fuel : ∀ i, dual (Max_upheap fuel i) (Min_upheap fuel i).
Proof.
  induction fuel as [|fuel IH]; intros i; simpl; [apply dual_raise|].
  destruct (0 <? i); [|apply dual_ret].
  intros st. rewrite pq_get_comm. revert st.
  apply dual_bind; [apply dual_pq_get|intros a].
  apply dual_bind; [apply dual_pq_get|intros b].
  apply dual_bind; [apply dual_Locator_lt|intros [|]]; [|apply dual_ret].
  apply dual_bind; [apply dual_swap|intros _]. apply IH.
Qed.

Lemma dual_downheap_fuel fuel : ∀ i, dual (Max_downheap fuel i) (Min_downheap fuel i).
Proof.
  induction fuel as [|fuel IH]; intros i; simpl; [apply dual_raise|].
  apply dual_bind; [apply dual_len|intros n].
  destruct (_left i <? n); [|apply dual_ret].
  apply dual_bind.
  - destruct (_right i <? n); [|apply dual_ret].
    intros st. rewrite pq_get_comm. revert st.
    apply dual_bind; [apply dual_pq_get|intros a].
    apply dual_bind; [apply dual_pq_get|intros b].
    apply dual_bind; [apply dual_Locator_lt|intros ?]. apply dual_ret.
  - intros child. intros st. rewrite pq_get_comm. revert st.
    apply dual_bind; [apply dual_pq_get|intros a].
    apply dual_bind; [apply dual_pq_get|intros b].
    apply dual_bind; [apply dual_Locator_lt|intros [|]]; [|apply dual_ret].
    apply dual_bind; [apply dual_swap|intros _]. apply IH.
Qed.

Lemma dual_upheap i :
  dual (_upheap MaxHeapPriorityQueue i) (_upheap MinHeapPriorityQueue i).
Proof. apply dual_upheap_fuel. Qed.

Lemma dual_downheap i :
  dual (_downheap MaxHeapPriorityQueue i) (_downheap MinHeapPriorityQueue i).
Proof. intros st. exact (dual_downheap_fuel (S (length (_pq st))) i st). Qed.

Lemma dual_fix i : dual (_fix MaxHeapPriorityQueue i) (_fix MinHeapPriorityQueue i).
Proof.
  unfold _fix. apply dual_bind; [apply dual_upheap|intros _]. apply dual_downheap.
Qed.

Lemma dual_for_each js (body body' : nat → M unit) :
  (∀ j, dual (body j) (body' j)) → dual (for_each js body) (for_each js body').
Proof.
  intros Hb. induction js as [|j js IH]; simpl; [apply dual_ret|].
  apply dual_bind; [apply Hb|by intros _].
Qed.

Lemma dual_heapify : dual (_heapify MaxHeapPriorityQueue) (_heapify MinHeapPriorityQueue).
Proof.
  unfold _heapify. apply dual_bind; [apply dual_len|intros n].
  apply dual_for_each, dual_downheap.
Qed.

Lemma dual_new_locators key xs : ∀ i,
  dual (new_locators key xs i) (new_locators (neg_key key) xs i).
Proof.
  induction xs as [|x xs IH]; intros i; simpl; [apply dual_ret|].
  apply dual_bind; [apply dual_new_Locator|intros a].
  apply dual_bind; [apply IH|intros rest]. apply dual_ret.
Qed.

Lemma dual_init key xs :
  dual (__init__ MaxHeapPriorityQueue key xs)
       (__init__ MinHeapPriorityQueue (neg_key key) xs).
Proof.
  unfold __init__.
  apply dual_bind; [apply dual_new_locators|intros addrs].
  apply dual_bind; [apply dual_pq_assign|intros _].
  apply dual_bind; [apply dual_len|intros n].
  destruct (1 <? n); [apply dual_heapify|apply dual_ret].
Qed.

Lemma dual_append key x :
  dual (append MaxHeapPriorityQueue key x)
       (append MinHeapPriorityQueue (neg_key key) x).
Proof.
  unfold append.
  apply dual_bind; [apply dual_len|intros n].
  apply dual_bind; [apply dual_new_Locator|intros token].
  apply dual_bind; [apply dual_pq_append|intros _].
  apply dual_bind; [apply dual_len|intros n'].
  apply dual_bind; [apply dual_upheap|intros _]. apply dual_ret.
Qed.

Lemma dual_invalid_locator loc j : dual (invalid_locator loc j) (invalid_locator loc j).
Proof.
  unfold invalid_locator.
  apply dual_bind; [apply dual_len|intros n].
  destruct (j <? n); [|apply dual_ret].
  apply dual_bind; [apply dual_pq_get|intros a]. apply dual_ret.
Qed.

Lemma dual_update loc v x :
  dual (update MaxHeapPriorityQueue loc v x)
       (update MinHeapPriorityQueue loc (- v)%Z x).
Proof.
  unfold update.
  apply dual_bind; [apply dual_get_index|intros j].
  apply dual_bind; [apply dual_invalid_locator|intros [|]]; [apply dual_raise|].
  apply dual_bind; [apply dual_set_value|intros _].
  apply dual_bind; [apply dual_set_item|intros _]. apply dual_fix.
Qed.

Lemma dual_remove loc :
  dual (remove MaxHeapPriorityQueue loc) (remove MinHeapPriorityQueue loc).
Proof.
  unfold remove.
  apply dual_bind; [apply dual_get_index|intros j].
  apply dual_bind; [apply dual_invalid_locator|intros [|]]; [apply dual_raise|].
  apply dual_bind; [apply dual_len|intros n].
  apply dual_bind; [|intros _; apply dual_get_item].
  destruct (j =? n - 1).
  - apply dual_bind; [apply dual_pq_pop|intros _]. apply dual_ret.
  - apply dual_bind; [apply dual_swap|intros _].
    apply dual_bind; [apply dual_pq_pop|intros _]. apply dual_fix.
Qed.

Lemma dual_peek : dual peek peek.
Proof.
  unfold peek. apply dual_bind; [apply dual_pq_get|intros a]. apply dual_get_item.
Qed.

Lemma dual_pop : dual (pop MaxHeapPriorityQueue) (pop MinHeapPriorityQueue).
Proof.
  unfold pop.
  apply dual_bind; [apply dual_len|intros n].
  apply dual_bind; [destruct (n =? 0); [apply dual_raise|apply dual_swap]|intros _].
  apply dual_bind; [apply dual_pq_pop|intros loc].
  apply dual_bind; [apply dual_downheap|intros _]. apply dual_get_item.
Qed.

Lemma dual_items_of addrs : dual (items_of addrs) (items_of addrs).
Proof.
  induction addrs as [|a addrs IH]; simpl; [apply dual_ret|].
  apply dual_bind; [apply dual_get_item|intros x].
  apply dual_bind; [apply IH|intros xs]. apply dual_ret.
Qed.

Lemma dual_items : dual items items.
Proof. intros st. exact (dual_items_of (_pq st) st). Qed.

Lemma dual_contains `{EqDecision Item} x : dual (__contains__ x) (__contains__ x).
Proof.
  unfold __contains__. apply dual_bind; [apply dual_items|intros xs]. apply dual_ret.
Qed.

(** The call on the negated queue that mirrors a call. *)
Definition neg_call (o : call) : call :=
  match o with
  | Update loc v x => Update loc (- v)%Z x
  | _ => o
  end.

Lemma final_neg_result {A} (r : result A) : final (neg_result r) = neg_state (final r).
Proof. by destruct r. Qed.

Lemma dual_step key o st :
  step MaxHeapPriorityQueue key o st =
  neg_state (step MinHeapPriorityQueue (neg_key key) (neg_call o) (neg_state st)).
Proof.
  destruct o; simpl; rewrite <- final_neg_result; f_equal.
  - apply dual_append.
  - apply dual_update.
  - apply dual_remove.
  - apply dual_pop.
  - apply dual_peek.
Qed.

Lemma dual_run key ops : ∀ st,
  run MaxHeapPriorityQueue key ops st =
  neg_state (run MinHeapPriorityQueue (neg_key key) (neg_call <$> ops) (neg_state st)).
Proof.
  induction ops as [|o ops IH]; intros st; simpl.
  - by rewrite neg_state_invol.
  - rewrite IH, dual_step. by rewrite neg_state_invol.
Qed.

(** With a strict total order on the items, sorting in reverse is sorting
    with the comparison reversed. *)
Definition strict_total (lt : Item → Item → bool) : Prop :=
  asymmetric lt ∧
  (∀ x y z, lt x y = true → lt y z = true → lt x z = true) ∧
  (∀ x y, lt x y = false → lt y x = false → x = y).

Lemma sorted_reverse_flip lt xs :
  strict_total lt → sorted_reverse lt xs = sorted (λ a b, lt b a) xs.
Proof.
  intros (Has & Htr & Htri).
  assert (Transitive (λ a b : Item, lt a b = false)) as HT.
  { intros a b d Hab Hbd. destruct (lt a d) eqn:Had; [|done]. exfalso.
    destruct (lt b a) eqn:Hba.
    - rewrite (Htr b a d Hba Had) in Hbd. done.
    - rewrite (Htri a b Hab Hba) in Had. congruence. }
  apply (Sorted_unique_strong (λ a b, lt a b = false)).
  - intros x1 x2 _ _. apply Htri.
  - by apply sorted_reverse_Sorted.
  - apply (sorted_Sorted (λ a b, lt b a)). intros x y. apply Has.
  - by rewrite sorted_reverse_perm, sorted_perm.
Qed.

(** ** Iteration *)

(** The order [__iter__] yields the payloads in: each one not smaller
    (min class), not larger (max class), than the one before. *)
Definition item_order (c : cls) (lt : Item → Item → bool) : relation Item :=
  match c with
  | MinHeapPriorityQueue => λ a b, lt b a = false
  | MaxHeapPriorityQueue => λ a b, lt a b = false
  end.

Lemma iter_spec c lt st :
  coherent st → asymmetric lt →
  ∃ out, __iter__ c lt st = Ok out st ∧ out ≡ₚ item_list st ∧
         Sorted (item_order c lt) out.
Proof.
  intros Hc Has. rewrite iter_eq by done. eexists. split; [done|].
  destruct c; simpl.
  - split; [apply sorted_perm|by apply sorted_Sorted].
  - split; [apply sorted_reverse_perm|by apply sorted_reverse_Sorted].
Qed.

(** ** Locators that left the queue *)

Lemma step_pq c key o st b :
  invariant c st → b ∈ _pq (step c key o st) →
  b ∈ _pq st ∨ b = length (store st).
Proof.
  intros [Hc Hh] Hb. destruct o as [x|loc v x|loc| |]; simpl in Hb.
  - destruct (append_spec c key x st Hc) as (st' & E & Hg & _).
    rewrite E in Hb. simpl in Hb. rewrite (gr_perm _ _ _ _ _ Hg) in Hb.
    apply elem_of_cons in Hb as [->|]; auto.
  - destruct (store st !! loc) as [l|] eqn:Hl.
    + destruct (decide (_pq st !! _index l = Some loc)) as [Hv|Hv].
      * destruct (update_spec c st loc l v x Hc Hl Hv) as (st' & E & Hu & _).
        rewrite E in Hb. simpl in Hb. rewrite (upd_perm _ _ _ _ _ Hu) in Hb. auto.
      * rewrite (update_invalid c st loc l v x Hl Hv) in Hb. auto.
    + rewrite update_unallocated in Hb by done. auto.
  - destruct (store st !! loc) as [l|] eqn:Hl.
    + destruct (decide (_pq st !! _index l = Some loc)) as [Hv|Hv].
      * destruct (remove_spec c st loc l Hc Hl Hv) as (st' & E & Hs & _).
        rewrite E in Hb. simpl in Hb. left.
        rewrite (sh_perm _ _ _ Hs). by right.
      * rewrite (remove_invalid c st loc l Hl Hv) in Hb. auto.
    + rewrite remove_unallocated in Hb by done. auto.
  - destruct (decide (0 < length (_pq st))) as [Hn|Hn].
    + destruct (pop_spec c st Hc Hn) as (a & l & st' & _ & _ & E & Hs & _).
      rewrite E in Hb. simpl in Hb. left.
      rewrite (sh_perm _ _ _ Hs). by right.
    + rewrite pop_empty in Hb; [auto|].
      destruct (_pq st); [done|simpl in Hn; lia].
  - rewrite peek_final in Hb. auto.
Qed.

Lemma step_store_length c key o st :
  invariant c st → length (store st) ≤ length (store (step c key o st)).
Proof.
  intros [Hc Hh]. destruct o as [x|loc v x|loc| |]; simpl.
  - destruct (append_spec c key x st Hc) as (st' & -> & Hg & _). simpl.
    rewrite (gr_store_len _ _ _ _ _ Hg). lia.
  - destruct (store st !! loc) as [l|] eqn:Hl.
    + destruct (decide (_pq st !! _index l = Some loc)) as [Hv|Hv].
      * destruct (update_spec c st loc l v x Hc Hl Hv) as (st' & -> & Hu & _).
        simpl. by rewrite (upd_store_len _ _ _ _ _ Hu).
      * by rewrite (update_invalid c st loc l v x Hl Hv).
    + by rewrite update_unallocated.
  - destruct (store st !! loc) as [l|] eqn:Hl.
    + destruct (decide (_pq st !! _index l = Some loc)) as [Hv|Hv].
      * destruct (remove_spec c st loc l Hc Hl Hv) as (st' & -> & Hs & _).
        simpl. by rewrite (sh_store_len _ _ _ Hs).
      * by rewrite (remove_invalid c st loc l Hl Hv).
    + by rewrite remove_unallocated.
  - destruct (decide (0 < length (_pq st))) as [Hn|Hn].
    + destruct (pop_spec c st Hc Hn) as (a & l & st' & _ & _ & -> & Hs & _).
      simpl. by rewrite (sh_store_len _ _ _ Hs).
    + rewrite pop_empty; [done|]. destruct (_pq st); [done|simpl in Hn; lia].
  - by rewrite peek_final.
Qed.

(** A locator object that exists and is not in the backing list. *)
Definition dead (st : state) (loc : nat) : Prop :=
  loc < length (store st) ∧ loc ∉ _pq st.

Lemma step_dead c key o st loc :
  invariant c st → dead st loc → dead (step c key o st) loc.
Proof.
  intros Hinv [Hlt Hnin]. split.
  - pose proof (step_store_length c key o st Hinv). lia.
  - intros Hin. apply (step_pq c key o st loc Hinv) in Hin as [Hin| ->]; [done|lia].
Qed.

Lemma run_dead c key ops : ∀ st loc,
  invariant c st → dead st loc → dead (run c key ops st) loc.
Proof.
  induction ops as [|o ops IH]; intros st loc Hinv Hd; [done|].
  simpl. apply IH; [by apply step_invariant|by apply step_dead].
Qed.

Lemma dead_rejected c st loc :
  dead st loc →
  remove c loc st = Raise ValueError st ∧
  ∀ v x, update c loc v x st = Raise ValueError st.
Proof.
  intros [Hlt Hnin].
  destruct (lookup_lt_is_Some_2 _ _ Hlt) as [l Hl].
  assert (_pq st !! _index l ≠ Some loc) as Hv.
  { intros H. apply Hnin. eapply list_elem_of_lookup_2, H. }
  split; [by eapply remove_invalid|]. intros v x. by eapply update_invalid.
Qed.

(** ** Iteration, validation and failure on reachable queues *)

(** C5. On a reachable queue, remove(loc) and update(loc, ...) raise the
    invalid-locator error if and only if the index recorded in [loc] is
    outside the backing list or the slot at that index holds another
    object than [loc]; when they raise it the state is unchanged. *)
Theorem locator_validation (c : cls) (key : Item → Z) (xs : list Item)
    (s0 : state) (ops : list call) (loc : nat) (l : Locator) :
  let st := run c key ops (construct c key xs s0) in
  store st !! loc = Some l →
  let invalid := length (_pq st) ≤ _index l ∨
                 ∃ a, _pq st !! _index l = Some a ∧ a ≠ loc in
  ((∃ st', remove c loc st = Raise ValueError st') ↔ invalid) ∧
  (∀ v x, (∃ st', update c loc v x st = Raise ValueError st') ↔ invalid) ∧
  (∀ st', remove c loc st = Raise ValueError st' → st' = st) ∧
  (∀ v x st', update c loc v x st = Raise ValueError st' → st' = st).
Proof.
  intros st Hl invalid.
  destruct (reachable_invariant c key xs s0 ops) as [Hc _]. fold st in Hc.
  assert (invalid ↔ _pq st !! _index l ≠ Some loc) as Hiff.
  { unfold invalid. split.
    - intros [Hge|(a & Ha & Hne)] H; [|congruence].
      apply lookup_lt_Some in H. lia.
    - intros Hne. destruct (_pq st !! _index l) as [a|] eqn:E.
      + right. exists a. split; [done|]. congruence.
      + left. by apply lookup_ge_None. }
  destruct (decide (_pq st !! _index l = Some loc)) as [Hv|Hv].
  - destruct (remove_spec c st loc l Hc Hl Hv) as (st1 & Hr & _).
    assert (∀ v x, ∃ st2, update c loc v x st = Ok tt st2) as Hu.
    { intros v x. destruct (update_spec c st loc l v x Hc Hl Hv) as (st2 & ? & _).
      eauto. }
    split; [|split; [|split]].
    + rewrite Hiff, Hr. split; [intros [? ?]; done|done].
    + intros v x. destruct (Hu v x) as [st2 ->]. rewrite Hiff.
      split; [intros [? ?]; done|done].
    + intros st'. by rewrite Hr.
    + intros v x st'. destruct (Hu v x) as [st2 ->]. done.
  - rewrite Hiff.
    split; [|split; [|split]].
    + rewrite (remove_invalid c st loc l Hl Hv). split; [done|eauto].
    + intros v x. rewrite ?Hiff, (update_invalid c st loc l v x Hl Hv).
      split; [done|eauto].
    + intros st'. rewrite (remove_invalid c st loc l Hl Hv). congruence.
    + intros v x st'. rewrite (update_invalid c st loc l v x Hl Hv). congruence.
Qed.

(** C6. On a reachable queue, peek and pop raise (Python's IndexError, the
    empty-queue error of this code) exactly when the queue is empty, and
    then leave it unchanged; on a non-empty queue peek returns the payload
    in slot 0 without changing the state, and pop returns that payload,
    whose priority is extremal among the live entries, and removes that
    very entry: the locator of slot 0 leaves the backing list, the other
    locators stay with their priorities and payloads, the live entries are
    the old ones less the returned one, and the queue of one entry less is
    position coherent and in heap order again. *)
Theorem empty_queue_failure (c : cls) (key : Item → Z) (xs : list Item)
    (s0 : state) (ops : list call) :
  let st := run c key ops (construct c key xs s0) in
  (_pq st = [] →
     peek st = Raise IndexError st ∧ pop c st = Raise IndexError st) ∧
  (_pq st ≠ [] →
     ∃ a l st', _pq st !! 0 = Some a ∧ store st !! a = Some l ∧
       peek st = Ok (_item l) st ∧
       pop c st = Ok (_item l) st' ∧
       length (_pq st') = length (_pq st) - 1 ∧
       (∀ e, e ∈ entries st → ble c (_value l) e.1) ∧
       _pq st ≡ₚ a :: _pq st' ∧ (a ∉ _pq st') ∧
       entries st ≡ₚ payload l :: entries st' ∧
       (∀ b, payload <$> store st' !! b = payload <$> store st !! b) ∧
       invariant c st').
Proof.
  intros st.
  pose proof (reachable_invariant c key xs s0 ops) as Hinv. fold st in Hinv.
  split.
  - intros Hnil. split; [by apply peek_empty|by apply pop_empty].
  - intros Hne. destruct Hinv as [Hc Hh].
    assert (0 < length (_pq st)) as Hn by (destruct (_pq st); [done|simpl; lia]).
    destruct (pop_spec c st Hc Hn) as (a & l & st' & Ha & Hl & Hp & Hs & Hh').
    exists a, l, st'. split; [done|]. split; [done|].
    split; [by apply (peek_spec st a l)|]. split; [done|].
    split; [rewrite (shrunk_length _ _ _ Hs); lia|].
    split; [by apply (root_best c st a l)|].
    split; [apply Hs|]. split; [by apply (shrunk_not_in st st' a)|].
    split; [by apply (shrunk_entries st st' a)|]. split; [apply Hs|].
    split; [apply Hs|auto].
Qed.

(** C10. A locator object that is not in the backing list of a reachable
    queue (it was removed, popped, or never belonged to this queue) stays
    out of it whatever calls follow, appends included, and remove and
    update on it always raise the invalid-locator error and leave the queue
    unchanged; a successful remove and a successful pop put the locator
    concerned in that position. *)
Theorem dead_locators_detected (c : cls) (key : Item → Z) (xs : list Item)
    (s0 : state) (ops : list call) (loc : nat) :
  let st := run c key ops (construct c key xs s0) in
  (dead st loc →
     ∀ ops', let st' := run c key ops' st in
       dead st' loc ∧
       remove c loc st' = Raise ValueError st' ∧
       ∀ v x, update c loc v x st' = Raise ValueError st') ∧
  (∀ l, store st !! loc = Some l → _pq st !! _index l = Some loc →
     dead (step c key (Remove loc) st) loc) ∧
  (_pq st !! 0 = Some loc → dead (step c key Pop st) loc).
Proof.
  intros st.
  pose proof (reachable_invariant c key xs s0 ops) as Hinv. fold st in Hinv.
  split; [|split].
  - intros Hd ops' st'.
    pose proof (run_dead c key ops' st loc Hinv Hd) as Hd'. fold st' in Hd'.
    split; [done|]. by apply dead_rejected.
  - intros l Hl Hv. destruct Hinv as [Hc Hh]. simpl.
    destruct (remove_spec c st loc l Hc Hl Hv) as (st' & -> & Hs & _). simpl.
    split.
    + rewrite (sh_store_len _ _ _ Hs). by eapply lookup_lt_Some.
    + by eapply shrunk_not_in.
  - intros Ha. destruct Hinv as [Hc Hh]. simpl.
    pose proof (lookup_lt_Some _ _ _ Ha) as Hn.
    destruct (pop_spec c st Hc Hn) as (a & l & st' & Ha' & Hl & -> & Hs & _).
    assert (a = loc) as -> by congruence. simpl. split.
    + rewrite (sh_store_len _ _ _ Hs). by eapply lookup_lt_Some.
    + by eapply shrunk_not_in.
Qed.

(** C9. Min/max duality: every method of the max-oriented class behaves
    on a queue as the same method of the min-oriented class does on the
    queue with every priority negated, that is with the comparison of
    priorities reversed: same returned value or exception, same backing
    list, same indices and payloads.  This holds from any state, hence
    along any sequence of calls; and iterating the max class sorts the
    payloads with their comparison reversed. *)
Theorem min_max_duality :
  (∀ key xs, dual (__init__ MaxHeapPriorityQueue key xs)
                  (__init__ MinHeapPriorityQueue (neg_key key) xs)) ∧
  (∀ key x, dual (append MaxHeapPriorityQueue key x)
                 (append MinHeapPriorityQueue (neg_key key) x)) ∧
  (∀ loc v x, dual (update MaxHeapPriorityQueue loc v x)
                   (update MinHeapPriorityQueue loc (- v)%Z x)) ∧
  (∀ loc, dual (remove MaxHeapPriorityQueue loc) (remove MinHeapPriorityQueue loc)) ∧
  dual (pop MaxHeapPriorityQueue) (pop MinHeapPriorityQueue) ∧
  dual peek peek ∧ dual __len__ __len__ ∧ dual items items ∧
  (∀ key ops st,
     run MaxHeapPriorityQueue key ops st =
     neg_state (run MinHeapPriorityQueue (neg_key key) (neg_call <$> ops)
                  (neg_state st))) ∧
  (∀ lt st, strict_total lt →
     __iter__ MaxHeapPriorityQueue lt st =
     __iter__ MinHeapPriorityQueue (λ a b, lt b a) st).
Proof.
  repeat split.
  - apply dual_init.
  - apply dual_append.
  - apply dual_update.
  - apply dual_remove.
  - apply dual_pop.
  - apply dual_peek.
  - apply dual_len.
  - apply dual_items.
  - intros. apply dual_run.
  - intros lt st Hlt. unfold __iter__, bind.
    destruct (items st) as [ys st'|]; [|done].
    unfold ret. by rewrite sorted_reverse_flip.
Qed.

(** ** [remove] and [update], step by step *)

Lemma coherent_valid st loc :
  coherent st → loc ∈ _pq st →
  ∃ l, store st !! loc = Some l ∧ _pq st !! _index l = Some loc.
Proof.
  intros Hc (k & Hk)%list_elem_of_lookup_1.
  destruct (Hc _ _ Hk) as (l & Hl & <-). eauto.
Qed.

Lemma remove_steps c st loc l :
  invariant c st → store st !! loc = Some l → _pq st !! _index l = Some loc →
  ∃ st', remove c loc st = Ok (_item l) st' ∧
    length (_pq st') = length (_pq st) - 1 ∧
    invariant c st' ∧ dead st' loc ∧
    entries st ≡ₚ payload l :: entries st' ∧
    (_index l = length (_pq st) - 1 →
       st' = mkState (store st) (take (length (_pq st) - 1) (_pq st))) ∧
    (_index l ≠ length (_pq st) - 1 →
       ∃ st1 st2 st3,
         _swap (_index l) (length (_pq st) - 1) st = Ok tt st1 ∧
         pq_pop st1 = Ok loc st2 ∧
         _upheap c (_index l) st2 = Ok tt st3 ∧
         _downheap c (_index l) st3 = Ok tt st').
Proof.
  intros [Hc Hh] Hl Hv.
  pose proof (lookup_lt_Some _ _ _ Hv) as Hj.
  destruct (remove_spec c st loc l Hc Hl Hv) as (st' & Hr & Hs & Hh').
  exists st'. split; [done|].
  split; [rewrite (shrunk_length _ _ _ Hs); lia|].
  split; [split; [apply Hs|auto]|].
  split.
  { split; [|by eapply shrunk_not_in].
    rewrite (sh_store_len _ _ _ Hs). by eapply lookup_lt_Some. }
  split; [by eapply shrunk_entries|].
  split.
  - intros E. rewrite E in Hv.
    unfold remove, bind in Hr.
    rewrite (get_index_eq _ _ _ Hl), invalid_locator_eq in Hr.
    rewrite decide_True in Hr by (by rewrite E). unfold len in Hr.
    rewrite E, Nat.eqb_refl, (pq_pop_eq _ _ Hv) in Hr. unfold ret in Hr.
    rewrite (get_item_eq _ _ l) in Hr by done. congruence.
  - intros Hne.
    destruct (swap_pop_spec st (_index l) Hc Hj)
      as (a & st1 & st2 & Ha & Hsw & Hl1 & Hp & Hsh & Hl2 & _).
    assert (a = loc) as -> by congruence.
    destruct (upheap_spec c (_index l) st2 (sh_coherent _ _ _ Hsh) ltac:(lia))
      as (st3 & Hu & Hr3 & _).
    destruct (downheap_spec c (_index l) st3 0 (rr_coherent _ _ Hr3) ltac:(lia))
      as (st4 & Hd & Hr4 & _).
    exists st1, st2, st3. split; [done|]. split; [done|]. split; [done|].
    unfold remove, bind in Hr.
    rewrite (get_index_eq _ _ _ Hl), invalid_locator_eq in Hr.
    rewrite decide_True in Hr by done. unfold len in Hr.
    destruct (Nat.eqb_spec (_index l) (length (_pq st) - 1)); [done|].
    unfold _fix, bind in Hr. rewrite Hsw, Hp, Hu, Hd in Hr.
    pose proof (rearranged_trans _ _ _ Hr3 Hr4) as Hr34.
    pose proof (shrunk_rearranged _ _ _ _ Hsh Hr34) as Hsh4.
    destruct (payload_lookup _ _ loc l (sh_payload _ _ _ Hsh4 loc) Hl)
      as (l4 & Hl4 & _ & _).
    rewrite (get_item_eq _ _ _ Hl4) in Hr. congruence.
Qed.

Lemma update_steps c st loc l v x :
  invariant c st → store st !! loc = Some l → _pq st !! _index l = Some loc →
  ∃ st' rest, update c loc v x st = Ok tt st' ∧
    invariant c st' ∧
    length (_pq st') = length (_pq st) ∧
    (∃ l', store st' !! loc = Some l' ∧ _value l' = v ∧ _item l' = x ∧
           _pq st' !! _index l' = Some loc) ∧
    entries st ≡ₚ payload l :: rest ∧
    entries st' ≡ₚ (v, x) :: rest ∧
    (∃ st1 st2 st3,
       set_value loc v st = Ok tt st1 ∧ set_item loc x st1 = Ok tt st2 ∧
       _upheap c (_index l) st2 = Ok tt st3 ∧
       _downheap c (_index l) st3 = Ok tt st').
Proof.
  intros [Hc Hh] Hl Hv.
  pose proof (lookup_lt_Some _ _ _ Hv) as Hj.
  pose proof (lookup_lt_Some _ _ _ Hl) as Hloc.
  destruct (update_spec c st loc l v x Hc Hl Hv) as (st' & Hu & Hupd & Hh').
  destruct Hupd as [c' p' n' (l' & Hl' & Hv' & Hx') y' f'].
  assert (loc ∈ _pq st) as Hin by (eapply list_elem_of_lookup_2, Hv).
  apply elem_of_Permutation in Hin as [addrs Haddrs].
  assert (loc ∉ addrs) as Hnin.
  { pose proof (coherent_NoDup st Hc) as Hnd. rewrite Haddrs in Hnd.
    by apply NoDup_cons in Hnd as [? _]. }
  exists st', (omap (λ b, payload <$> store st !! b) addrs).
  split; [done|]. split; [split; auto|]. split; [by rewrite p'|].
  split.
  { exists l'. split; [done|]. split; [done|]. split; [done|].
    destruct (coherent_valid st' loc c') as (l'' & Hl'' & Hv'').
    - rewrite p'. eapply list_elem_of_lookup_2, Hv.
    - congruence. }
  split.
  { unfold entries. rewrite Haddrs. simpl. by rewrite Hl. }
  split.
  { unfold entries. rewrite p', Haddrs. simpl. rewrite Hl'. simpl.
    unfold payload at 1. rewrite Hv', Hx'. apply Permutation_skip.
    erewrite omap_ext_in; [reflexivity|].
    intros b Hb. apply y'. intros ->. done. }
  set (st1 := mkState (<[loc:=with_value v l]> (store st)) (_pq st)).
  set (st2 := mkState (<[loc:=with_item x (with_value v l)]> (store st1)) (_pq st)).
  assert (set_value loc v st = Ok tt st1) as E1.
  { unfold set_value, setattr. by rewrite Hl. }
  assert (set_item loc x st1 = Ok tt st2) as E2.
  { unfold set_item, setattr. simpl. by rewrite list_lookup_insert_eq. }
  assert (coherent st2) as Hc2.
  { intros k b Hk. simpl in Hk. destruct (Hc _ _ Hk) as (lb & Hlb & Hi).
    simpl. destruct (decide (b = loc)) as [->|Hne].
    - rewrite list_lookup_insert_eq by (rewrite length_insert; lia).
      eexists. split; [done|]. simpl. congruence.
    - rewrite !list_lookup_insert_ne by done. eauto. }
  destruct (upheap_spec c (_index l) st2 Hc2 Hj) as (st3 & Hup & Hr3 & _).
  destruct (downheap_spec c (_index l) st3 0 (rr_coherent _ _ Hr3) ltac:(lia))
    as (st4 & Hd & _).
  exists st1, st2, st3. split; [done|]. split; [done|]. split; [done|].
  unfold update, bind in Hu.
  rewrite (get_index_eq _ _ _ Hl), invalid_locator_eq in Hu.
  rewrite decide_True in Hu by done.
  rewrite E1, E2 in Hu. unfold _fix, bind in Hu. rewrite Hup, Hd in Hu.
  congruence.
Qed.

Lemma elem_of_item_list st' (e : Z * Item) rest y :
  entries st' ≡ₚ e :: rest → (y ∈ item_list st' ↔ y = e.2 ∨ y ∈ rest.*2).
Proof.
  intros Hp. unfold item_list. rewrite Hp, fmap_cons. apply elem_of_cons.
Qed.

Lemma pop_unique_best c st v x rest :
  invariant c st → entries st ≡ₚ (v, x) :: rest →
  (∀ e, e ∈ rest → better c v e.1 = true) →
  ∃ st', pop c st = Ok x st' ∧ invariant c st' ∧ entries st' ≡ₚ rest.
Proof.
  intros [Hc Hh] Hent Hbest.
  assert (0 < length (_pq st)) as Hn.
  { rewrite <- entries_length by done. rewrite Hent. simpl. lia. }
  destruct (pop_spec c st Hc Hn) as (a & l & st' & Ha & Hl & Hp & Hs & Hh').
  pose proof (shrunk_entries _ _ _ _ Hs Hl) as Hent'.
  assert (payload l = (v, x)) as Hpl.
  { assert (payload l ∈ (v, x) :: rest) as Hin.
    { rewrite <- Hent, Hent'. by left. }
    apply elem_of_cons in Hin as [->|Hin]; [done|]. exfalso.
    specialize (Hbest _ Hin). simpl in Hbest.
    assert (ble c (_value l) v) as Hle.
    { apply (root_best c st a l (conj Hc Hh) Ha Hl (v, x)). rewrite Hent. by left. }
    destruct c; simpl in *; lia. }
  exists st'. injection Hpl as Hv Hx. rewrite Hx in Hp.
  split; [done|]. split; [split; [apply Hs|auto]|].
  apply (Permutation_cons_inv (a:=(v, x))).
  rewrite <- Hent, Hent'. unfold payload. by rewrite Hv, Hx.
Qed.

(** ** Iteration on reachable queues *)

(** Totally ordered payloads have one ascending and one descending
    arrangement only: whatever algorithm sorts them, it returns this
    list. *)
Lemma item_order_unique c lt (l1 l2 : list Item) :
  strict_total lt →
  Sorted (item_order c lt) l1 → Sorted (item_order c lt) l2 →
  l1 ≡ₚ l2 → l1 = l2.
Proof.
  intros (Has & Htr & Htri) H1 H2 Hp.
  assert (Transitive (item_order c lt)) as HT.
  { destruct c; simpl.
    - intros a b d Hba Hdb. destruct (lt d a) eqn:Hda; [|done]. exfalso.
      destruct (lt a b) eqn:Hab.
      + rewrite (Htr d a b Hda Hab) in Hdb. done.
      + rewrite (Htri b a Hba Hab) in Hdb. congruence.
    - intros a b d Hab Hbd. destruct (lt a d) eqn:Had; [|done]. exfalso.
      destruct (lt b a) eqn:Hba.
      + rewrite (Htr b a d Hba Had) in Hbd. done.
      + rewrite (Htri a b Hab Hba) in Had. congruence. }
  apply (Sorted_unique_strong (item_order c lt)); [|done..].
  intros x1 x2 _ _. destruct c; simpl; intros Ha Hb.
  - by apply Htri.
  - by apply Htri.
Qed.

Lemma Sorted_fmap_in {A B C} (R1 : relation B) (R2 : relation C)
    (f : A → B) (g : A → C) (l : list A) :
  (∀ x y, x ∈ l → y ∈ l → R1 (f x) (f y) → R2 (g x) (g y)) →
  Sorted R1 (f <$> l) → Sorted R2 (g <$> l).
Proof.
  induction l as [|a l IH]; intros H Hs; [constructor|].
  rewrite fmap_cons in Hs. rewrite fmap_cons.
  apply Sorted_inv in Hs as [Hs Hd]. constructor.
  - apply IH; [|done]. intros x y Hx Hy. apply H; by right.
  - destruct l as [|b l]; [constructor|].
    rewrite fmap_cons in Hd. rewrite fmap_cons.
    apply HdRel_inv in Hd. constructor.
    apply H; [by left|right; by left|done].
Qed.

Lemma fmap_perm_lift {A B} (f : A → B) (out : list B) (l : list A) :
  out ≡ₚ f <$> l → ∃ l', l' ≡ₚ l ∧ out = f <$> l'.
Proof.
  intros Hp. destruct (Permutation_map_inv f l Hp) as (l' & -> & Hp').
  exists l'. split; [by symmetry|done].
Qed.

(** A call after which every entry still has the priority the key
    function gives its payload: any call but an [update] that stores
    another priority. *)
Definition keeps_key (key : Item → Z) (o : call) : Prop :=
  match o with
  | Update _ v x => v = key x
  | _ => True
  end.

(** Every live entry has the priority [key(payload)]. *)
Definition keyed (key : Item → Z) (st : state) : Prop :=
  ∀ e, e ∈ entries st → e.1 = key e.2.

Lemma keyed_perm key st (e0 : Z * Item) rest :
  entries st ≡ₚ e0 :: rest → keyed key st → ∀ e, e ∈ rest → e.1 = key e.2.
Proof. intros Hp Hk e He. apply Hk. rewrite Hp. by right. Qed.

Lemma step_keyed c key o st :
  invariant c st → keeps_key key o → keyed key st →
  keyed key (step c key o st).
Proof.
  intros [Hc Hh] Ho Hk. destruct o as [x|loc v x|loc| |]; simpl.
  - destruct (append_spec c key x st Hc) as (st' & -> & Hg & _). simpl.
    intros e He. rewrite (grown_entries _ _ _ _ _ Hc Hg) in He.
    apply elem_of_cons in He as [->|He]; [done|by apply Hk].
  - destruct (store st !! loc) as [l|] eqn:Hl.
    + destruct (decide (_pq st !! _index l = Some loc)) as [Hv|Hv].
      * destruct (update_steps c st loc l v x (conj Hc Hh) Hl Hv)
          as (st' & rest & -> & _ & _ & _ & He & He' & _). simpl.
        intros e Hin. rewrite He' in Hin.
        apply elem_of_cons in Hin as [->|Hin]; [exact Ho|].
        by apply (keyed_perm key st (payload l) rest).
      * by rewrite (update_invalid c st loc l v x Hl Hv).
    + by rewrite update_unallocated.
  - destruct (store st !! loc) as [l|] eqn:Hl.
    + destruct (decide (_pq st !! _index l = Some loc)) as [Hv|Hv].
      * destruct (remove_spec c st loc l Hc Hl Hv) as (st' & -> & Hs & _).
        simpl. intros e Hin.
        apply (keyed_perm key st (payload l) (entries st')); [|done..].
        by apply (shrunk_entries st st' loc).
      * by rewrite (remove_invalid c st loc l Hl Hv).
    + by rewrite remove_unallocated.
  - destruct (decide (0 < length (_pq st))) as [Hn|Hn].
    + destruct (pop_spec c st Hc Hn) as (a & l & st' & _ & Hl & -> & Hs & _).
      simpl. intros e Hin.
      apply (keyed_perm key st (payload l) (entries st')); [|done..].
      by apply (shrunk_entries st st' a).
    + rewrite pop_empty; [done|]. destruct (_pq st); [done|simpl in Hn; lia].
  - by rewrite peek_final.
Qed.

Lemma run_keyed c key ops : ∀ st,
  invariant c st → Forall (keeps_key key) ops → keyed key st →
  keyed key (run c key ops st).
Proof.
  induction ops as [|o ops IH]; intros st Hi Hf Hk; [done|].
  apply Forall_cons in Hf as [Ho Hf]. simpl.
  apply IH; [by apply step_invariant|done|by apply step_keyed].
Qed.

Lemma construct_keyed c key xs s0 : keyed key (construct c key xs s0).
Proof.
  intros e He. rewrite (bl_entries _ _ _ _ _ (construct_built c key xs s0)) in He.
  apply list_elem_of_fmap in He as (x & -> & _). done.
Qed.

(** C4 (amended). Iterating a reachable queue whose payloads are totally
    ordered by their own [<] returns every live payload exactly once,
    each with the priority stored beside it, in ascending order of the
    payloads for the min class and descending order for the max class:
    the one list in that order, which is what sorted(self.items) returns.
    Neither the key function nor the stored priorities take part.  The
    stored priorities are in ascending (descending) order along the
    iteration whenever, between any two live entries, the entry whose
    payload is not the larger has the priority that is not the larger;
    this holds when the key function respects the payloads' order and no
    [update] has stored a priority other than [key(payload)].  The
    iteration leaves the state as it was, so a pop after it behaves as a
    pop without it. *)
Theorem iteration_sorted_by_payload (c : cls) (key : Item → Z)
    (lt : Item → Item → bool) (xs : list Item) (s0 : state) (ops : list call) :
  strict_total lt →
  let st := run c key ops (construct c key xs s0) in
  ∃ out es, __iter__ c lt st = Ok out st ∧
     es ≡ₚ entries st ∧ out = es.*2 ∧
     out ≡ₚ item_list st ∧
     Sorted (item_order c lt) out ∧
     (∀ out', out' ≡ₚ item_list st → Sorted (item_order c lt) out' →
              out' = out) ∧
     ((∀ e1 e2, e1 ∈ entries st → e2 ∈ entries st →
                lt e2.2 e1.2 = false → (e1.1 ≤ e2.1)%Z) →
      Sorted (ble c) es.*1) ∧
     (Forall (keeps_key key) ops →
      (∀ x y, lt y x = false → (key x ≤ key y)%Z) →
      es.*1 = key <$> out ∧ Sorted (ble c) es.*1) ∧
     (let! _ := __iter__ c lt in pop c) st = pop c st.
Proof.
  intros Hst st.
  destruct (reachable_invariant c key xs s0 ops) as [Hc Hh]. fold st in Hc, Hh.
  destruct (iter_spec c lt st Hc (proj1 Hst)) as (out & He & Hp & Hs).
  destruct (fmap_perm_lift snd out (entries st) Hp) as (es & Hes & ->).
  assert ((∀ e1 e2, e1 ∈ entries st → e2 ∈ entries st →
                    lt e2.2 e1.2 = false → (e1.1 ≤ e2.1)%Z) →
          Sorted (ble c) es.*1) as Hagree.
  { intros Hag. apply (Sorted_fmap_in (item_order c lt) (ble c) snd fst); [|done].
    intros x y Hx Hy. rewrite Hes in Hx, Hy.
    destruct c; simpl; intros Hlt; by apply Hag. }
  exists (es.*2), es. split; [done|]. split; [done|]. split; [done|].
  split; [done|]. split; [done|]. split.
  { intros out' Hp' Hs'. apply (item_order_unique c lt); [done..|].
    by rewrite Hp', Hp. }
  split; [done|]. split.
  - intros Hops Hkey.
    assert (keyed key st) as Hk.
    { apply run_keyed; [apply construct_invariant|done|apply construct_keyed]. }
    split.
    + rewrite <- list_fmap_compose. apply list_fmap_ext.
      intros i e Hi. simpl. apply Hk. rewrite <- Hes.
      by eapply list_elem_of_lookup_2.
    + apply Hagree. intros e1 e2 H1 H2 Hlt.
      rewrite (Hk e1 H1), (Hk e2 H2). by apply Hkey.
  - unfold bind. by rewrite He.
Qed.

End PriorityQueue.

Arguments Ok {Item A} a st.
Arguments Raise {Item A} e st.

Notation "'let!' x ':=' m 'in' k" := (bind m (λ x, k))
  (at level 10, x name, m at level 100, k at level 200).

(** * Concrete queues: the scenarios of the doctests *)

(** No object exists yet and no backing list is assigned. *)
Definition empty_state {Item : Type} : @state Item := mkState [] [].

(** The identity key, [key=lambda x: x], on ints. *)
Definition identity (x : Z) : Z := x.

(** [key=len] on strings. *)
Definition len_key (s : string) : Z := Z.of_nat (String.length s).

(** pq = MinHeapPriorityQueue([4, 0, 1, 3, 2]) *)
Definition scenario_A : @state Z :=
  construct MinHeapPriorityQueue identity [4; 0; 1; 3; 2]%Z empty_state.

(** pq = MinHeapPriorityQueue(); locs[item] = pq.append(item) for
    12, 46, 89, 101, 72, 81.  The tokens are the addresses 0 to 5, in the
    order of the appends: locs[46] is address 1. *)
Definition scenario_C : result (list nat) :=
  (let! _ := __init__ MinHeapPriorityQueue identity [] in
   append_all MinHeapPriorityQueue identity [12; 46; 89; 101; 72; 81]%Z)
    empty_state.

(** MinHeapPriorityQueue(['yy', 'ttttttt', 'z'], key=len) *)
Definition three_strings : @state string :=
  construct MinHeapPriorityQueue len_key ["yy"; "ttttttt"; "z"]%string empty_state.

(** MinHeapPriorityQueue([5, 5]) *)
Definition two_fives : @state Z :=
  construct MinHeapPriorityQueue identity [5; 5]%Z empty_state.

Lemma asymmetric_Zltb : asymmetric Z.ltb.
Proof. intros x y H. apply Z.ltb_lt in H. apply Z.ltb_ge. lia. Qed.

Lemma strict_total_Zltb : strict_total Z.ltb.
Proof.
  split; [exact asymmetric_Zltb|]. split.
  - intros x y z H1%Z.ltb_lt H2%Z.ltb_lt. apply Z.ltb_lt. lia.
  - intros x y H1%Z.ltb_ge H2%Z.ltb_ge. lia.
Qed.

(** C1, at the queue of the first doctest after an append and a pop. *)
Lemma position_coherence_witness :
  let st := run MinHeapPriorityQueue identity [Append 7%Z; Pop] scenario_A in
  _pq st !! 0 = Some 2 ∧ ∃ l, store st !! 2 = Some l ∧ _index l = 0.
Proof.
  split; [reflexivity|].
  apply (position_coherence MinHeapPriorityQueue identity [4; 0; 1; 3; 2]%Z
           empty_state [Append 7%Z; Pop] 0 2).
  reflexivity.
Defined.

(** C2, at the same queue. *)
Lemma heap_order_invariant_witness :
  let st := run MaxHeapPriorityQueue identity [Append 7%Z; Pop]
              (construct MaxHeapPriorityQueue identity [4; 0; 1; 3; 2]%Z empty_state) in
  val_at st 0 = Some 4%Z ∧
  (∀ vl, val_at st 1 = Some vl → (vl ≤ 4)%Z) ∧
  (∀ vr, val_at st 2 = Some vr → (vr ≤ 4)%Z).
Proof.
  split; [reflexivity|].
  apply (heap_order_invariant MaxHeapPriorityQueue identity [4; 0; 1; 3; 2]%Z
           empty_state [Append 7%Z; Pop] 0 4%Z).
  reflexivity.
Defined.

(** C3. Round trip: building a min-oriented queue from [xs], appending
    every item of [ys] and popping as many times as items went in returns
    exactly those items, in non-decreasing order of their priorities; the
    priorities come out as in the reference sort sorted(items, key=key),
    and with the identity key the output is that reference sort.
    Scenario A: the queue built from [4,0,1,3,2] pops 0. *)
Theorem round_trip :
  (∀ (Item : Type) (key : Item → Z) (xs ys : list Item) (s0 : state),
     ∃ out st', build_and_drain MinHeapPriorityQueue key xs ys s0 = Ok out st' ∧
                out ≡ₚ xs ++ ys ∧
                Sorted Z.le (key <$> out) ∧
                key <$> out = key <$> sorted_by_key key (xs ++ ys)) ∧
  (∀ (xs ys : list Z) (s0 : state),
     ∃ st', build_and_drain MinHeapPriorityQueue identity xs ys s0 =
            Ok (sorted_by_key identity (xs ++ ys)) st') ∧
  (∃ st', pop MinHeapPriorityQueue scenario_A = Ok 0%Z st').
Proof.
  split; [|split].
  - intros. apply build_and_drain_reference.
  - intros xs ys s0.
    destruct (build_and_drain_reference identity xs ys s0)
      as (out & st' & He & _ & _ & Hk).
    exists st'. rewrite He. f_equal.
    assert (∀ l : list Z, identity <$> l = l) as Hid.
    { intros l. induction l as [|z l IH]; [done|]. rewrite fmap_cons. by rewrite IH. }
    by rewrite !Hid in Hk.
  - eexists. vm_compute. reflexivity.
Qed.

(** C4 as stated: iteration yields the payloads in priority order. *)
Definition iter_in_priority_order {Item : Type} (c : cls) (key : Item → Z)
    (lt : Item → Item → bool) (st : state) : Prop :=
  ∃ out, __iter__ c lt st = Ok out st ∧ out ≡ₚ item_list st ∧
         Sorted (ble c) (key <$> out).

(** C4 fails with a key that is not the payloads' order: the queue built
    from 'yy', 'ttttttt', 'z' with key=len iterates as 'ttttttt', 'yy',
    'z', whose lengths 7, 2, 1 are not ascending. *)
Lemma iteration_not_by_priority :
  ¬ iter_in_priority_order MinHeapPriorityQueue len_key String.ltb three_strings.
Proof.
  intros (out & He & _ & Hs).
  vm_compute in He. injection He as <-.
  rewrite !fmap_cons in Hs.
  apply Sorted_inv in Hs as [_ Hd]. inversion Hd as [|? ? Hle].
  vm_compute in Hle. by apply Hle.
Qed.

Lemma iteration_sorted_by_payload_witness :
  strict_total Z.ltb ∧
  ∃ (out : list Z) (es : list (Z * Z)), __iter__ MaxHeapPriorityQueue Z.ltb
           (run MaxHeapPriorityQueue identity [Append 7%Z]
              (construct MaxHeapPriorityQueue identity [3; 1; 0; 2; 4]%Z empty_state))
         = Ok out (run MaxHeapPriorityQueue identity [Append 7%Z]
              (construct MaxHeapPriorityQueue identity [3; 1; 0; 2; 4]%Z empty_state)) ∧
         out = es.*2 ∧
         Sorted (item_order MaxHeapPriorityQueue Z.ltb) out.
Proof.
  split; [exact strict_total_Zltb|].
  destruct (iteration_sorted_by_payload MaxHeapPriorityQueue identity Z.ltb
              [3; 1; 0; 2; 4]%Z empty_state [Append 7%Z] strict_total_Zltb)
    as (out & es & He & _ & Ho & _ & Hs & _).
  exists out, es. split; [exact He|]. split; [exact Ho|exact Hs].
Defined.

(** An [update] can store a priority that is not [key(payload)]: after
    pq = MinHeapPriorityQueue([1, 2, 3]) and update(loc of 3, 0, 3) the
    iteration is still 1, 2, 3 while pop returns 3. *)
Lemma iteration_ignores_updated_priority :
  let st := run MinHeapPriorityQueue identity [Update 2 0%Z 3%Z]
              (construct MinHeapPriorityQueue identity [1; 2; 3]%Z empty_state) in
  __iter__ MinHeapPriorityQueue Z.ltb st = Ok [1; 2; 3]%Z st ∧
  entries st = [(0, 3); (2, 2); (1, 1)]%Z ∧
  ∃ st', pop MinHeapPriorityQueue st = Ok 3%Z st'.
Proof.
  split; [reflexivity|]. split; [reflexivity|].
  eexists. vm_compute. reflexivity.
Qed.

(** C5, at a live locator of the first doctest's queue. *)
Lemma locator_validation_witness :
  store scenario_A !! 1 = Some (mkLocator 0 0%Z 0) ∧
  ((∃ st', remove MinHeapPriorityQueue 1 scenario_A = Raise ValueError st') ↔
   (length (_pq scenario_A) ≤ 0 ∨ ∃ a, _pq scenario_A !! 0 = Some a ∧ a ≠ 1)).
Proof.
  split; [reflexivity|].
  apply (locator_validation MinHeapPriorityQueue identity [4; 0; 1; 3; 2]%Z
           empty_state [] 1 (mkLocator 0 0%Z 0)).
  reflexivity.
Defined.

(** C6, at the first doctest's queue. *)
Lemma empty_queue_failure_witness :
  _pq scenario_A ≠ [] ∧
  ∃ a l st', _pq scenario_A !! 0 = Some a ∧ store scenario_A !! a = Some l ∧
    peek scenario_A = Ok (_item l) scenario_A ∧
    pop MinHeapPriorityQueue scenario_A = Ok (_item l) st' ∧
    length (_pq st') = length (_pq scenario_A) - 1 ∧
    (∀ e, e ∈ entries scenario_A → ble MinHeapPriorityQueue (_value l) e.1) ∧
    _pq scenario_A ≡ₚ a :: _pq st' ∧ (a ∉ _pq st') ∧
    entries scenario_A ≡ₚ payload l :: entries st' ∧
    (∀ b, payload <$> store st' !! b = payload <$> store scenario_A !! b) ∧
    invariant MinHeapPriorityQueue st'.
Proof.
  assert (_pq scenario_A ≠ []) as Hne by (vm_compute; discriminate).
  split; [exact Hne|].
  exact (proj2 (empty_queue_failure MinHeapPriorityQueue identity
                  [4; 0; 1; 3; 2]%Z empty_state []) Hne).
Defined.

(** pq = MinHeapPriorityQueue() followed by the six appends of the
    docstring, as calls. *)
Definition scenario_C_state : @state Z :=
  run MinHeapPriorityQueue identity
    (Append <$> [12; 46; 89; 101; 72; 81]%Z)
    (construct MinHeapPriorityQueue identity [] empty_state).

(** C7. Remove: for a valid locator [loc] with recorded index [j] in a
    reachable queue of [n] entries, remove(loc) returns the payload of
    [loc] and leaves [n-1] entries, the others, in heap order and position
    coherent, with [loc] out of the backing list.  When [j = n-1] the call
    only drops the last slot; otherwise it is the swap of slots [j] and
    [n-1], the drop of the last slot, a sift-up from [j] and a sift-down
    from [j].  Scenario C: after appending 12, 46, 89, 101, 72, 81 the
    token of 46 is Locator(value=46, item=46, index=1); removing it returns
    46 and leaves five entries in heap order and position coherent. *)
Theorem remove_semantics :
  (∀ (Item : Type) (c : cls) (key : Item → Z) (xs : list Item) (s0 : state)
     (ops : list call) (loc : nat) (l : Locator),
     let st := run c key ops (construct c key xs s0) in
     store st !! loc = Some l → _pq st !! _index l = Some loc →
     ∃ st', remove c loc st = Ok (_item l) st' ∧
       length (_pq st') = length (_pq st) - 1 ∧
       invariant c st' ∧ dead st' loc ∧
       entries st ≡ₚ payload l :: entries st' ∧
       (_index l = length (_pq st) - 1 →
          st' = mkState (store st) (take (length (_pq st) - 1) (_pq st))) ∧
       (_index l ≠ length (_pq st) - 1 →
          ∃ st1 st2 st3,
            _swap (_index l) (length (_pq st) - 1) st = Ok tt st1 ∧
            pq_pop st1 = Ok loc st2 ∧
            _upheap c (_index l) st2 = Ok tt st3 ∧
            _downheap c (_index l) st3 = Ok tt st')) ∧
  (append MinHeapPriorityQueue identity 46%Z
     (run MinHeapPriorityQueue identity [Append 12%Z]
        (construct MinHeapPriorityQueue identity [] empty_state)) =
     Ok 1 (run MinHeapPriorityQueue identity [Append 12%Z; Append 46%Z]
             (construct MinHeapPriorityQueue identity [] empty_state)) ∧
   store scenario_C_state !! 1 = Some (mkLocator 46 46%Z 1) ∧
   ∃ st', remove MinHeapPriorityQueue 1 scenario_C_state = Ok 46%Z st' ∧
          length (_pq st') = 5 ∧
          invariant MinHeapPriorityQueue st').
Proof.
  split.
  - intros Item c key xs s0 ops loc l st Hl Hv.
    apply remove_steps; auto. apply reachable_invariant.
  - split; [vm_compute; reflexivity|]. split; [vm_compute; reflexivity|].
    destruct (remove_steps MinHeapPriorityQueue scenario_C_state 1
                (mkLocator 46 46%Z 1))
      as (st' & Hr & Hlen & Hinv & _).
    + apply reachable_invariant.
    + vm_compute. reflexivity.
    + vm_compute. reflexivity.
    + exists st'. split; [exact Hr|]. split; [|exact Hinv].
      rewrite Hlen. vm_compute. reflexivity.
Qed.

Lemma remove_semantics_witness :
  store scenario_A !! 0 = Some (mkLocator 4 4%Z 4) ∧
  _pq scenario_A !! 4 = Some 0 ∧
  ∃ st', remove MinHeapPriorityQueue 0 scenario_A = Ok 4%Z st' ∧
         length (_pq st') = length (_pq scenario_A) - 1 ∧
         invariant MinHeapPriorityQueue st'.
Proof.
  split; [reflexivity|]. split; [reflexivity|].
  destruct (proj1 remove_semantics Z MinHeapPriorityQueue identity
              [4; 0; 1; 3; 2]%Z empty_state [] 0 (mkLocator 4 4%Z 4)
              eq_refl eq_refl)
    as (st' & Hr & Hlen & Hinv & _).
  exists st'. split; [exact Hr|]. split; [exact Hlen|exact Hinv].
Defined.

(** C8 as stated: after a successful update the old payload of the
    locator is no longer a member of the queue. *)
Definition old_payload_gone {Item : Type} `{EqDecision Item} (c : cls)
    (st : state) (loc : nat) (v : Z) (x : Item) : Prop :=
  ∀ l st', store st !! loc = Some l → update c loc v x st = Ok tt st' →
           __contains__ (_item l) st' = Ok false st'.

(** C8 fails when another entry carries an equal payload: in the queue
    built from [5, 5], updating one of the two entries to priority 1 and
    payload 7 leaves 5 a member. *)
Lemma update_old_payload_still_member :
  ¬ old_payload_gone MinHeapPriorityQueue two_fives 0 1%Z 7%Z.
Proof.
  intros H.
  specialize (H (mkLocator 5 5%Z 0)
                (final (update MinHeapPriorityQueue 0 1%Z 7%Z two_fives))
                eq_refl eq_refl).
  vm_compute in H. discriminate H.
Qed.

(** C8 (amended). Update: for a valid locator [loc] in a reachable queue,
    update(loc, v, x) writes priority [v] and payload [x] into the object
    and then sifts up and down from its index; the same object stays in
    the backing list, at the index it records, the size is unchanged, the
    other entries keep their priorities and payloads, and heap order and
    position coherence hold.  The new payload is a member afterwards; the
    old payload is a member afterwards exactly when it equals the new one
    or another entry carries it; and when the new priority is strictly
    better than every other priority the next pop returns the new payload
    and leaves every other payload a member. *)
Theorem update_semantics (Item : Type) `{EqDecision Item} (c : cls)
    (key : Item → Z) (xs : list Item) (s0 : state) (ops : list call)
    (loc : nat) (l : Locator) (v : Z) (x : Item) :
  let st := run c key ops (construct c key xs s0) in
  store st !! loc = Some l → _pq st !! _index l = Some loc →
  ∃ st' rest, update c loc v x st = Ok tt st' ∧
    invariant c st' ∧
    length (_pq st') = length (_pq st) ∧
    (∃ l', store st' !! loc = Some l' ∧ _value l' = v ∧ _item l' = x ∧
           _pq st' !! _index l' = Some loc) ∧
    entries st ≡ₚ payload l :: rest ∧
    entries st' ≡ₚ (v, x) :: rest ∧
    (∃ st1 st2 st3,
       set_value loc v st = Ok tt st1 ∧ set_item loc x st1 = Ok tt st2 ∧
       _upheap c (_index l) st2 = Ok tt st3 ∧
       _downheap c (_index l) st3 = Ok tt st') ∧
    __contains__ x st' = Ok true st' ∧
    __contains__ (_item l) st' =
      Ok (bool_decide (_item l = x ∨ _item l ∈ rest.*2)) st' ∧
    ((∀ e, e ∈ rest → better c v e.1 = true) →
     ∃ st'', pop c st' = Ok x st'' ∧
             ∀ y, y ∈ rest.*2 → __contains__ y st'' = Ok true st'').
Proof.
  intros st Hl Hv.
  pose proof (reachable_invariant c key xs s0 ops) as Hinv. fold st in Hinv.
  destruct (update_steps c st loc l v x Hinv Hl Hv)
    as (st' & rest & Hu & Hinv' & Hlen & Hl' & He & He' & Hsteps).
  exists st', rest. repeat (split; [done|]).
  assert (∀ y, y ∈ item_list st' ↔ y = x ∨ y ∈ rest.*2) as Hmem.
  { intros y. apply (elem_of_item_list st' (v, x) rest y He'). }
  split; [|split].
  - rewrite contains_eq by apply Hinv'. f_equal.
    apply bool_decide_eq_true. apply Hmem. by left.
  - rewrite contains_eq by apply Hinv'. f_equal.
    apply bool_decide_ext, Hmem.
  - intros Hbest.
    destruct (pop_unique_best c st' v x rest Hinv' He' Hbest)
      as (st'' & Hp & Hinv'' & He'').
    exists st''. split; [done|]. intros y Hy.
    rewrite contains_eq by apply Hinv''. f_equal.
    apply bool_decide_eq_true. unfold item_list. by rewrite He''.
Qed.

Lemma update_semantics_witness :
  store two_fives !! 0 = Some (mkLocator 5 5%Z 0) ∧
  _pq two_fives !! 0 = Some 0 ∧
  ∃ st', update MinHeapPriorityQueue 0 1%Z 7%Z two_fives = Ok tt st' ∧
         invariant MinHeapPriorityQueue st' ∧
         __contains__ 7%Z st' = Ok true st'.
Proof.
  split; [reflexivity|]. split; [reflexivity|].
  destruct (update_semantics Z MinHeapPriorityQueue identity [5; 5]%Z
              empty_state [] 0 (mkLocator 5 5%Z 0) 1%Z 7%Z eq_refl eq_refl)
    as (st' & rest & Hu & Hinv & _ & _ & _ & _ & _ & Hc & _).
  exists st'. split; [exact Hu|]. split; [exact Hinv|exact Hc].
Defined.

(** C9, at the integers: iterating a max-oriented queue is iterating with
    the comparison of the payloads reversed. *)
Lemma min_max_duality_witness :
  strict_total Z.ltb ∧
  __iter__ MaxHeapPriorityQueue Z.ltb scenario_A =
  __iter__ MinHeapPriorityQueue (λ a b, Z.ltb b a) scenario_A.
Proof.
  split; [exact strict_total_Zltb|].
  destruct (@min_max_duality Z) as (_ & _ & _ & _ & _ & _ & _ & _ & _ & H).
  exact (H Z.ltb scenario_A strict_total_Zltb).
Defined.

(** C10, at the locator of 46 in scenario C after its removal and three
    further appends, which bring its recorded index back in range. *)
Lemma dead_locators_detected_witness :
  let st := run MinHeapPriorityQueue identity
              ((Append <$> [12; 46; 89; 101; 72; 81]%Z) ++ [Remove 1])
              (construct MinHeapPriorityQueue identity [] empty_state) in
  let st' := run MinHeapPriorityQueue identity
               [Append 1%Z; Append 2%Z; Append 3%Z] st in
  dead st 1 ∧
  (_index <$> store st' !! 1) = Some 5 ∧ 5 < length (_pq st') ∧
  remove MinHeapPriorityQueue 1 st' = Raise ValueError st'.
Proof.
  intros st st'.
  assert (dead st 1) as Hd.
  { split; [vm_compute; lia|]. vm_compute. intros H.
    repeat (apply elem_of_cons in H as [H|H]; [discriminate H|]).
    by apply elem_of_nil in H. }
  split; [exact Hd|]. split; [reflexivity|]. split; [vm_compute; lia|].
  exact (proj1 (proj2 (proj1 (dead_locators_detected MinHeapPriorityQueue identity
           [] empty_state ((Append <$> [12; 46; 89; 101; 72; 81]%Z) ++ [Remove 1]) 1)
           Hd [Append 1%Z; Append 2%Z; Append 3%Z]))).
Defined.

(** * Further properties of the methods *)

Section MoreProperties.

Context {Item : Type}.
Implicit Types (st : @state Item) (c : cls) (key : Item → Z).
Local Abbreviation M := (@M Item).

(** ** Index arithmetic *)

(** The three index functions describe a binary tree: both children of
    [j] have parent [j], every index but the root is the left or the right
    child of its parent, and the parent is nearer to the root. *)
Theorem tree_indices (j k : nat) :
  _parent (_left j) = j ∧ _parent (_right j) = j ∧ _left j ≠ _right j ∧
  (0 < k → _parent k < k ∧ (k = _left (_parent k) ∨ k = _right (_parent k))).
Proof.
  split; [apply parent_left|]. split; [apply parent_right|].
  split; [unfold _left, _right; lia|].
  intros Hk. split; [by apply parent_lt|by apply child_cases].
Qed.

Lemma tree_indices_witness :
  0 < 6 ∧ _parent 6 < 6 ∧ (6 = _left (_parent 6) ∨ 6 = _right (_parent 6)).
Proof.
  split; [lia|]. apply (tree_indices 0 6). lia.
Defined.

(** ** [_swap] *)

(** On two slots of a position-coherent queue [_swap] returns, exchanges
    the two addresses, records the new index in both objects, and leaves
    every priority and payload alone; swapping twice restores the state. *)
Theorem swap_exchanges st (i j : nat) :
  coherent st → i < length (_pq st) → j < length (_pq st) →
  ∃ st', _swap i j st = Ok tt st' ∧ coherent st' ∧
         _pq st' !! i = _pq st !! j ∧ _pq st' !! j = _pq st !! i ∧
         (∀ k, k ≠ i → k ≠ j → _pq st' !! k = _pq st !! k) ∧
         (∀ a, payload <$> store st' !! a = payload <$> store st !! a) ∧
         _swap i j st' = Ok tt st.
Proof.
  intros Hc Hi Hj.
  destruct (swap_spec st i j Hc Hi Hj) as (st' & Hs & Hr & _ & Hq).
  exists st'. split; [done|]. split; [apply Hr|].
  split; [by rewrite Hq, transp_l|]. split; [by rewrite Hq, transp_r|].
  split; [intros k ? ?; by rewrite Hq, transp_other|].
  split; [apply Hr|].
  destruct (swap_spec st' i j (rr_coherent _ _ Hr))
    as (st2 & Hs2 & Hr2 & _ & Hq2);
    [by rewrite (rearranged_length _ _ Hr)..|].
  rewrite Hs2. f_equal.
  assert (_pq st2 = _pq st) as Epq.
  { apply list_eq. intros k. by rewrite Hq2, Hq, transp_invol. }
  assert (store st2 = store st) as Est.
  { apply list_eq. intros a.
    pose proof (rr_payload _ _ Hr a) as P1. pose proof (rr_payload _ _ Hr2 a) as P2.
    destruct (decide (a ∈ _pq st)) as [Hin|Hnin].
    - apply list_elem_of_lookup_1 in Hin as (k & Hk).
      destruct (Hc _ _ Hk) as (l & Hl & Hx).
      assert (_pq st2 !! k = Some a) as Hk2 by (by rewrite Epq).
      destruct (rr_coherent _ _ Hr2 _ _ Hk2) as (l2 & Hl2 & Hx2).
      rewrite Hl, Hl2. rewrite P1, Hl, Hl2 in P2. simpl in P2.
      injection P2 as Hv Hit. destruct l, l2. simpl in *. congruence.
    - rewrite (rr_frame _ _ Hr2), (rr_frame _ _ Hr); [done..|].
      by rewrite (rr_perm _ _ Hr). }
  destruct st, st2. simpl in *. congruence.
Qed.

(** ** Sifting *)

Lemma ble_not_better c x y : ble c x y → better c y x = false.
Proof. destruct c; simpl; lia. Qed.

Lemma downheap_noop c i st :
  coherent st → heap_order c st → _downheap c i st = Ok tt st.
Proof.
  intros Hc Hh.
  assert (_downheap c i st = downheap_fuel c (S (length (_pq st))) i st) as ->
    by (by destruct c).
  destruct (decide (length (_pq st) ≤ _left i)) as [Hleaf|Hl].
  { by apply downheap_fuel_leaf. }
  assert (i < length (_pq st)) as Hi by (unfold _left in *; lia).
  destruct (coherent_val_at st i Hc Hi) as [vi Hvi].
  assert (pick_child c st i < length (_pq st)) as Hch.
  { destruct (pick_child_cases c st i) as [->|[-> ?]]; lia. }
  destruct (coherent_val_at st _ Hc Hch) as [vc Hvc].
  rewrite (downheap_fuel_step c _ i st vi vc) by (done || lia).
  rewrite ble_not_better; [done|].
  destruct (Hh i vi Hvi) as [Hl' Hr'].
  destruct (pick_child_cases c st i) as [E|[E _]]; rewrite E in Hvc; auto.
Qed.

Lemma upheap_noop c i st :
  coherent st → heap_order c st → i < length (_pq st) →
  _upheap c i st = Ok tt st.
Proof.
  intros Hc Hh Hi.
  destruct (upheap_spec c i st Hc Hi) as (st' & He & _ & _ & Hn).
  rewrite He, Hn; [done|].
  intros Hpos vi vp Hvi Hvp. apply ble_not_better.
  apply heap_order_from in Hh. eapply (Hh i); eauto. lia.
Qed.

Lemma fix_noop c i st :
  coherent st → heap_order c st → i < length (_pq st) →
  _fix c i st = Ok tt st.
Proof.
  intros Hc Hh Hi. unfold _fix, bind.
  rewrite (upheap_noop c i st Hc Hh Hi). by apply downheap_noop.
Qed.

(** On a heap-ordered, position-coherent queue neither sift moves
    anything: [_upheap], [_downheap] and [_fix] from any slot return and
    leave the state exactly as it was. *)
Theorem sifts_idempotent c st (i : nat) :
  coherent st → heap_order c st → i < length (_pq st) →
  _upheap c i st = Ok tt st ∧ _downheap c i st = Ok tt st ∧
  _fix c i st = Ok tt st.
Proof.
  intros Hc Hh Hi.
  pose proof (upheap_noop c i st Hc Hh Hi) as Hu.
  pose proof (downheap_noop c i st Hc Hh) as Hd.
  split; [done|]. split; [done|].
  unfold _fix, bind. by rewrite Hu.
Qed.

(** From any slot of any position-coherent queue both sifts return
    without raising: the recursion ends, every index they touch is in
    range.  They only reorder the backing list: same addresses, same
    priorities and payloads, indices coherent again. *)
Theorem sifts_return c st (i : nat) :
  coherent st → i < length (_pq st) →
  (∃ st', _upheap c i st = Ok tt st' ∧ rearranged st st') ∧
  (∃ st', _downheap c i st = Ok tt st' ∧ rearranged st st') ∧
  (∃ st', _fix c i st = Ok tt st' ∧ rearranged st st').
Proof.
  intros Hc Hi. split; [|split].
  - destruct (upheap_spec c i st Hc Hi) as (st' & ? & ? & _). eauto.
  - destruct (downheap_spec c i st 0 Hc ltac:(lia)) as (st' & ? & ? & _). eauto.
  - destruct (fix_spec c i st Hc Hi) as (st' & ? & ? & _). eauto.
Qed.

(** ** [_heapify] and [__init__] *)

(** [_heapify] turns any position-coherent arrangement of two or more
    entries into a heap: it returns, keeps the same locators with their
    priorities and payloads, and the result is in heap order. *)
Theorem heapify_makes_heap c st :
  coherent st → 1 < length (_pq st) →
  ∃ st', _heapify c st = Ok tt st' ∧ rearranged st st' ∧ heap_order c st'.
Proof.
  intros Hc _. destruct (heapify_spec c st Hc) as (st' & He & Hr & Hh).
  exists st'. split; [done|]. split; [done|]. by apply heap_order_from.
Qed.

(** Construction from a sequence never raises.  It creates one locator
    per item, at new addresses, decorated with [key(item)]; the queue is
    position coherent and in heap order, its length is the number of
    items, objects that existed before are untouched, and with fewer than
    two items the entries stay in the order given. *)
Theorem init_builds_heap c key (xs : list Item) (s0 : state) :
  ∃ st', __init__ c key xs s0 = Ok tt st' ∧
    coherent st' ∧ heap_order c st' ∧
    entries st' ≡ₚ (λ x, (key x, x)) <$> xs ∧
    _pq st' ≡ₚ seq (length (store s0)) (length xs) ∧
    __len__ st' = Ok (length xs) st' ∧
    (∀ b, b < length (store s0) → store st' !! b = store s0 !! b) ∧
    (length xs ≤ 1 → st' = init_state key xs s0).
Proof.
  destruct (init_spec c key xs s0) as (st' & Hi & [Hc Hh Hp He Hl Hf]).
  exists st'. repeat (split; [done|]). split; [|split; [done|]].
  - unfold __len__, len. by rewrite Hp, length_seq.
  - intros Hn. unfold __init__, bind, pq_assign, len in Hi.
    rewrite new_locators_eq in Hi. simpl in Hi. rewrite length_seq in Hi.
    destruct (Nat.ltb_spec 1 (length xs)); [lia|].
    unfold ret in Hi. by injection Hi as <-.
Qed.

(** ** Locators as handles *)

Lemma append_handle c key (x : Item) st :
  coherent st →
  ∃ st' l', append c key x st = Ok (length (store st)) st' ∧
    store st !! length (store st) = None ∧
    store st' !! length (store st) = Some l' ∧
    _value l' = key x ∧ _item l' = x ∧
    _pq st' !! _index l' = Some (length (store st)) ∧
    length (_pq st') = S (length (_pq st)) ∧
    coherent st' ∧ (heap_order c st → heap_order c st') ∧
    entries st' ≡ₚ (key x, x) :: entries st.
Proof.
  intros Hc.
  destruct (append_spec c key x st Hc) as (st' & Ha & Hg & Hh).
  pose proof (grown_entries _ _ _ _ _ Hc Hg) as He.
  destruct Hg as [c' p' _ n' (l' & Hl' & Hv' & Hx') y' f'].
  destruct (coherent_valid st' (length (store st)) c') as (l'' & Hl'' & Hq).
  { rewrite p'. by left. }
  assert (l'' = l') as -> by congruence.
  exists st', l'. split; [done|].
  split; [by apply lookup_ge_None|].
  repeat (split; [done|]).
  split; [by rewrite p'|]. done.
Qed.

(** [append] returns a locator that did not exist before, holding
    [key(item)] and the item; when [append] returns the locator is in the
    slot its index field says, the queue has one entry more, and it is
    position coherent and, if it was before, in heap order. *)
Theorem append_returns_handle c key (x : Item) st :
  coherent st →
  ∃ st' l', append c key x st = Ok (length (store st)) st' ∧
    store st !! length (store st) = None ∧
    store st' !! length (store st) = Some l' ∧
    _value l' = key x ∧ _item l' = x ∧
    _pq st' !! _index l' = Some (length (store st)) ∧
    length (_pq st') = S (length (_pq st)) ∧
    coherent st' ∧ (heap_order c st → heap_order c st') ∧
    entries st' ≡ₚ (key x, x) :: entries st.
Proof. exact (append_handle c key x st). Qed.

(** A live locator stays usable across calls that concern other entries:
    after any call, either the call removed this very locator (a remove
    of it, or a pop while it was in slot 0) and it is now outside the
    queue, or it is still in the slot its index field says, with the
    priority and payload it had, unless the call was an update of it, in
    which case it holds the new ones. *)
Theorem locators_survive c key (o : call) st (loc : nat) (l : Locator) :
  invariant c st → store st !! loc = Some l → _pq st !! _index l = Some loc →
  let st' := step c key o st in
  ((o = Remove loc ∨ (o = Pop ∧ _index l = 0)) ∧ dead st' loc) ∨
  (∃ l', store st' !! loc = Some l' ∧ _pq st' !! _index l' = Some loc ∧
         (payload l' = payload l ∨
          ∃ v x, o = Update loc v x ∧ payload l' = (v, x))).
Proof.
  intros [Hc Hh] Hl Hv st'.
  assert (loc ∈ _pq st) as Hin by (eapply list_elem_of_lookup_2, Hv).
  pose proof (lookup_lt_Some _ _ _ Hl) as Hlt.
  assert (Hkeep : ∀ s, coherent s → loc ∈ _pq s →
            payload <$> store s !! loc = payload <$> store st !! loc →
            ∃ l', store s !! loc = Some l' ∧ _pq s !! _index l' = Some loc ∧
                  payload l' = payload l).
  { intros s Hcs Hins Hp. destruct (coherent_valid s loc Hcs Hins) as (l' & Hl' & Hq).
    exists l'. split; [done|]. split; [done|].
    rewrite Hl', Hl in Hp. simpl in Hp. congruence. }
  assert (Hsame : ∃ l', store st !! loc = Some l' ∧ _pq st !! _index l' = Some loc ∧
                        (payload l' = payload l ∨
                         ∃ v x, o = Update loc v x ∧ payload l' = (v, x))).
  { exists l. auto. }
  subst st'. destruct o as [x|loc2 v x|loc2| |]; simpl.
  - right. destruct (append_spec c key x st Hc) as (s & -> & Hg & _). simpl.
    destruct (Hkeep s) as (l' & ? & ? & ?); [apply Hg|..].
    + rewrite (gr_perm _ _ _ _ _ Hg). by right.
    + apply (gr_payload _ _ _ _ _ Hg). lia.
    + exists l'. auto.
  - right. destruct (store st !! loc2) as [l2|] eqn:Hl2.
    + destruct (decide (_pq st !! _index l2 = Some loc2)) as [Hv2|Hv2].
      * destruct (update_spec c st loc2 l2 v x Hc Hl2 Hv2) as (s & -> & Hu & _).
        simpl. destruct (decide (loc = loc2)) as [<-|Hne].
        -- destruct (upd_target _ _ _ _ _ Hu) as (l' & Hl' & Hv' & Hx').
           destruct (coherent_valid s loc (upd_coherent _ _ _ _ _ Hu)) as (l'' & Hl'' & Hq).
           { by rewrite (upd_perm _ _ _ _ _ Hu). }
           assert (l'' = l') as -> by congruence.
           exists l'. split; [done|]. split; [done|]. right.
           exists v, x. split; [done|]. unfold payload. by rewrite Hv', Hx'.
        -- destruct (Hkeep s) as (l' & ? & ? & ?); [apply Hu|..].
           ++ by rewrite (upd_perm _ _ _ _ _ Hu).
           ++ by apply (upd_payload _ _ _ _ _ Hu).
           ++ exists l'. auto.
      * by rewrite (update_invalid c st loc2 l2 v x Hl2 Hv2).
    + by rewrite update_unallocated.
  - destruct (store st !! loc2) as [l2|] eqn:Hl2.
    + destruct (decide (_pq st !! _index l2 = Some loc2)) as [Hv2|Hv2].
      * destruct (remove_spec c st loc2 l2 Hc Hl2 Hv2) as (s & -> & Hs & _).
        simpl. destruct (decide (loc = loc2)) as [<-|Hne].
        -- left. split; [by left|]. split.
           ++ by rewrite (sh_store_len _ _ _ Hs).
           ++ by eapply shrunk_not_in.
        -- right. destruct (Hkeep s) as (l' & ? & ? & ?); [apply Hs|..].
           ++ rewrite (sh_perm _ _ _ Hs) in Hin.
              apply elem_of_cons in Hin as [?|?]; [done|done].
           ++ apply (sh_payload _ _ _ Hs).
           ++ exists l'. auto.
      * rewrite (remove_invalid c st loc2 l2 Hl2 Hv2). by right.
    + rewrite remove_unallocated by done. by right.
  - pose proof (lookup_lt_Some _ _ _ Hv) as Hn.
    destruct (pop_spec c st Hc ltac:(lia)) as (a & la & s & Ha & Hla & -> & Hs & _).
    simpl. destruct (decide (loc = a)) as [->|Hne].
    + left. split.
      * right. split; [done|]. by apply (coherent_inj st (_index l) 0 a).
      * split; [by rewrite (sh_store_len _ _ _ Hs)|by eapply shrunk_not_in].
    + right. destruct (Hkeep s) as (l' & ? & ? & ?); [apply Hs|..].
      * rewrite (sh_perm _ _ _ Hs) in Hin.
        apply elem_of_cons in Hin as [?|?]; [done|done].
      * apply (sh_payload _ _ _ Hs).
      * exists l'. auto.
  - rewrite peek_final. by right.
Qed.

(** Whether [loc] passes the validation of [remove] and [update]. *)
Definition is_valid st (loc : nat) : bool :=
  match store st !! loc with
  | Some l => bool_decide (_pq st !! _index l = Some loc)
  | None => false
  end.

(** Size: an append adds one entry; a remove of a valid locator and a pop
    of a non-empty queue take one away; a remove that raises, an update, a
    peek and a pop of the empty queue leave the length as it is. *)
Theorem size_consistency c key (o : call) st :
  invariant c st →
  length (_pq (step c key o st)) =
    match o with
    | Append _ => S (length (_pq st))
    | Remove loc => if is_valid st loc then length (_pq st) - 1 else length (_pq st)
    | Pop => length (_pq st) - 1
    | Update _ _ _ | Peek => length (_pq st)
    end.
Proof.
  intros [Hc Hh]. unfold is_valid. destruct o as [x|loc v x|loc| |]; simpl.
  - destruct (append_spec c key x st Hc) as (s & -> & Hg & _). simpl.
    by rewrite (gr_perm _ _ _ _ _ Hg).
  - destruct (store st !! loc) as [l|] eqn:Hl.
    + destruct (decide (_pq st !! _index l = Some loc)) as [Hv|Hv].
      * destruct (update_spec c st loc l v x Hc Hl Hv) as (s & -> & Hu & _).
        simpl. by rewrite (upd_perm _ _ _ _ _ Hu).
      * by rewrite (update_invalid c st loc l v x Hl Hv).
    + by rewrite update_unallocated.
  - destruct (store st !! loc) as [l|] eqn:Hl.
    + destruct (decide (_pq st !! _index l = Some loc)) as [Hv|Hv].
      * rewrite bool_decide_eq_true_2 by done.
        destruct (remove_spec c st loc l Hc Hl Hv) as (s & -> & Hs & _).
        simpl. rewrite (shrunk_length _ _ _ Hs). lia.
      * rewrite bool_decide_eq_false_2 by done.
        by rewrite (remove_invalid c st loc l Hl Hv).
    + by rewrite remove_unallocated.
  - destruct (decide (0 < length (_pq st))) as [Hn|Hn].
    + destruct (pop_spec c st Hc Hn) as (a & l & s & _ & _ & -> & Hs & _).
      simpl. rewrite (shrunk_length _ _ _ Hs). lia.
    + rewrite pop_empty by (destruct (_pq st); [done|simpl in Hn; lia]).
      simpl. lia.
  - by rewrite peek_final.
Qed.

(** Appending an item and removing it with the token just returned gives
    the item back and leaves the queue with the entries and the locators
    it had, position coherent and in heap order. *)
Theorem append_then_remove c key (x : Item) st :
  invariant c st →
  ∃ tok st1 st2, append c key x st = Ok tok st1 ∧
    remove c tok st1 = Ok x st2 ∧
    invariant c st2 ∧ entries st2 ≡ₚ entries st ∧ _pq st2 ≡ₚ _pq st.
Proof.
  intros [Hc Hh].
  destruct (append_handle c key x st Hc)
    as (st1 & l1 & Ha & _ & Hl1 & Hv1 & Hx1 & Hq1 & _ & Hc1 & Hh1 & He1).
  destruct (append_spec c key x st Hc) as (st1' & Ha' & Hg & _).
  assert (st1' = st1) as -> by congruence.
  destruct (remove_spec c st1 _ l1 Hc1 Hl1 Hq1) as (st2 & Hr & Hs & Hh2).
  exists (length (store st)), st1, st2. rewrite Hx1 in Hr.
  split; [done|]. split; [done|]. split; [split; [apply Hs|auto]|].
  split.
  - pose proof (shrunk_entries _ _ _ _ Hs Hl1) as He2.
    apply (Permutation_cons_inv (a:=(key x, x))).
    rewrite <- He1, He2. unfold payload. by rewrite Hv1, Hx1.
  - apply (Permutation_cons_inv (a:=length (store st))).
    by rewrite <- (sh_perm _ _ _ Hs), (gr_perm _ _ _ _ _ Hg).
Qed.

(** Updating a valid locator with the priority and payload it already
    holds changes nothing at all. *)
Theorem update_same_is_noop c st (loc : nat) (l : Locator) :
  invariant c st → store st !! loc = Some l → _pq st !! _index l = Some loc →
  update c loc (_value l) (_item l) st = Ok tt st.
Proof.
  intros [Hc Hh] Hl Hv.
  pose proof (lookup_lt_Some _ _ _ Hv) as Hj.
  unfold update, bind. rewrite (get_index_eq _ _ _ Hl), invalid_locator_eq.
  rewrite decide_True by done.
  unfold set_value, set_item, setattr. rewrite Hl. simpl.
  assert (with_value (_value l) l = l) as -> by (by destruct l).
  rewrite list_insert_id by done. rewrite Hl.
  assert (with_item (_item l) l = l) as -> by (by destruct l).
  rewrite list_insert_id by done.
  replace (mkState (store st) (_pq st)) with st by (by destruct st).
  by apply fix_noop.
Qed.

(** ** Reading the queue *)

(** [__contains__] returns [True] exactly when the item is the payload of
    an entry of the backing list, and changes nothing; [items] returns
    the payloads in slot order, as many as [__len__] says. *)
Theorem contains_iff_payload `{EqDecision Item} st (x : Item) :
  coherent st →
  ∃ b xs, __contains__ x st = Ok b st ∧ items st = Ok xs st ∧
    __len__ st = Ok (length xs) st ∧
    (∀ k, xs !! k = item_at st k) ∧
    (b = true ↔ ∃ k, item_at st k = Some x).
Proof.
  intros Hc. exists (bool_decide (x ∈ item_list st)), (item_list st).
  split; [by apply contains_eq|]. split; [by apply items_eq|].
  assert (∀ k, item_list st !! k = item_at st k) as Hk.
  { intros k. unfold item_list, item_at. rewrite list_lookup_fmap, entries_lookup by done.
    by destruct (loc_at st k). }
  split; [|split; [done|]].
  - unfold __len__, len, item_list. by rewrite length_fmap, entries_length.
  - rewrite bool_decide_eq_true, list_elem_of_lookup.
    split; intros [k Hx]; exists k; by rewrite Hk in * || rewrite <- Hk in *.
Qed.

(** After construction from a non-empty sequence [peek] returns one of
    the items, and no item has a better priority: the smallest key for the
    min class, the largest for the max class. *)
Theorem peek_after_build c key (xs : list Item) (s0 : state) :
  xs ≠ [] →
  ∃ x, peek (construct c key xs s0) = Ok x (construct c key xs s0) ∧
       x ∈ xs ∧ ∀ y, y ∈ xs → ble c (key x) (key y).
Proof.
  intros Hne.
  pose proof (construct_built c key xs s0) as [Hc Hh Hp He _ _].
  set (st := construct c key xs s0) in *.
  assert (0 < length (_pq st)) as Hn.
  { rewrite Hp, length_seq. destruct xs; [done|simpl; lia]. }
  destruct (coherent_loc_at st 0 Hc Hn) as (a & l & Ha & Hl & _).
  assert (payload l ∈ entries st) as Hin.
  { apply list_elem_of_lookup. exists 0. rewrite entries_lookup by done.
    unfold loc_at. rewrite Ha. simpl. by rewrite Hl. }
  pose proof Hin as Hin'. rewrite He in Hin'.
  apply list_elem_of_fmap in Hin' as (x & Hx & Hxin).
  injection Hx as Hv Hi.
  exists x. split; [|split; [done|]].
  - rewrite <- Hi. by apply (peek_spec st a l).
  - intros y Hy. rewrite <- Hv.
    apply (root_best c st a l (conj Hc Hh) Ha Hl (key y, y)).
    rewrite He. apply list_elem_of_fmap. eauto.
Qed.

(** The max-oriented round trip: building from [xs], appending [ys] and
    popping as many times as items went in returns those items in
    non-increasing order of priority and leaves the queue empty. *)
Theorem max_round_trip key (xs ys : list Item) (s0 : state) :
  ∃ out st', build_and_drain MaxHeapPriorityQueue key xs ys s0 = Ok out st' ∧
             out ≡ₚ xs ++ ys ∧
             Sorted (λ a b, (b ≤ a)%Z) (key <$> out) ∧
             _pq st' = [].
Proof.
  destruct (build_and_drain_spec MaxHeapPriorityQueue key xs ys s0)
    as (out & st' & He & Hp & Hs & Hnil).
  exists out, st'. split; [done|]. split; [done|]. split; [|done].
  by apply StronglySorted_Sorted.
Qed.

(** ** The doctest's [verify] and [verify_max] *)

(** assert b *)
Definition assert_that (b : bool) : M unit :=
  if b then ret tt else raise AssertionError.

(** a >= b on locators: [Locator] defines no [__ge__], so Python uses the
    reflected [b.__le__(a)]. *)
Definition Locator_ge (a b : nat) : M bool := Locator_le b a.

(** The body of the loop of [verify], with [n = len(pq._pq)]. *)
Definition verify_at (n i : nat) : M unit :=
  let left := 2 * i + 1 in
  let right := 2 * i + 2 in
  let! _ := (if left <? n then
               let! a := pq_get i in
               let! b := pq_get left in
               let! ok := Locator_le a b in
               assert_that ok
             else ret tt) in
  if right <? n then
    let! a := pq_get i in
    let! b := pq_get right in
    let! ok := Locator_le a b in
    assert_that ok
  else ret tt.

(** def verify(pq) *)
Definition verify : M unit :=
  let! n := len in
  for_each (seq 0 n) (verify_at n).

(** The body of the loop of [verify_max]. *)
Definition verify_max_at (n i : nat) : M unit :=
  let left := 2 * i + 1 in
  let right := 2 * i + 2 in
  let! _ := (if left <? n then
               let! a := pq_get i in
               let! b := pq_get left in
               let! ok := Locator_ge a b in
               assert_that ok
             else ret tt) in
  if right <? n then
    let! a := pq_get i in
    let! b := pq_get right in
    let! ok := Locator_ge a b in
    assert_that ok
  else ret tt.

(** def verify_max(pq) *)
Definition verify_max : M unit :=
  let! n := len in
  for_each (seq 0 n) (verify_max_at n).

Definition verify_of (c : cls) : M unit :=
  match c with
  | MinHeapPriorityQueue => verify
  | MaxHeapPriorityQueue => verify_max
  end.

Definition verify_of_at (c : cls) : nat → nat → M unit :=
  match c with
  | MinHeapPriorityQueue => verify_at
  | MaxHeapPriorityQueue => verify_max_at
  end.

(** Heap order at one slot. *)
Definition ordered_at (c : cls) st (i : nat) : Prop :=
  ∀ vi, val_at st i = Some vi →
    (∀ vl, val_at st (_left i) = Some vl → ble c vi vl) ∧
    (∀ vr, val_at st (_right i) = Some vr → ble c vi vr).

Lemma Locator_le_eq st a b la lb :
  store st !! a = Some la → store st !! b = Some lb →
  Locator_le a b st = Ok (_value la <=? _value lb)%Z st.
Proof.
  intros Ha Hb. unfold Locator_le, bind, get_value, bind, deref, ret.
  by rewrite Ha, Hb.
Qed.

(** The comparison one assertion makes between slots [i] and [k]. *)
Definition leb_of (c : cls) (vi vk : Z) : bool :=
  match c with
  | MinHeapPriorityQueue => (vi <=? vk)%Z
  | MaxHeapPriorityQueue => (vk <=? vi)%Z
  end.

Lemma leb_of_ble c x y : leb_of c x y = true ↔ ble c x y.
Proof. destruct c; simpl; lia. Qed.

Lemma verify_of_at_eq c st i vi :
  coherent st → val_at st i = Some vi →
  verify_of_at c (length (_pq st)) i st =
    match val_at st (_left i), val_at st (_right i) with
    | Some vl, Some vr =>
        if leb_of c vi vl && leb_of c vi vr then Ok tt st else Raise AssertionError st
    | Some vl, None =>
        if leb_of c vi vl then Ok tt st else Raise AssertionError st
    | None, _ => Ok tt st
    end.
Proof.
  intros Hc Hvi.
  pose proof Hvi as (a & la & Ha & Hla & Ev)%val_at_Some.
  destruct (Nat.ltb_spec (_left i) (length (_pq st))) as [Hl|Hl].
  - destruct (coherent_val_at st (_left i) Hc Hl) as [vl Hvl].
    pose proof Hvl as (al & ll & Hal & Hll & Evl)%val_at_Some.
    rewrite Hvl.
    destruct (Nat.ltb_spec (_right i) (length (_pq st))) as [Hr|Hr].
    + destruct (coherent_val_at st (_right i) Hc Hr) as [vr Hvr].
      pose proof Hvr as (ar & lr & Har & Hlr & Evr)%val_at_Some.
      rewrite Hvr.
      destruct c; simpl; unfold verify_at, verify_max_at, Locator_ge;
        fold (_left i) (_right i);
        destruct (Nat.ltb_spec (_left i) (length (_pq st))); try lia;
        destruct (Nat.ltb_spec (_right i) (length (_pq st))); try lia;
        unfold bind, pq_get; rewrite Ha, Hal;
        first [rewrite (Locator_le_eq st a al la ll) by done
              |rewrite (Locator_le_eq st al a ll la) by done];
        rewrite Ev, Evl; destruct (_ <=? _)%Z; simpl; try done;
        rewrite Ha, Har;
        first [rewrite (Locator_le_eq st a ar la lr) by done
              |rewrite (Locator_le_eq st ar a lr la) by done];
        rewrite Ev, Evr; by destruct (_ <=? _)%Z.
    + assert (val_at st (_right i) = None) as ->.
      { destruct (val_at st (_right i)) eqn:E; [|done].
        apply val_at_lt in E. lia. }
      destruct c; simpl; unfold verify_at, verify_max_at, Locator_ge;
        fold (_left i) (_right i);
        destruct (Nat.ltb_spec (_left i) (length (_pq st))); try lia;
        destruct (Nat.ltb_spec (_right i) (length (_pq st))); try lia;
        unfold bind, pq_get; rewrite Ha, Hal;
        first [rewrite (Locator_le_eq st a al la ll) by done
              |rewrite (Locator_le_eq st al a ll la) by done];
        rewrite Ev, Evl; by destruct (_ <=? _)%Z.
  - assert (val_at st (_left i) = None) as ->.
    { destruct (val_at st (_left i)) eqn:E; [|done].
      apply val_at_lt in E. lia. }
    destruct c; simpl; unfold verify_at, verify_max_at;
      fold (_left i) (_right i);
      destruct (Nat.ltb_spec (_left i) (length (_pq st))); try lia;
      destruct (Nat.ltb_spec (_right i) (length (_pq st)));
      try (unfold _left, _right in *; lia); done.
Qed.

Lemma verify_of_at_cases c st i :
  coherent st → i < length (_pq st) →
  (ordered_at c st i ∧ verify_of_at c (length (_pq st)) i st = Ok tt st) ∨
  (¬ ordered_at c st i ∧
   verify_of_at c (length (_pq st)) i st = Raise AssertionError st).
Proof.
  intros Hc Hi. destruct (coherent_val_at st i Hc Hi) as [vi Hvi].
  rewrite (verify_of_at_eq c st i vi Hc Hvi). unfold ordered_at.
  destruct (val_at st (_left i)) as [vl|] eqn:Hl.
  - destruct (val_at st (_right i)) as [vr|] eqn:Hr.
    + destruct (leb_of c vi vl) eqn:El; simpl.
      * destruct (leb_of c vi vr) eqn:Er.
        -- left. split; [|done]. intros v Hv. assert (v = vi) as -> by congruence.
           split; intros w [= <-]; by apply leb_of_ble.
        -- right. split; [|done]. intros H. destruct (H vi Hvi) as [_ H2].
           specialize (H2 vr eq_refl). apply leb_of_ble in H2. congruence.
      * right. split; [|done]. intros H. destruct (H vi Hvi) as [H1 _].
        specialize (H1 vl eq_refl). apply leb_of_ble in H1. congruence.
    + destruct (leb_of c vi vl) eqn:El.
      * left. split; [|done]. intros v Hv. assert (v = vi) as -> by congruence.
        split; [|done]. intros w [= <-]. by apply leb_of_ble.
      * right. split; [|done]. intros H. destruct (H vi Hvi) as [H1 _].
        specialize (H1 vl eq_refl). apply leb_of_ble in H1. congruence.
  - left. split; [|done]. intros v Hv. split; [done|].
    intros w Hw. apply val_at_lt in Hw.
    destruct (val_at st (_left i)) eqn:E; [done|].
    assert (is_Some (val_at st (_left i))) as [? ?]; [|congruence].
    apply coherent_val_at; [done|]. unfold _left, _right in *. lia.
Qed.

Lemma for_each_checks (js : list nat) (body : nat → M unit) st (P : nat → Prop) :
  (∀ j, j ∈ js → (P j ∧ body j st = Ok tt st) ∨
                 (¬ P j ∧ body j st = Raise AssertionError st)) →
  ((∀ j, j ∈ js → P j) ∧ for_each js body st = Ok tt st) ∨
  (¬ (∀ j, j ∈ js → P j) ∧ for_each js body st = Raise AssertionError st).
Proof.
  induction js as [|j js IH]; intros H.
  - left. split; [|done]. intros j Hj. by apply elem_of_nil in Hj.
  - simpl. unfold bind. destruct (H j) as [[Hp ->]|[Hp ->]]; [by left| |].
    + destruct IH as [[Hall ->]|[Hnot ->]].
      * intros k Hk. apply H. by right.
      * left. split; [|done]. intros k [->|Hk]%elem_of_cons; auto.
      * right. split; [|done]. intros Hall. apply Hnot.
        intros k Hk. apply Hall. by right.
    + right. split; [|done]. intros Hall. apply Hp, Hall. by left.
Qed.

(** [verify] (for the min class) and [verify_max] (for the max class)
    decide heap order on a position-coherent queue: they return exactly
    when every slot is in order with its children and raise
    AssertionError otherwise, and they never change the queue.  Every
    queue reached from a construction by public calls passes. *)
Theorem verify_decides_heap_order c st :
  coherent st →
  (verify_of c st = Ok tt st ↔ heap_order c st) ∧
  (verify_of c st = Ok tt st ∨ verify_of c st = Raise AssertionError st) ∧
  (∀ key xs s0 ops, st = run c key ops (construct c key xs s0) →
     verify_of c st = Ok tt st).
Proof.
  intros Hc.
  assert (verify_of c st =
          for_each (seq 0 (length (_pq st))) (verify_of_at c (length (_pq st))) st)
    as E by (by destruct c).
  assert (heap_order c st ↔ ∀ j, j ∈ seq 0 (length (_pq st)) → ordered_at c st j) as Hiff.
  { split.
    - intros Hh j _ vi Hvi. by apply Hh.
    - intros Hall i vi Hvi. apply Hall; [|done].
      apply val_at_lt in Hvi. apply elem_of_seq. lia. }
  destruct (for_each_checks (seq 0 (length (_pq st)))
              (verify_of_at c (length (_pq st))) st (ordered_at c st))
    as [[Hall Hok]|[Hnot Hbad]].
  { intros j Hj%elem_of_seq. apply verify_of_at_cases; [done|lia]. }
  - rewrite E, Hok. split; [|split; [by left|done]].
    split; [intros _; by apply Hiff|done].
  - rewrite E, Hbad. split; [|split; [by right|]].
    + split; [done|]. intros Hh. exfalso. by apply Hnot, Hiff.
    + intros key xs s0 ops ->. exfalso. apply Hnot, Hiff.
      apply reachable_invariant.
Qed.

End MoreProperties.

(** ** The further properties at concrete queues *)

Lemma swap_exchanges_witness :
  ∃ st', _swap 0 4 scenario_A = Ok tt st' ∧ _pq st' !! 0 = Some 0 ∧
         _swap 0 4 st' = Ok tt scenario_A.
Proof.
  destruct (swap_exchanges scenario_A 0 4) as (st' & Hs & _ & H0 & _ & _ & _ & Hb).
  - apply (proj1 (construct_invariant MinHeapPriorityQueue identity _ _)).
  - vm_compute. lia.
  - vm_compute. lia.
  - exists st'. split; [exact Hs|]. split; [exact H0|exact Hb].
Defined.

Lemma sifts_idempotent_witness :
  _upheap MinHeapPriorityQueue 4 scenario_A = Ok tt scenario_A ∧
  _downheap MinHeapPriorityQueue 4 scenario_A = Ok tt scenario_A ∧
  _fix MinHeapPriorityQueue 4 scenario_A = Ok tt scenario_A.
Proof.
  apply (sifts_idempotent MinHeapPriorityQueue scenario_A 4).
  - apply (proj1 (construct_invariant MinHeapPriorityQueue identity _ _)).
  - apply (proj2 (construct_invariant MinHeapPriorityQueue identity _ _)).
  - vm_compute. lia.
Defined.

Lemma sifts_return_witness :
  ∃ st', _upheap MaxHeapPriorityQueue 3 scenario_A = Ok tt st' ∧
         rearranged scenario_A st'.
Proof.
  apply (sifts_return MaxHeapPriorityQueue scenario_A 3).
  - apply (proj1 (construct_invariant MinHeapPriorityQueue identity _ _)).
  - vm_compute. lia.
Defined.

Lemma heapify_makes_heap_witness :
  ∃ st', _heapify MaxHeapPriorityQueue scenario_A = Ok tt st' ∧
         rearranged scenario_A st' ∧ heap_order MaxHeapPriorityQueue st'.
Proof.
  apply (heapify_makes_heap MaxHeapPriorityQueue scenario_A).
  - apply (proj1 (construct_invariant MinHeapPriorityQueue identity _ _)).
  - vm_compute. lia.
Defined.

Lemma scenario_A_invariant : invariant MinHeapPriorityQueue scenario_A.
Proof. apply construct_invariant. Qed.

Lemma append_returns_handle_witness :
  ∃ st' l', append MinHeapPriorityQueue identity (-1)%Z scenario_A = Ok 5 st' ∧
    store st' !! 5 = Some l' ∧ _pq st' !! _index l' = Some 5.
Proof.
  destruct (append_returns_handle MinHeapPriorityQueue identity (-1)%Z scenario_A
              (proj1 scenario_A_invariant))
    as (st' & l' & Ha & _ & Hl & _ & _ & Hq & _).
  exists st', l'. split; [exact Ha|]. split; [exact Hl|exact Hq].
Defined.

Lemma locators_survive_witness :
  ∃ l', store (step MinHeapPriorityQueue identity Pop scenario_A) !! 0 = Some l' ∧
        _pq (step MinHeapPriorityQueue identity Pop scenario_A) !! _index l' = Some 0.
Proof.
  destruct (locators_survive MinHeapPriorityQueue identity Pop scenario_A 0
              (mkLocator 4 4%Z 4) scenario_A_invariant eq_refl eq_refl)
    as [[[H|[_ H]] _]|(l' & Hl & Hq & _)].
  - discriminate H.
  - discriminate H.
  - exists l'. split; [exact Hl|exact Hq].
Defined.

Lemma size_consistency_witness :
  length (_pq (step MinHeapPriorityQueue identity (Remove 0) scenario_A)) = 4.
Proof.
  rewrite (size_consistency MinHeapPriorityQueue identity (Remove 0) scenario_A
             scenario_A_invariant).
  reflexivity.
Defined.

Lemma append_then_remove_witness :
  ∃ tok st1 st2, append MinHeapPriorityQueue identity 7%Z scenario_A = Ok tok st1 ∧
    remove MinHeapPriorityQueue tok st1 = Ok 7%Z st2 ∧
    entries st2 ≡ₚ entries scenario_A.
Proof.
  destruct (append_then_remove MinHeapPriorityQueue identity 7%Z scenario_A
              scenario_A_invariant)
    as (tok & st1 & st2 & Ha & Hr & _ & He & _).
  exists tok, st1, st2. split; [exact Ha|]. split; [exact Hr|exact He].
Defined.

Lemma update_same_is_noop_witness :
  update MinHeapPriorityQueue 0 4%Z 4%Z scenario_A = Ok tt scenario_A.
Proof.
  exact (update_same_is_noop MinHeapPriorityQueue scenario_A 0 (mkLocator 4 4%Z 4)
           scenario_A_invariant eq_refl eq_refl).
Defined.

Lemma contains_iff_payload_witness :
  ∃ b xs, __contains__ 3%Z scenario_A = Ok b scenario_A ∧
          items scenario_A = Ok xs scenario_A ∧
          (b = true ↔ ∃ k, item_at scenario_A k = Some 3%Z).
Proof.
  destruct (contains_iff_payload scenario_A 3%Z (proj1 scenario_A_invariant))
    as (b & xs & Hc & Hi & _ & _ & Hb).
  exists b, xs. split; [exact Hc|]. split; [exact Hi|exact Hb].
Defined.

Lemma peek_after_build_witness :
  ∃ x, peek (construct MaxHeapPriorityQueue len_key ["yy"; "ttttttt"; "z"]%string
               empty_state)
       = Ok x (construct MaxHeapPriorityQueue len_key ["yy"; "ttttttt"; "z"]%string
                 empty_state) ∧
       x ∈ ["yy"; "ttttttt"; "z"]%string.
Proof.
  destruct (peek_after_build MaxHeapPriorityQueue len_key
              ["yy"; "ttttttt"; "z"]%string empty_state)
    as (x & Hp & Hin & _); [discriminate|].
  exists x. split; [exact Hp|exact Hin].
Defined.

Lemma verify_decides_heap_order_witness :
  verify scenario_A = Ok tt scenario_A ∧
  verify_max scenario_A = Raise AssertionError scenario_A.
Proof.
  split.
  - apply (proj1 (verify_decides_heap_order MinHeapPriorityQueue scenario_A
                    (proj1 scenario_A_invariant))).
    apply (proj2 scenario_A_invariant).
  - destruct (proj1 (proj2 (verify_decides_heap_order MaxHeapPriorityQueue scenario_A
                              (proj1 scenario_A_invariant)))) as [H|H].
    + exfalso. vm_compute in H. discriminate H.
    + exact H.
Defined.

(** * Callers that keep a dictionary of locators

    The docstring and the example program keep, beside the queue, a dict
    [locs] from a key to the locator that [append] returned for it, and
    call [remove(locs[k])] later. *)

Section Tracked.

Context {Item K : Type} `{Countable K}.
Context (item_of : K → Item) (prio_of : K → Z).
Context (item_of_inj : ∀ k k', item_of k = item_of k' → k = k').

Implicit Types (h : @state Item) (locs : gmap K nat) (A : list K).

Definition entry_of (k : K) : Z * Item := (prio_of k, item_of k).

(** The dict [locs] tracks the keys [A]: the queue is coherent and in
    heap order, its entries are those of the keys in [A], each once, and
    the entries [extra] nobody holds a locator for; [locs] maps every key
    of [A] to a locator that is in the queue and holds that key's entry. *)
Definition tracked (c : cls) h locs A (extra : list (Z * Item)) : Prop :=
  invariant c h ∧ NoDup A ∧
  entries h ≡ₚ extra ++ (entry_of <$> A) ∧
  ∀ k, k ∈ A → ∃ a l, locs !! k = Some a ∧ a ∈ _pq h ∧
                       store h !! a = Some l ∧ payload l = entry_of k.

Lemma tracked_append c key h locs A extra k :
  (∀ k, key (item_of k) = prio_of k) →
  tracked c h locs A extra → k ∉ A →
  ∃ h', append c key (item_of k) h = Ok (length (store h)) h' ∧
        tracked c h' (<[k:=length (store h)]> locs) (k :: A) extra.
Proof.
  intros Hkey ([Hc Hh] & Hnd & He & Hl) Hk.
  destruct (append_spec c key (item_of k) h Hc) as (h' & Ha & Hg & Hh').
  exists h'. split; [done|].
  pose proof (grown_entries _ _ _ _ _ Hc Hg) as He'.
  split; [split; [apply Hg|auto]|]. split; [by constructor|]. split.
  - rewrite He', He, fmap_cons. unfold entry_of at 2. rewrite Hkey.
    by rewrite <- Permutation_middle.
  - intros k' [->|Hk']%elem_of_cons.
    + destruct (gr_target _ _ _ _ _ Hg) as (l' & Hl' & Hv' & Hx').
      exists (length (store h)), l'. rewrite lookup_insert_eq.
      split; [done|]. split; [rewrite (gr_perm _ _ _ _ _ Hg); by left|].
      split; [done|]. unfold payload, entry_of. by rewrite Hv', Hx', Hkey.
    + destruct (Hl k' Hk') as (a & l & Hla & Hin & Hs & Hp).
      assert (a ≠ length (store h)) as Hne.
      { apply lookup_lt_Some in Hs. lia. }
      destruct (payload_lookup _ _ a l (gr_payload _ _ _ _ _ Hg a Hne) Hs)
        as (l' & Hl' & Hv' & Hx').
      exists a, l'. rewrite lookup_insert_ne by (intros ->; done).
      split; [done|]. split; [rewrite (gr_perm _ _ _ _ _ Hg); by right|].
      split; [done|]. rewrite <- Hp. unfold payload. by rewrite Hv', Hx'.
Qed.

Lemma tracked_remove c h locs locs' A A' extra k a :
  tracked c h locs A extra → A ≡ₚ k :: A' → locs !! k = Some a →
  (∀ k', k' ∈ A' → locs' !! k' = locs !! k') →
  ∃ h', remove c a h = Ok (item_of k) h' ∧ tracked c h' locs' A' extra.
Proof.
  intros ([Hc Hh] & Hnd & He & Hl) HA Hka Hlocs.
  assert (k ∈ A) as Hk by (rewrite HA; by left).
  destruct (Hl k Hk) as (a0 & l & Hla & Hin & Hs & Hp).
  assert (a0 = a) as -> by congruence.
  destruct (coherent_valid h a Hc Hin) as (l0 & Hs0 & Hv).
  assert (l0 = l) as -> by congruence.
  destruct (remove_spec c h a l Hc Hs Hv) as (h' & Hr & Hsh & Hh').
  assert (_item l = item_of k) as Hit.
  { unfold payload, entry_of in Hp. congruence. }
  exists h'. rewrite <- Hit. split; [done|].
  rewrite HA in Hnd. apply NoDup_cons in Hnd as [Hk' Hnd'].
  split; [split; [apply Hsh|auto]|]. split; [done|]. split.
  - apply (Permutation_cons_inv (a:=entry_of k)).
    rewrite <- Hp, <- (shrunk_entries _ _ _ _ Hsh Hs), He, HA, fmap_cons.
    by rewrite <- Permutation_middle, Hp.
  - intros k2 Hk2.
    destruct (Hl k2) as (a2 & l2 & Hla2 & Hin2 & Hs2 & Hp2); [rewrite HA; by right|].
    destruct (payload_lookup _ _ a2 l2 (sh_payload _ _ _ Hsh a2) Hs2)
      as (l2' & Hl2' & Hv2' & Hx2').
    exists a2, l2'. rewrite Hlocs by done. split; [done|]. split.
    + rewrite (sh_perm _ _ _ Hsh) in Hin2.
      apply elem_of_cons in Hin2 as [->|?]; [|done]. exfalso.
      assert (l2 = l) as -> by congruence.
      apply Hk'. replace k with k2; [done|].
      apply item_of_inj. unfold payload, entry_of in *. congruence.
    + split; [done|]. rewrite <- Hp2. unfold payload. by rewrite Hv2', Hx2'.
Qed.

(** [peek] on a tracked queue returns the payload of an entry that no
    entry beats. *)
Lemma tracked_peek c h locs A extra :
  tracked c h locs A extra → extra ++ (entry_of <$> A) ≠ [] →
  ∃ v x, peek h = Ok x h ∧ (v, x) ∈ extra ++ (entry_of <$> A) ∧
         ∀ e, e ∈ extra ++ (entry_of <$> A) → ble c v e.1.
Proof.
  intros ([Hc Hh] & _ & He & _) Hne.
  assert (0 < length (_pq h)) as Hn.
  { rewrite <- entries_length, He by done.
    destruct (extra ++ (entry_of <$> A)); [done|simpl; lia]. }
  destruct (coherent_loc_at h 0 Hc Hn) as (a & l & Ha & Hl & _).
  exists (_value l), (_item l). split; [by apply (peek_spec h a l)|].
  split.
  - rewrite <- He. apply list_elem_of_lookup. exists 0.
    rewrite entries_lookup by done. unfold loc_at. rewrite Ha. simpl. by rewrite Hl.
  - intros e Hein. apply (root_best c h a l (conj Hc Hh) Ha Hl). by rewrite He.
Qed.

End Tracked.

(** * The example program: skyline (example.py) *)

(** Building = namedtuple("Building", ["left", "height", "right"]) *)
Record Building := mkBuilding { left : Z; height : Z; right : Z }.

#[global] Instance Building_eq_dec : EqDecision Building.
Proof. solve_decision. Defined.

#[global] Instance Building_countable : Countable Building.
Proof.
  apply (inj_countable' (λ b, (left b, height b, right b))
                        (λ t, mkBuilding t.1.1 t.1.2 t.2)).
  by intros [].
Defined.

(** xs = defaultdict(list): x value -> the buildings that start or end
    there, in the order they were added. *)
Abbreviation events := (gmap Z (list Building)).

(** xs[x].append(b) *)
Definition add_event (x : Z) (b : Building) (xs : events) : events :=
  <[x := default [] (xs !! x) ++ [b]]> xs.

(** for b in bs: xs[b.left].append(b); xs[b.right].append(b) *)
Definition build_events (bs : list Building) : events :=
  foldl (λ xs b, add_event (right b) b (add_event (left b) b xs)) ∅ bs.

(** sorted(xs): the keys of the dict, ascending. *)
Definition sorted_keys (xs : events) : list Z :=
  sorted Z.ltb ((map_to_list xs).*1).

(** max(b.right for b in bs), which raises ValueError on no building. *)
Definition max_right (bs : list Building) : exn + Z :=
  match bs with
  | [] => inl ValueError
  | b :: bs' => inr (foldl Z.max (right b) (right <$> bs'))
  end.

(** The variables of [skyline] that change in its loops. *)
Record sky := mkSky {
  sky_pq : @state Building;
  sky_locs : gmap Building nat;
  sky_res : list (Z * Z)
}.

(** The body of the inner loop, for one building [b] listed at [x]. *)
Definition on_building (x : Z) (b : Building) (s : sky) : exn + sky :=
  if bool_decide (x = left b) then
    match append MaxHeapPriorityQueue height b (sky_pq s) with
    | Ok tok h => inr (mkSky h (<[b:=tok]> (sky_locs s)) (sky_res s))
    | Raise e _ => inl e
    end
  else if bool_decide (x = right b) then
    match sky_locs s !! b with
    | None => inl KeyError
    | Some loc =>
        match remove MaxHeapPriorityQueue loc (sky_pq s) with
        | Ok _ h => inr (mkSky h (delete b (sky_locs s)) (sky_res s))
        | Raise e _ => inl e
        end
    end
  else inr s.

(** for b in xs[x]: ... *)
Fixpoint for_buildings (x : Z) (bsx : list Building) (s : sky) : exn + sky :=
  match bsx with
  | [] => inr s
  | b :: bsx =>
      match on_building x b s with
      | inl e => inl e
      | inr s' => for_buildings x bsx s'
      end
  end.

(** The body of the outer loop, for one significant x value. *)
Definition at_x (xs : events) (x : Z) (s : sky) : exn + sky :=
  match for_buildings x (default [] (xs !! x)) s with
  | inl e => inl e
  | inr s1 =>
      match peek (sky_pq s1) with
      | Raise e _ => inl e
      | Ok top h =>
          let ans := (x, height top) in
          match last (sky_res s1) with
          | None => inl IndexError
          | Some prev =>
              if bool_decide (prev.2 ≠ ans.2)
              then inr (mkSky h (sky_locs s1) (sky_res s1 ++ [ans]))
              else inr (mkSky h (sky_locs s1) (sky_res s1))
          end
      end
  end.

(** for x in sorted(xs): ... *)
Fixpoint for_xs (xs : events) (keys : list Z) (s : sky) : exn + sky :=
  match keys with
  | [] => inr s
  | x :: keys =>
      match at_x xs x s with
      | inl e => inl e
      | inr s' => for_xs xs keys s'
      end
  end.

(** def skyline(buildings), from the set [bs] of the buildings, listed
    in the order in which the set is iterated. *)
Definition skyline (bs : list Building) : exn + list (Z * Z) :=
  let xs := build_events bs in
  match __init__ MaxHeapPriorityQueue height [] empty_state with
  | Raise e _ => inl e
  | Ok _ h0 =>
      match max_right bs with
      | inl e => inl e
      | inr r =>
          let floor := mkBuilding 0 0 r in
          match append MaxHeapPriorityQueue height floor h0 with
          | Raise e _ => inl e
          | Ok tok h1 =>
              match for_xs xs (sorted_keys xs)
                      (mkSky h1 {[floor := tok]} [(0, 0)%Z]) with
              | inl e => inl e
              | inr s => inr (tail (sky_res s))
              end
          end
      end
  end.

(** The buildings of the check at the end of example.py and the skyline
    it expects. *)
Definition example_input : list Building :=
  [mkBuilding 1 11 5; mkBuilding 2 6 7; mkBuilding 3 13 9; mkBuilding 12 7 16;
   mkBuilding 14 3 25; mkBuilding 19 18 22; mkBuilding 23 13 29;
   mkBuilding 24 4 28]%Z.

Definition example_output : list (Z * Z) :=
  [(1, 11); (3, 13); (9, 0); (12, 7); (16, 3); (19, 18); (22, 3); (23, 13);
   (29, 0)]%Z.

Example skyline_example : skyline example_input = inr example_output.
Proof. vm_compute. reflexivity. Qed.

(** ** What the skyline is *)

(** The buildings over the point [x]. *)
Definition covering (bs : list Building) (x : Z) : list Building :=
  filter (λ b, (left b ≤ x)%Z ∧ (x < right b)%Z) bs.

(** The height of the skyline at [x]: the largest of 0, the height of
    the floor entry, and the heights of the buildings over [x]. *)
Definition height_at (bs : list Building) (x : Z) : Z :=
  foldr Z.max 0%Z (height <$> covering bs x).

Lemma height_at_spec (bs : list Building) (x : Z) :
  (0 ≤ height_at bs x)%Z ∧
  (∀ b, b ∈ bs → (left b ≤ x)%Z → (x < right b)%Z →
        (height b ≤ height_at bs x)%Z) ∧
  (height_at bs x = 0%Z ∨
   ∃ b, b ∈ bs ∧ (left b ≤ x)%Z ∧ (x < right b)%Z ∧
        height_at bs x = height b).
Proof.
  unfold height_at, covering.
  induction bs as [|a bs (IH0 & IHle & IHex)]; simpl.
  { split; [done|]. split; [|by left]. intros b Hb. by apply elem_of_nil in Hb. }
  destruct (decide ((left a ≤ x)%Z ∧ (x < right a)%Z)) as [[Hl Hr]|Hn].
  - rewrite filter_cons_True by done. rewrite fmap_cons. simpl.
    split; [lia|]. split.
    + intros b [->|Hb]%elem_of_cons Hbl Hbr; [lia|].
      specialize (IHle b Hb Hbl Hbr). lia.
    + destruct (Z.max_spec (height a)
                  (foldr Z.max 0%Z (height <$> filter (λ b, (left b ≤ x)%Z ∧ (x < right b)%Z) bs)))
        as [[_ ->]|[_ ->]].
      * destruct IHex as [E|(b & Hb & ? & ? & E)]; [by left|].
        right. exists b. split; [by right|done].
      * right. exists a. split; [by left|done].
  - rewrite filter_cons_False by done.
    split; [done|]. split.
    + intros b [->|Hb]%elem_of_cons Hbl Hbr; [by destruct Hn|].
      by apply IHle.
    + destruct IHex as [E|(b & Hb & ? & ? & E)]; [by left|].
      right. exists b. split; [by right|done].
Qed.

(** The points of a list at which the height differs from the height
    recorded last, starting from [prev]. *)
Fixpoint changes (prev : Z) (l : list (Z * Z)) : list (Z * Z) :=
  match l with
  | [] => []
  | p :: l' =>
      if bool_decide (prev ≠ p.2) then p :: changes p.2 l' else changes prev l'
  end.

(** The buildings listed at [x] by [build_events]. *)
Definition listed_at (x : Z) (bs : list Building) : list Building :=
  filter (λ b, left b = x ∨ right b = x) bs.

Lemma add_event_lookup x y b (xs : events) :
  default [] (add_event x b xs !! y) =
  if decide (x = y) then default [] (xs !! y) ++ [b] else default [] (xs !! y).
Proof.
  unfold add_event. destruct (decide (x = y)) as [->|Hne].
  - by rewrite lookup_insert_eq.
  - by rewrite lookup_insert_ne.
Qed.

Lemma add_event_is_Some x y b (xs : events) :
  is_Some (add_event x b xs !! y) ↔ x = y ∨ is_Some (xs !! y).
Proof.
  unfold add_event. destruct (decide (x = y)) as [->|Hne].
  - rewrite lookup_insert_eq. split; [by left|eauto].
  - rewrite lookup_insert_ne by done. split; [by right|by intros [?|?]].
Qed.

Lemma build_events_acc (bs : list Building) :
  (∀ b, b ∈ bs → left b ≠ right b) →
  ∀ (acc : events) x,
    default [] (foldl (λ xs b, add_event (right b) b (add_event (left b) b xs)) acc bs !! x)
    = default [] (acc !! x) ++ listed_at x bs ∧
    (is_Some (foldl (λ xs b, add_event (right b) b (add_event (left b) b xs)) acc bs !! x)
     ↔ is_Some (acc !! x) ∨ ∃ b, b ∈ bs ∧ (x = left b ∨ x = right b)).
Proof.
  induction bs as [|b bs IH]; intros Hwf acc x.
  - simpl. unfold listed_at. rewrite filter_nil, app_nil_r. split; [done|].
    split; [by left|]. intros [?|(b & Hb & _)]; [done|]. by apply elem_of_nil in Hb.
  - assert (left b ≠ right b) as Hb by (apply Hwf; by left).
    destruct (IH (λ b' Hb', Hwf b' (list_elem_of_further _ _ _ Hb'))
                 (add_event (right b) b (add_event (left b) b acc)) x) as [IH1 IH2].
    simpl. split.
    + rewrite IH1, !add_event_lookup. unfold listed_at. rewrite filter_cons.
      destruct (decide (right b = x)) as [Er|Er], (decide (left b = x)) as [El|El];
        try congruence.
      * rewrite decide_True by (by right). by rewrite <- app_assoc.
      * rewrite decide_True by (by left). by rewrite <- app_assoc.
      * rewrite decide_False by (intros [?|?]; done). done.
    + rewrite IH2, !add_event_is_Some. split.
      * intros [[?|[?|?]]|(b' & Hb' & Hx)].
        -- right. exists b. split; [by left|by right].
        -- right. exists b. split; [by left|by left].
        -- by left.
        -- right. exists b'. split; [by right|done].
      * intros [?|(b' & [->|Hb']%elem_of_cons & Hx)].
        -- left. by right; right.
        -- left. destruct Hx as [->| ->]; [by right; left|by left].
        -- right. eauto.
Qed.

Lemma build_events_lookup (bs : list Building) x :
  (∀ b, b ∈ bs → left b ≠ right b) →
  default [] (build_events bs !! x) = listed_at x bs ∧
  (is_Some (build_events bs !! x) ↔ ∃ b, b ∈ bs ∧ (x = left b ∨ x = right b)).
Proof.
  intros Hwf. destruct (build_events_acc bs Hwf ∅ x) as [H1 H2].
  unfold build_events. split.
  - by rewrite H1, lookup_empty.
  - rewrite H2, lookup_empty. split; [intros [[? ?]|?]; done|by right].
Qed.

Lemma Sorted_mono {A} (R1 R2 : relation A) (l : list A) :
  (∀ x y, R1 x y → R2 x y) → Sorted R1 l → Sorted R2 l.
Proof.
  intros H Hs. rewrite <- (list_fmap_id l). by apply (Sorted_fmap id R1 R2).
Qed.

Lemma StronglySorted_mono {A} (R1 R2 : relation A) (l : list A) :
  (∀ x y, R1 x y → R2 x y) → StronglySorted R1 l → StronglySorted R2 l.
Proof.
  intros H Hs. rewrite <- (list_fmap_id l). by apply (StronglySorted_fmap id R1 R2).
Qed.

Lemma sorted_keys_eq (xs : events) (kp : list Z) :
  StronglySorted Z.lt kp →
  (∀ x, x ∈ kp ↔ is_Some (xs !! x)) →
  sorted_keys xs = kp.
Proof.
  intros Hs Hel. unfold sorted_keys.
  assert (NoDup kp) as Hnd.
  { clear Hel. induction Hs as [|x l _ IH Hx]; constructor; [|done].
    intros Hin. rewrite Forall_forall in Hx. specialize (Hx x Hin). lia. }
  apply (Sorted_unique_strong Z.le).
  - intros x y _ _. lia.
  - apply (Sorted_mono (λ a b, (b <? a)%Z = false)); [intros a b; lia|].
    apply sorted_Sorted. exact asymmetric_Zltb.
  - apply StronglySorted_Sorted.
    apply (StronglySorted_mono Z.lt); [intros a b; lia|exact Hs].
  - rewrite sorted_perm. apply NoDup_Permutation.
    + apply NoDup_fst_map_to_list.
    + done.
    + intros x. rewrite Hel, list_elem_of_fmap. split.
      * intros ([k v] & -> & Hin%elem_of_map_to_list). simpl. eauto.
      * intros [v Hv]. exists (x, v). split; [done|]. by apply elem_of_map_to_list.
Qed.

(** ** The loops of [skyline] *)

(** The locators [skyline] holds in [locs] track the buildings [A]; the
    floor entry is in the queue too. *)
Definition sky_tracked (s : sky) (A : list Building) (fl : Building) : Prop :=
  tracked (λ b : Building, b) height MaxHeapPriorityQueue
    (sky_pq s) (sky_locs s) A [(0%Z, fl)].

Lemma NoDup_remove_perm {A} `{EqDecision A} (l : list A) (x : A) :
  NoDup l → x ∈ l → l ≡ₚ x :: filter (λ y, y ≠ x) l.
Proof.
  intros Hnd Hx. apply NoDup_Permutation.
  - done.
  - constructor; [|by apply NoDup_filter].
    rewrite list_elem_of_filter. intros [? _]. done.
  - intros y. rewrite elem_of_cons, list_elem_of_filter.
    destruct (decide (y = x)) as [->|]; intuition congruence.
Qed.

Lemma for_buildings_spec (x : Z) (fl : Building) : ∀ E s A,
  NoDup E →
  (∀ b, b ∈ E → (left b = x ∧ b ∉ A) ∨ (left b ≠ x ∧ right b = x ∧ b ∈ A)) →
  sky_tracked s A fl →
  ∃ s' A', for_buildings x E s = inr s' ∧ sky_tracked s' A' fl ∧
           sky_res s' = sky_res s ∧
           ∀ b, b ∈ A' ↔ (b ∈ A ∧ b ∉ E) ∨ (b ∈ E ∧ left b = x).
Proof.
  induction E as [|b E IH]; intros s A Hnd HE Htr.
  - exists s, A. split; [done|]. split; [done|]. split; [done|].
    intros b. rewrite !elem_of_nil. tauto.
  - apply NoDup_cons in Hnd as [HbE Hnd].
    destruct (HE b) as [[Hl HbA]|(Hl & Hr & HbA)]; [by left|..].
    + destruct (tracked_append (λ b : Building, b) height MaxHeapPriorityQueue
                  height (sky_pq s) (sky_locs s) A [(0%Z, fl)] b
                  (λ _, eq_refl) Htr HbA) as (h' & Ha & Htr').
      destruct (IH (mkSky h' (<[b:=length (store (sky_pq s))]> (sky_locs s)) (sky_res s))
                  (b :: A) Hnd) as (s' & A' & Hf & Htr2 & Hres & HA').
      * intros b2 Hb2. destruct (HE b2) as [[? ?]|(? & ? & ?)]; [by right|..].
        -- left. split; [done|]. rewrite elem_of_cons. intros [->|?]; done.
        -- right. split; [done|]. split; [done|]. by right.
      * done.
      * exists s', A'. simpl. unfold on_building.
        rewrite bool_decide_eq_true_2 by done. rewrite Ha.
        split; [done|]. split; [done|]. split; [done|].
        intros b'. rewrite HA', !elem_of_cons.
        destruct (decide (b' = b)) as [->|]; intuition congruence.
    + destruct Htr as (Hinv & HndA & He & Hlocs).
      destruct (Hlocs b HbA) as (a & l & Hla & _).
      destruct (tracked_remove (λ b : Building, b) height (λ _ _ E, E)
                  MaxHeapPriorityQueue (sky_pq s) (sky_locs s)
                  (delete b (sky_locs s)) A (filter (λ y, y ≠ b) A) [(0%Z, fl)] b a)
        as (h' & Hrm & Htr').
      * done.
      * by apply NoDup_remove_perm.
      * done.
      * intros k' [Hne _]%list_elem_of_filter. by rewrite lookup_delete_ne.
      * destruct (IH (mkSky h' (delete b (sky_locs s)) (sky_res s))
                    (filter (λ y, y ≠ b) A) Hnd) as (s' & A' & Hf & Htr2 & Hres & HA').
        -- intros b2 Hb2. rewrite list_elem_of_filter.
           destruct (HE b2) as [[? ?]|(? & ? & ?)]; [by right|..].
           ++ left. split; [done|]. tauto.
           ++ right. split; [done|]. split; [done|]. split; [|done].
              intros ->. done.
        -- done.
        -- exists s', A'. simpl. unfold on_building.
           rewrite bool_decide_eq_false_2 by done.
           rewrite bool_decide_eq_true_2 by done. rewrite Hla, Hrm.
           split; [done|]. split; [done|]. split; [done|].
           intros b'. rewrite HA', list_elem_of_filter, !elem_of_cons.
           destruct (decide (b' = b)) as [->|]; intuition congruence.
Qed.

(** The height recorded last, starting from [prev]. *)
Definition last_height (prev : Z) (rec : list (Z * Z)) : Z :=
  match last rec with
  | Some q => q.2
  | None => prev
  end.

Lemma changes_snoc (l : list (Z * Z)) : ∀ prev p,
  changes prev (l ++ [p]) =
  changes prev l ++
  (if bool_decide (last_height prev (changes prev l) ≠ p.2) then [p] else []).
Proof.
  induction l as [|q l IH]; intros prev p.
  - simpl. unfold last_height. simpl. by destruct (bool_decide (prev ≠ p.2)).
  - simpl. destruct (bool_decide (prev ≠ q.2)).
    + rewrite IH. simpl. f_equal.
      unfold last_height. rewrite last_cons.
      by destruct (last (changes q.2 l)).
    + apply IH.
Qed.

Lemma last_height_cons (prev : Z) (x : Z) (rec : list (Z * Z)) :
  ∃ q, last ((x, prev) :: rec) = Some q ∧ q.2 = last_height prev rec.
Proof.
  unfold last_height. rewrite last_cons.
  destruct (last rec) as [q|]; eauto.
Qed.

Lemma max_unique (v : Z) (l : list Z) :
  v ∈ 0%Z :: l → (∀ e, e ∈ 0%Z :: l → (e ≤ v)%Z) → foldr Z.max 0%Z l = v.
Proof.
  revert v. induction l as [|z l IH]; intros v Hin Hub.
  - apply elem_of_cons in Hin as [->|Hin]; [done|]. by apply elem_of_nil in Hin.
  - simpl.
    assert (∀ e, e ∈ 0%Z :: l → (e ≤ foldr Z.max 0 l)%Z) as Hfold.
    { clear. induction l as [|y l IH]; intros e He.
      - apply elem_of_cons in He as [->|He]; [done|]. by apply elem_of_nil in He.
      - simpl. apply elem_of_cons in He as [->|[->|He]%elem_of_cons].
        + specialize (IH 0%Z ltac:(by left)). lia.
        + lia.
        + specialize (IH e ltac:(by right)). lia. }
    assert (foldr Z.max 0%Z l ∈ 0%Z :: l) as Hmem.
    { clear. induction l as [|y l IH]; [by left|]. simpl.
      destruct (Z.max_spec y (foldr Z.max 0%Z l)) as [[_ ->]|[_ ->]].
      - apply elem_of_cons in IH as [->|?]; [by left|by right; right].
      - by right; left. }
    assert (z ≤ v)%Z as Hz by (apply Hub; by right; left).
    assert (foldr Z.max 0 l ≤ v)%Z as Hf.
    { apply Hub. apply elem_of_cons in Hmem as [->|?]; [by left|by right; right]. }
    apply elem_of_cons in Hin as [->|[->|Hin]%elem_of_cons].
    + specialize (Hfold 0%Z ltac:(by left)). lia.
    + lia.
    + specialize (Hfold v ltac:(by right)). lia.
Qed.

Section SkylineLoop.

Context (bs : list Building) (fl : Building).
Context (bs_NoDup : NoDup bs).
Context (bs_wf : ∀ b, b ∈ bs → (left b < right b)%Z).
Context (fl_height : height fl = 0%Z).

Definition point (x : Z) : Z * Z := (x, height_at bs x).

Lemma at_x_spec (done L : list Z) (x : Z) (s : sky) (A : list Building) :
  StronglySorted Z.lt (done ++ x :: L) →
  (∀ y, y ∈ done ++ x :: L ↔ ∃ b, b ∈ bs ∧ (y = left b ∨ y = right b)) →
  sky_tracked s A fl →
  (∀ b, b ∈ A ↔ b ∈ bs ∧ left b ∈ done ∧ right b ∈ x :: L) →
  sky_res s = (0, 0)%Z :: changes 0 (point <$> done) →
  ∃ s' A', at_x (build_events bs) x s = inr s' ∧
    sky_tracked s' A' fl ∧
    (∀ b, b ∈ A' ↔ b ∈ bs ∧ left b ∈ done ++ [x] ∧ right b ∈ L) ∧
    sky_res s' = (0, 0)%Z :: changes 0 (point <$> (done ++ [x])).
Proof.
  intros Hsort Hkeys Htr HA Hres.
  assert (Hwf' : ∀ b, b ∈ bs → left b ≠ right b).
  { intros b Hb. specialize (bs_wf b Hb). lia. }
  apply StronglySorted_app in Hsort as (Hdl & Hsd & HsL).
  apply StronglySorted_inv in HsL as [HsL HxL]. rewrite Forall_forall in HxL.
  assert (Hdx : ∀ d, d ∈ done → (d < x)%Z).
  { intros d Hd. apply (Hdl d x Hd). by left. }
  assert (Hdone : ∀ y, y ∈ done ++ x :: L → (y < x)%Z → y ∈ done).
  { intros y [?|[->|Hy]%elem_of_cons]%elem_of_app Hlt; [done|lia|].
    specialize (HxL y Hy). lia. }
  assert (Hlater : ∀ y, y ∈ done ++ x :: L → (x < y)%Z → y ∈ L).
  { intros y [Hy|[->|Hy]%elem_of_cons]%elem_of_app Hlt; [|lia|done].
    specialize (Hdx y Hy). lia. }
  assert (Hkl : ∀ b, b ∈ bs → left b ∈ done ++ x :: L).
  { intros b Hb. apply Hkeys. eauto. }
  assert (Hkr : ∀ b, b ∈ bs → right b ∈ done ++ x :: L).
  { intros b Hb. apply Hkeys. eauto. }
  destruct (build_events_lookup bs x Hwf') as [Hev _].
  destruct (for_buildings_spec x fl (listed_at x bs) s A) as (s1 & A1 & Hf & Htr1 & Hres1 & HA1).
  { by apply NoDup_filter. }
  { intros b [Hx Hb]%list_elem_of_filter.
    destruct (decide (left b = x)) as [El|El].
    - left. split; [done|]. rewrite HA. intros (_ & Hd & _).
      specialize (Hdx _ Hd). lia.
    - right. destruct Hx as [?|Er]; [done|]. split; [done|]. split; [done|].
      apply HA. split; [done|]. split; [|rewrite Er; by left].
      apply Hdone; [by apply Hkl|]. specialize (bs_wf b Hb). lia. }
  { done. }
  assert (HA1' : ∀ b, b ∈ A1 ↔ b ∈ bs ∧ left b ∈ done ++ [x] ∧ right b ∈ L).
  { intros b. rewrite HA1, HA. unfold listed_at. rewrite list_elem_of_filter.
    rewrite elem_of_app, list_elem_of_singleton, elem_of_cons. split.
    - intros [[(Hb & Hd & [Hr|Hr]) Hn]|[[_ Hb] Hl]].
      + exfalso. apply Hn. split; [by right|done].
      + tauto.
      + split; [done|]. split; [by right|].
        apply Hlater; [by apply Hkr|]. specialize (bs_wf b Hb). lia.
    - intros (Hb & [Hd|Hl] & Hr).
      + left. split; [tauto|]. intros [[El|Er] _].
        * specialize (Hdx _ Hd). lia.
        * specialize (HxL _ Hr). lia.
      + right. tauto. }
  destruct (tracked_peek (λ b : Building, b) height MaxHeapPriorityQueue
              (sky_pq s1) (sky_locs s1) A1 [(0%Z, fl)] Htr1)
    as (v & top & Hpeek & Hin & Hbest); [done|].
  assert (height top = v) as Htop.
  { apply elem_of_cons in Hin as [Hin|Hin].
    - injection Hin as -> ->. done.
    - apply list_elem_of_fmap in Hin as (b & Hb & _). by injection Hb as -> ->. }
  assert (v = height_at bs x) as Hv.
  { symmetry. apply max_unique.
    - apply elem_of_cons in Hin as [Hin|Hin].
      + injection Hin as -> _. by left.
      + right. apply list_elem_of_fmap in Hin as (b & Hb & HbA).
        injection Hb as -> _. apply list_elem_of_fmap. exists b. split; [done|].
        unfold covering. apply list_elem_of_filter.
        apply HA1' in HbA as (Hbs & Hl & Hr). split; [|done]. split.
        * apply elem_of_app in Hl as [Hd|Hx%list_elem_of_singleton]; [|lia].
          specialize (Hdx _ Hd). lia.
        * specialize (HxL _ Hr). lia.
    - intros e [->|He]%elem_of_cons.
      + apply (Hbest (0%Z, fl)). by left.
      + apply list_elem_of_fmap in He as (b & -> & Hb).
        unfold covering in Hb. apply list_elem_of_filter in Hb as [[Hl Hr] Hbs].
        apply (Hbest (height b, b)). right. apply list_elem_of_fmap.
        exists b. split; [done|]. apply HA1'. split; [done|]. split.
        * destruct (decide (left b = x)) as [->|Hne].
          -- apply elem_of_app. right. by apply list_elem_of_singleton.
          -- apply elem_of_app. left. apply Hdone; [by apply Hkl|lia].
        * apply Hlater; [by apply Hkr|lia]. }
  destruct (last_height_cons 0 0 (changes 0 (point <$> done))) as (q & Hlast & Hq).
  rewrite <- Hres, <- Hres1 in Hlast.
  assert (Hnew : (0, 0)%Z :: changes 0 (point <$> (done ++ [x])) =
                 if bool_decide (q.2 ≠ (x, height top).2)
                 then sky_res s1 ++ [(x, height top)] else sky_res s1).
  { rewrite fmap_app. change (point <$> [x]) with [point x].
    rewrite changes_snoc, Hres1, Hres, Hq, Htop, Hv.
    change (point x) with (x, height_at bs x). cbn [snd].
    destruct (bool_decide (last_height 0 (changes 0 (point <$> done))
                           ≠ height_at bs x)); [done|].
    by rewrite app_nil_r. }
  unfold at_x. rewrite Hev, Hf, Hpeek, Hlast.
  destruct (bool_decide (q.2 ≠ (x, height top).2)) eqn:Hc;
    eexists _, A1; (split; [reflexivity|]); (split; [exact Htr1|]);
    (split; [exact HA1'|]); simpl; by rewrite Hnew.
Qed.

Lemma for_xs_spec : ∀ (L done : list Z) (s : sky) (A : list Building),
  StronglySorted Z.lt (done ++ L) →
  (∀ y, y ∈ done ++ L ↔ ∃ b, b ∈ bs ∧ (y = left b ∨ y = right b)) →
  sky_tracked s A fl →
  (∀ b, b ∈ A ↔ b ∈ bs ∧ left b ∈ done ∧ right b ∈ L) →
  sky_res s = (0, 0)%Z :: changes 0 (point <$> done) →
  ∃ s', for_xs (build_events bs) L s = inr s' ∧
        sky_res s' = (0, 0)%Z :: changes 0 (point <$> (done ++ L)).
Proof.
  induction L as [|x L IH]; intros done s A Hsort Hkeys Htr HA Hres.
  - exists s. split; [done|]. by rewrite app_nil_r.
  - destruct (at_x_spec done L x s A Hsort Hkeys Htr HA Hres)
      as (s1 & A1 & Hat & Htr1 & HA1 & Hres1).
    destruct (IH (done ++ [x]) s1 A1) as (s' & Hf & Hres').
    + by rewrite <- app_assoc.
    + intros y. rewrite <- app_assoc. apply Hkeys.
    + done.
    + done.
    + done.
    + exists s'. simpl. rewrite Hat. split; [done|].
      by rewrite Hres', <- app_assoc.
Qed.

End SkylineLoop.

(** ** The result of [skyline] *)

Lemma skyline_spec (bs : list Building) (kp : list Z) :
  NoDup bs → bs ≠ [] →
  (∀ b, b ∈ bs → (left b < right b)%Z) →
  StronglySorted Z.lt kp →
  (∀ x, x ∈ kp ↔ ∃ b, b ∈ bs ∧ (x = left b ∨ x = right b)) →
  skyline bs = inr (changes 0 ((λ x, (x, height_at bs x)) <$> kp)).
Proof.
  intros Hnd Hne Hwf Hsort Hkeys.
  assert (Hwf' : ∀ b, b ∈ bs → left b ≠ right b).
  { intros b Hb. specialize (Hwf b Hb). lia. }
  unfold skyline.
  change (__init__ MaxHeapPriorityQueue height [] empty_state)
    with (Ok tt (mkState (Item:=Building) [] [])).
  destruct bs as [|b0 bs'] eqn:Ebs; [done|]. rewrite <- Ebs in *.
  assert (max_right bs = inr (foldl Z.max (right b0) (right <$> bs'))) as ->
    by (by rewrite Ebs).
  set (fl := mkBuilding 0 0 (foldl Z.max (right b0) (right <$> bs'))).
  set (h0 := mkState (Item:=Building) [] []).
  assert (coherent h0) as Hc0 by (intros i a Hi; done).
  assert (heap_order MaxHeapPriorityQueue h0) as Hh0.
  { intros i vi Hi. done. }
  destruct (append_spec MaxHeapPriorityQueue height fl h0 Hc0) as (h1 & Ha & Hg & Hh1).
  rewrite Ha.
  pose proof (grown_entries _ _ _ _ _ Hc0 Hg) as He1.
  set (s0 := mkSky h1 {[fl := length (store h0)]} [(0, 0)%Z]).
  assert (sky_tracked s0 [] fl) as Htr.
  { split; [split; [apply Hg|auto]|]. split; [constructor|]. split.
    - simpl. rewrite He1. done.
    - intros k Hk. by apply elem_of_nil in Hk. }
  assert (sorted_keys (build_events bs) = kp) as ->.
  { apply sorted_keys_eq; [done|]. intros x. rewrite Hkeys.
    symmetry. apply build_events_lookup. done. }
  destruct (for_xs_spec bs fl Hnd Hwf eq_refl kp [] s0 []) as (s' & Hf & Hres).
  - done.
  - done.
  - done.
  - intros b. rewrite !elem_of_nil. tauto.
  - done.
  - fold s0. rewrite Hf, Hres. done.
Qed.

(** For a non-empty set of buildings that all have [left < right],
    listed in any iteration order, [skyline] returns without raising.
    Its result runs over the x values where some building starts or ends,
    in ascending order, with the height [h(x)] the largest of 0, the
    height of the floor entry the code keeps in the queue, and the
    heights of the buildings [b] with [left b <= x < right b]; it is the
    list of the pairs [(x, h(x))] whose height differs from the height
    recorded before, starting from height 0.  A building of negative
    height therefore never shows. *)
Theorem skyline_correct (bs : list Building) (kp : list Z) :
  NoDup bs → bs ≠ [] →
  (∀ b, b ∈ bs → (left b < right b)%Z) →
  StronglySorted Z.lt kp →
  (∀ x, x ∈ kp ↔ ∃ b, b ∈ bs ∧ (x = left b ∨ x = right b)) →
  skyline bs = inr (changes 0 ((λ x, (x, height_at bs x)) <$> kp)) ∧
  ∀ x, (0 ≤ height_at bs x)%Z ∧
       (∀ b, b ∈ bs → (left b ≤ x)%Z → (x < right b)%Z →
             (height b ≤ height_at bs x)%Z) ∧
       (height_at bs x = 0%Z ∨
        ∃ b, b ∈ bs ∧ (left b ≤ x)%Z ∧ (x < right b)%Z ∧
             height_at bs x = height b).
Proof.
  intros Hnd Hne Hwf Hsort Hkeys.
  split; [by apply skyline_spec|]. apply height_at_spec.
Qed.

(** With no building at all [skyline] raises ValueError, from the [max]
    of an empty sequence. *)
Lemma skyline_empty : skyline [] = inl ValueError.
Proof. reflexivity. Qed.

(** A building of negative height stays under the floor entry:
    skyline([(0, -5, 10)]) is the empty list. *)
Example skyline_negative_height :
  skyline [mkBuilding 0 (-5) 10] = inr [].
Proof. vm_compute. reflexivity. Qed.

(** The significant x values of the example and the height of its
    skyline at each. *)
Definition example_points : list Z :=
  [1; 2; 3; 5; 7; 9; 12; 14; 16; 19; 22; 23; 24; 25; 28; 29]%Z.

(** The check at the end of example.py succeeds in whatever order the
    set of the eight buildings is iterated. *)
Theorem skyline_example_any_order (bs : list Building) :
  bs ≡ₚ example_input → skyline bs = inr example_output.
Proof.
  intros Hp.
  assert (NoDup example_input) as Hnd0.
  { apply (bool_decide_unpack _). vm_compute. exact I. }
  assert (Forall (λ b, (left b < right b)%Z) example_input) as Hwf0.
  { apply (bool_decide_unpack _). vm_compute. exact I. }
  assert (StronglySorted Z.lt example_points) as Hsort.
  { apply (bool_decide_unpack _). vm_compute. exact I. }
  assert (Forall (λ x, Exists (λ b, x = left b ∨ x = right b) example_input)
                 example_points) as Hk1.
  { apply (bool_decide_unpack _). vm_compute. exact I. }
  assert (Forall (λ b, left b ∈ example_points ∧ right b ∈ example_points)
                 example_input) as Hk2.
  { apply (bool_decide_unpack _). vm_compute. exact I. }
  rewrite Forall_forall in Hwf0. rewrite Forall_forall in Hk1.
  rewrite Forall_forall in Hk2.
  rewrite (skyline_spec bs example_points).
  - f_equal.
    assert (∀ x, height_at bs x = height_at example_input x) as Hh.
    { intros x. unfold height_at, covering.
      set (l := height <$> filter (λ b, (left b ≤ x)%Z ∧ (x < right b)%Z) example_input).
      assert (height <$> filter (λ b, (left b ≤ x)%Z ∧ (x < right b)%Z) bs ≡ₚ l) as Hl
        by (by rewrite Hp).
      apply max_unique.
      - rewrite Hl. clearbody l. clear.
        induction l as [|y l IH]; [by left|]. simpl.
        destruct (Z.max_spec y (foldr Z.max 0%Z l)) as [[_ ->]|[_ ->]].
        + apply elem_of_cons in IH as [->|?]; [by left|by right; right].
        + by right; left.
      - intros e He. rewrite Hl in He. clearbody l. clear -He. revert e He.
        induction l as [|y l IH]; intros e He.
        + apply elem_of_cons in He as [->|He]; [done|]. by apply elem_of_nil in He.
        + simpl. apply elem_of_cons in He as [->|[->|He]%elem_of_cons].
          * specialize (IH 0%Z ltac:(by left)). lia.
          * lia.
          * specialize (IH e ltac:(by right)). lia. }
    unfold example_points. rewrite !fmap_cons, !Hh. vm_compute. reflexivity.
  - by rewrite Hp.
  - intros ->. symmetry in Hp. by apply Permutation_nil_r in Hp.
  - intros b. rewrite Hp. apply Hwf0.
  - done.
  - intros x. setoid_rewrite Hp. split.
    + intros Hx. specialize (Hk1 x Hx).
      apply Exists_exists in Hk1 as (b & Hb & Hx'). eauto.
    + intros (b & Hb & [->| ->]); by apply Hk2.
Qed.

Lemma skyline_correct_witness :
  skyline (rev example_input) =
  inr (changes 0 ((λ x, (x, height_at (rev example_input) x)) <$> example_points)).
Proof.
  assert (rev example_input ≡ₚ example_input) as Hp
    by (symmetry; apply Permutation_rev).
  apply (skyline_correct (rev example_input) example_points).
  - apply (bool_decide_unpack _). vm_compute. exact I.
  - discriminate.
  - apply Forall_forall. apply (bool_decide_unpack _). vm_compute. exact I.
  - apply (bool_decide_unpack _). vm_compute. exact I.
  - intros x. split.
    + intros Hx.
      assert (Forall (λ x, Exists (λ b, x = left b ∨ x = right b) (rev example_input))
                     example_points) as Hk
        by (apply (bool_decide_unpack _); vm_compute; exact I).
      rewrite Forall_forall in Hk. specialize (Hk x Hx).
      apply Exists_exists in Hk as (b & Hb & Hx'). eauto.
    + intros (b & Hb & Hx).
      assert (Forall (λ b, left b ∈ example_points ∧ right b ∈ example_points)
                     (rev example_input)) as Hk
        by (apply (bool_decide_unpack _); vm_compute; exact I).
      rewrite Forall_forall in Hk. destruct (Hk b Hb). by destruct Hx as [->| ->].
Defined.

Lemma skyline_example_any_order_witness :
  rev example_input ≡ₚ example_input ∧
  skyline (rev example_input) = inr example_output.
Proof.
  assert (rev example_input ≡ₚ example_input) as Hp
    by (symmetry; apply Permutation_rev).
  split; [exact Hp|]. exact (skyline_example_any_order (rev example_input) Hp).
Defined.
